(** * Yices 2 term API and EF skolemizer: a shallow embedding

    This development embeds in Rocq the parts of [src/term_api.c] and
    [src/exists_forall/ef_skolemize.c] that the specification makes
    statements about, and settles each statement on the embedding.

    Layout:
    - [BufferPool]  : the doubly-linked buffer lists of [term_api.c] and
                      their teardown in [yices_cleanup];
    - [Tables]      : type table, term table and term handles;
    - [Api]         : checks and simplifying constructors of [term_api.c];
    - [Skolem]      : [ef_skolemize_term] and its universal-variable stack.
*)

From Stdlib Require Import ZArith List Bool Lia QArith Permutation Sorting.Sorted.
Import ListNotations.

Close Scope Q_scope.
Set Implicit Arguments.

(* ================================================================== *)
(** * Buffer lists and their teardown                                  *)
(* ================================================================== *)

Module BufferPool.

(** The four static list headers of [term_api.c]:
    [arith_buffer_list], [bvarith_buffer_list], [bvarith64_buffer_list]
    and [bvlogic_buffer_list]. *)
Inductive list_id : Type :=
| ArithList
| BvArithList
| BvArith64List
| BvLogicList.

(** A [dl_list_t *] is either the address of one of the static headers
    or the address of a header embedded in a [safe_malloc]'ed element. *)
Inductive ptr : Type :=
| Header (l : list_id)
| Elem (a : nat).

Definition list_id_eqb (x y : list_id) : bool :=
  match x, y with
  | ArithList, ArithList | BvArithList, BvArithList
  | BvArith64List, BvArith64List | BvLogicList, BvLogicList => true
  | _, _ => false
  end.

Definition ptr_eqb (p q : ptr) : bool :=
  match p, q with
  | Header x, Header y => list_id_eqb x y
  | Elem a, Elem b => Nat.eqb a b
  | _, _ => false
  end.

Lemma ptr_eqb_eq p q : ptr_eqb p q = true <-> p = q.
Proof.
  destruct p as [x|a], q as [y|b]; simpl.
  - destruct x, y; simpl; split; intros H; try reflexivity; try discriminate.
  - split; discriminate.
  - split; discriminate.
  - rewrite Nat.eqb_eq. split; intros H; [now subst | now inversion H].
Qed.

(** Modelled from the spec: [dl_lists.h] is not part of the sources; a
    [dl_list_t] is the usual pair of links of a circular doubly-linked
    list whose empty state is the header pointing at itself. *)
Record dl_list_t : Type := mk_dl { next : ptr; prev : ptr }.

(** The pool: the four static headers and the heap of allocated
    elements (address, embedded header). *)
Record pool : Type := mk_pool {
  arith_buffer_list     : dl_list_t;
  bvarith_buffer_list   : dl_list_t;
  bvarith64_buffer_list : dl_list_t;
  bvlogic_buffer_list   : dl_list_t;
  heap : list (nat * dl_list_t);
  brk  : nat
}.

(** Result of running C code that may leave defined behaviour. *)
Inductive outcome (A : Type) : Type :=
| Ok (a : A)
| Fault      (* deleting or freeing an object that is not a heap element *)
| Timeout.   (* the loop is still running when the fuel is spent *)
Arguments Fault {A}.
Arguments Timeout {A}.

Definition header_of (l : list_id) (m : pool) : dl_list_t :=
  match l with
  | ArithList => arith_buffer_list m
  | BvArithList => bvarith_buffer_list m
  | BvArith64List => bvarith64_buffer_list m
  | BvLogicList => bvlogic_buffer_list m
  end.

Definition set_header (l : list_id) (d : dl_list_t) (m : pool) : pool :=
  match l with
  | ArithList => mk_pool d (bvarith_buffer_list m) (bvarith64_buffer_list m)
                         (bvlogic_buffer_list m) (heap m) (brk m)
  | BvArithList => mk_pool (arith_buffer_list m) d (bvarith64_buffer_list m)
                           (bvlogic_buffer_list m) (heap m) (brk m)
  | BvArith64List => mk_pool (arith_buffer_list m) (bvarith_buffer_list m) d
                             (bvlogic_buffer_list m) (heap m) (brk m)
  | BvLogicList => mk_pool (arith_buffer_list m) (bvarith_buffer_list m)
                           (bvarith64_buffer_list m) d (heap m) (brk m)
  end.

Fixpoint lookup (a : nat) (h : list (nat * dl_list_t)) : option dl_list_t :=
  match h with
  | [] => None
  | (b, d) :: h' => if Nat.eqb a b then Some d else lookup a h'
  end.

Fixpoint remove (a : nat) (h : list (nat * dl_list_t)) : list (nat * dl_list_t) :=
  match h with
  | [] => []
  | (b, d) :: h' => if Nat.eqb a b then remove a h' else (b, d) :: remove a h'
  end.

Definition set_heap (h : list (nat * dl_list_t)) (m : pool) : pool :=
  mk_pool (arith_buffer_list m) (bvarith_buffer_list m) (bvarith64_buffer_list m)
          (bvlogic_buffer_list m) h (brk m).

Definition load (p : ptr) (m : pool) : option dl_list_t :=
  match p with
  | Header l => Some (header_of l m)
  | Elem a => lookup a (heap m)
  end.

Definition store (p : ptr) (d : dl_list_t) (m : pool) : pool :=
  match p with
  | Header l => set_header l d m
  | Elem a => set_heap ((a, d) :: remove a (heap m)) m
  end.

(** [clear_list(l)]: [l->next = l; l->prev = l]. *)
Definition clear_list (l : list_id) (m : pool) : pool :=
  set_header l (mk_dl (Header l) (Header l)) m.

(** [list_insert_next(l, e)]: insert [e] between [l] and [l->next]. *)
Definition list_insert_next (l e : ptr) (m : pool) : pool :=
  match load l m with
  | None => m
  | Some dl =>
      let n := next dl in
      let m1 := store e (mk_dl n l) m in
      let m2 := match load n m1 with
                | Some dn => store n (mk_dl (next dn) e) m1
                | None => m1
                end in
      match load l m2 with
      | Some dl' => store l (mk_dl e (prev dl')) m2
      | None => m2
      end
  end.

(** [safe_malloc]: a fresh element. *)
Definition safe_malloc (m : pool) : nat * pool :=
  (brk m,
   mk_pool (arith_buffer_list m) (bvarith_buffer_list m) (bvarith64_buffer_list m)
           (bvlogic_buffer_list m)
           ((brk m, mk_dl (Elem (brk m)) (Elem (brk m))) :: heap m) (S (brk m))).

(** [alloc_bvarith_buffer], [alloc_bvarith64_buffer], ...: allocate an
    element and insert it after the header of its list. *)
Definition alloc_buffer (l : list_id) (m : pool) : nat * pool :=
  let '(a, m1) := safe_malloc m in
  (a, list_insert_next (Header l) (Elem a) m1).

(** [safe_free(elem)]. *)
Definition safe_free (a : nat) (m : pool) : pool := set_heap (remove a (heap m)) m.

(** The loop shared by the four [free_*_buffer_list] functions:
<<
    while (elem != sentinel) {
      aux = elem->next;
      delete_X_buffer(X_buffer(elem));
      safe_free(elem);
      elem = aux;
    }
>>
    [delete_X_buffer] and [safe_free] are defined only on a live heap
    element; on a static header the behaviour is undefined ([Fault]). *)
Fixpoint free_loop (sentinel : ptr) (fuel : nat) (elem : ptr) (m : pool) : outcome pool :=
  if ptr_eqb elem sentinel then Ok m
  else match fuel with
       | O => Timeout
       | S fuel' =>
           match elem with
           | Header _ => Fault
           | Elem a =>
               match lookup a (heap m) with
               | None => Fault
               | Some d => free_loop sentinel fuel' (next d) (safe_free a m)
               end
           end
       end.

Definition then_clear (l : list_id) (o : outcome pool) : outcome pool :=
  match o with
  | Ok m => Ok (clear_list l m)
  | Fault => Fault
  | Timeout => Timeout
  end.

Definition free_arith_buffer_list (fuel : nat) (m : pool) : outcome pool :=
  then_clear ArithList
    (free_loop (Header ArithList) fuel (next (arith_buffer_list m)) m).

Definition free_bvarith_buffer_list (fuel : nat) (m : pool) : outcome pool :=
  then_clear BvArithList
    (free_loop (Header BvArithList) fuel (next (bvarith_buffer_list m)) m).

(** As written in the source: the loop starts at
    [bvarith64_buffer_list.next] but is guarded by
    [elem != &bvarith_buffer_list]. *)
Definition free_bvarith64_buffer_list (fuel : nat) (m : pool) : outcome pool :=
  then_clear BvArith64List
    (free_loop (Header BvArithList) fuel (next (bvarith64_buffer_list m)) m).

Definition free_bvlogic_buffer_list (fuel : nat) (m : pool) : outcome pool :=
  then_clear BvLogicList
    (free_loop (Header BvLogicList) fuel (next (bvlogic_buffer_list m)) m).

Definition obind {A B} (o : outcome A) (k : A -> outcome B) : outcome B :=
  match o with
  | Ok a => k a
  | Fault => Fault
  | Timeout => Timeout
  end.

(** The buffer lists as [yices_init] leaves them. *)
Definition yices_init : pool :=
  mk_pool (mk_dl (Header ArithList) (Header ArithList))
          (mk_dl (Header BvArithList) (Header BvArithList))
          (mk_dl (Header BvArith64List) (Header BvArith64List))
          (mk_dl (Header BvLogicList) (Header BvLogicList))
          [] 0.

(** The buffer part of [yices_cleanup], in source order. *)
Definition yices_cleanup (fuel : nat) (m : pool) : outcome pool :=
  obind (free_bvlogic_buffer_list fuel m) (fun m1 =>
  obind (free_bvarith_buffer_list fuel m1) (fun m2 =>
  obind (free_bvarith64_buffer_list fuel m2) (fun m3 =>
  free_arith_buffer_list fuel m3))).

(** [lseg m p l q]: following [next] from [p] visits exactly the heap
    elements [l] and arrives at [q]. *)
Inductive lseg (m : pool) : ptr -> list nat -> ptr -> Prop :=
| lseg_nil p : lseg m p [] p
| lseg_cons a d l q :
    lookup a (heap m) = Some d ->
    lseg m (next d) l q ->
    lseg m (Elem a) (a :: l) q.

(** The list with header [l] is a well-formed circular list holding
    the elements [els]. *)
Definition list_holds (m : pool) (l : list_id) (els : list nat) : Prop :=
  lseg m (next (header_of l m)) els (Header l) /\ NoDup els.

Lemma lookup_remove_neq a b h : a <> b -> lookup a (remove b h) = lookup a h.
Proof.
  intros Hab. induction h as [|[c d] h IH]; simpl; [reflexivity|].
  destruct (Nat.eqb_spec b c) as [->|Hbc].
  - rewrite IH. destruct (Nat.eqb_spec a c); [contradiction | reflexivity].
  - simpl. now rewrite IH.
Qed.

Lemma lookup_remove_eq a h : lookup a (remove a h) = None.
Proof.
  induction h as [|[c d] h IH]; simpl; [reflexivity|].
  destruct (Nat.eqb_spec a c) as [->|Hac]; [exact IH|].
  simpl. destruct (Nat.eqb_spec a c); [contradiction | exact IH].
Qed.

Lemma lseg_safe_free m a p l q :
  ~ In a l -> lseg m p l q -> lseg (safe_free a m) p l q.
Proof.
  intros Hn H. induction H as [p|b d l q Hb Hl IH].
  - constructor.
  - econstructor.
    + simpl. rewrite lookup_remove_neq; [exact Hb|].
      intros ->. apply Hn. now left.
    + apply IH. intros Hin. apply Hn. now right.
Qed.

Lemma free_loop_eq sentinel fuel elem m :
  free_loop sentinel fuel elem m
  = if ptr_eqb elem sentinel then Ok m
    else match fuel with
         | O => Timeout
         | S fuel' =>
             match elem with
             | Header _ => Fault
             | Elem a =>
                 match lookup a (heap m) with
                 | None => Fault
                 | Some d => free_loop sentinel fuel' (next d) (safe_free a m)
                 end
             end
         end.
Proof. destruct fuel; reflexivity. Qed.

(** Run with the header of its own list as sentinel, the loop frees
    every element and stops (this is what the three sibling functions
    do). *)
Lemma free_loop_drains ls :
  forall els m p fuel,
    lseg m p els (Header ls) -> NoDup els -> length els <= fuel ->
    exists m',
      free_loop (Header ls) fuel p m = Ok m'
      /\ (forall a, In a els -> lookup a (heap m') = None)
      /\ (forall a, ~ In a els -> lookup a (heap m') = lookup a (heap m))
      /\ (forall l, header_of l m' = header_of l m).
Proof.
  induction els as [|a els IH]; intros m p fuel Hseg Hnd Hlen.
  - inversion Hseg; subst. exists m.
    assert (E : ptr_eqb (Header ls) (Header ls) = true) by now apply ptr_eqb_eq.
    rewrite free_loop_eq, E.
    split; [reflexivity|]. split; [intros a []|]. split; reflexivity.
  - inversion Hseg as [|a' d els' q Ha Hs]; subst.
    inversion Hnd as [|? ? Hnin Hnd']; subst.
    destruct fuel as [|fuel]; [simpl in Hlen; lia|].
    simpl in Hlen.
    destruct (IH (safe_free a m) (next d) fuel) as (m' & Hrun & Hfreed & Hkept & Hhdr).
    + now apply lseg_safe_free.
    + exact Hnd'.
    + lia.
    + exists m'. rewrite free_loop_eq. simpl ptr_eqb. cbv iota. rewrite Ha.
      split; [exact Hrun|].
      split; [|split].
      * intros b [<-|Hb]; [|now apply Hfreed].
        rewrite Hkept by exact Hnin. simpl. apply lookup_remove_eq.
      * intros b Hb. rewrite Hkept by (intros Hin; apply Hb; now right).
        simpl. apply lookup_remove_neq. intros ->. apply Hb. now left.
      * intros l. rewrite Hhdr. now destruct l.
Qed.

(** Run with the header of another list as sentinel, the loop walks
    the whole list, reaches the list's own static header, which is not
    the sentinel, and applies [delete_X_buffer] and [safe_free] to it. *)
Lemma free_loop_wrong_sentinel ls lq :
  lq <> ls ->
  forall els m p fuel,
    lseg m p els (Header lq) -> NoDup els ->
    free_loop (Header ls) fuel p m
    = if length els <? fuel then Fault else Timeout.
Proof.
  intros Hneq. induction els as [|a els IH]; intros m p fuel Hseg Hnd.
  - inversion Hseg; subst.
    assert (E : ptr_eqb (Header lq) (Header ls) = false).
    { destruct (ptr_eqb (Header lq) (Header ls)) eqn:E; [|reflexivity].
      apply ptr_eqb_eq in E. inversion E. contradiction. }
    rewrite free_loop_eq, E. destruct fuel; reflexivity.
  - inversion Hseg as [|a' d els' q Ha Hs]; subst.
    inversion Hnd as [|? ? Hnin Hnd']; subst.
    destruct fuel as [|fuel]; [reflexivity|].
    rewrite free_loop_eq. simpl ptr_eqb. cbv iota. rewrite Ha.
    rewrite (IH (safe_free a m) (next d) fuel).
    + reflexivity.
    + now apply lseg_safe_free.
    + exact Hnd'.
Qed.

(** Sibling path: [free_bvarith_buffer_list] terminates, frees every
    element of its list and leaves the list empty. *)
Lemma free_bvarith_buffer_list_drains m els fuel :
  list_holds m BvArithList els -> length els <= fuel ->
  exists m',
    free_bvarith_buffer_list fuel m = Ok m'
    /\ (forall a, In a els -> lookup a (heap m') = None)
    /\ list_holds m' BvArithList [].
Proof.
  intros [Hseg Hnd] Hlen.
  destruct (free_loop_drains Hseg Hnd Hlen) as (m' & Hrun & Hfreed & _ & _).
  exists (clear_list BvArithList m'). unfold free_bvarith_buffer_list.
  simpl header_of in Hrun. rewrite Hrun. simpl. split; [reflexivity|]. split; [exact Hfreed|].
  split; [constructor | constructor].
Qed.

(** C2 (evidence of the defect).  Whenever the 64-bit bv-arith buffer
    list is a well-formed circular list, [free_bvarith64_buffer_list]
    never completes: after freeing the elements it reaches the header
    [bvarith64_buffer_list] itself, which differs from the sentinel
    [&bvarith_buffer_list], and deletes and frees that static object
    (undefined behaviour); with less fuel it is still looping.  The list
    is never cleared. *)
Theorem free_bvarith64_buffer_list_faults m els fuel :
  list_holds m BvArith64List els ->
  free_bvarith64_buffer_list fuel m
  = if length els <? fuel then Fault else Timeout.
Proof.
  intros [Hseg Hnd]. unfold free_bvarith64_buffer_list.
  rewrite (@free_loop_wrong_sentinel BvArithList BvArith64List) with (els := els).
  - now destruct (length els <? fuel).
  - discriminate.
  - exact Hseg.
  - exact Hnd.
Qed.

(** The pool after [yices_init] and two calls of
    [alloc_bvarith64_buffer]. *)
Definition pool_two_bv64 : pool :=
  snd (alloc_buffer BvArith64List (snd (alloc_buffer BvArith64List yices_init))).

Lemma free_bvarith64_buffer_list_faults_witness :
  list_holds pool_two_bv64 BvArith64List [1; 0]
  /\ free_bvarith64_buffer_list 10 pool_two_bv64 = Fault.
Proof.
  assert (H : list_holds pool_two_bv64 BvArith64List [1; 0]).
  { split.
    - eapply lseg_cons; [reflexivity|].
      eapply lseg_cons; [reflexivity|]. apply lseg_nil.
    - repeat constructor; simpl; intuition discriminate. }
  split; [exact H|].
  exact (free_bvarith64_buffer_list_faults 10 H).
Defined.

(** Teardown right after initialisation, with all four lists empty:
    the 64-bit loop is entered with [elem = &bvarith64_buffer_list]. *)
Lemma yices_cleanup_after_init_faults :
  forall fuel, yices_cleanup (S fuel) yices_init = Fault.
Proof. intros fuel. reflexivity. Qed.

End BufferPool.

(* ================================================================== *)
(** * Type table, term table, term handles                             *)
(* ================================================================== *)

Module Tables.

Local Open Scope Z_scope.

Definition type_t := Z.
Definition term_t := Z.

Definition NULL_TYPE : type_t := -1.
Definition NULL_TERM : term_t := -1.

(** ** Term handles

    Modelled from the spec: [terms.h] is not part of the sources.  A
    term handle is an integer whose low bit is the polarity and whose
    remaining bits are the index in the term table (spec 1, 6 and 9);
    "boolean negation of term reference t is an O(1) bit flip".  The
    live part of [term_api.c] agrees: [arith_buffer_get_gt0_atom]
    returns [not_term(&terms, t)] in debug builds and
    [opposite_term(t)] otherwise. *)
Definition pos_term (i : Z) : term_t := Z.shiftl i 1.
Definition neg_term (i : Z) : term_t := Z.lor (Z.shiftl i 1) 1.
Definition index_of (t : term_t) : Z := Z.shiftr t 1.
Definition polarity_of (t : term_t) : Z := Z.land t 1.
Definition is_neg_term (t : term_t) : bool := Z.testbit t 0.
Definition is_pos_term (t : term_t) : bool := negb (Z.testbit t 0).
Definition opposite_term (t : term_t) : term_t := Z.lxor t 1.
Definition unsigned_term (t : term_t) : term_t := Z.land t (Z.lnot 1).

(** Reserved indices and predefined handles. *)
Definition const_idx : Z := 0.
Definition bool_const : Z := 1.
Definition zero_const : Z := 2.
Definition true_term : term_t := 2.
Definition false_term : term_t := 3.
Definition zero_term : term_t := 4.

Definition bool2term (b : bool) : term_t := if b then true_term else false_term.

(** ** Types

    Modelled from the spec: [types.h] is not part of the sources; the
    variants are those of spec 3.1. *)
Inductive type_kind_t : Type :=
| UNUSED_TYPE | BOOL_TYPE | INT_TYPE | REAL_TYPE | BITVECTOR_TYPE
| SCALAR_TYPE | UNINTERPRETED_TYPE | TUPLE_TYPE | FUNCTION_TYPE.

Inductive type_desc : Type :=
| Bool_desc
| Int_desc
| Real_desc
| Bitvector_desc (size : Z)
| Scalar_desc (card : Z)
| Uninterpreted_desc
| Tuple_desc (elem : list type_t)
| Function_desc (domain : list type_t) (range : type_t).

Definition type_table := list type_desc.

Definition bool_id : type_t := 0.
Definition int_id : type_t := 1.
Definition real_id : type_t := 2.

Definition init_type_table : type_table := [Bool_desc; Int_desc; Real_desc].

Definition bool_type (tbl : type_table) : type_t := bool_id.
Definition int_type (tbl : type_table) : type_t := int_id.
Definition real_type (tbl : type_table) : type_t := real_id.

Definition type_desc_of (tbl : type_table) (tau : type_t) : option type_desc :=
  if tau <? 0 then None else nth_error tbl (Z.to_nat tau).

Definition bad_type (tbl : type_table) (tau : type_t) : bool :=
  match type_desc_of tbl tau with
  | Some _ => false
  | None => true
  end.

Definition type_kind (tbl : type_table) (tau : type_t) : type_kind_t :=
  match type_desc_of tbl tau with
  | None => UNUSED_TYPE
  | Some Bool_desc => BOOL_TYPE
  | Some Int_desc => INT_TYPE
  | Some Real_desc => REAL_TYPE
  | Some (Bitvector_desc _) => BITVECTOR_TYPE
  | Some (Scalar_desc _) => SCALAR_TYPE
  | Some Uninterpreted_desc => UNINTERPRETED_TYPE
  | Some (Tuple_desc _) => TUPLE_TYPE
  | Some (Function_desc _ _) => FUNCTION_TYPE
  end.

Definition type_kind_eqb (k1 k2 : type_kind_t) : bool :=
  match k1, k2 with
  | UNUSED_TYPE, UNUSED_TYPE | BOOL_TYPE, BOOL_TYPE | INT_TYPE, INT_TYPE
  | REAL_TYPE, REAL_TYPE | BITVECTOR_TYPE, BITVECTOR_TYPE
  | SCALAR_TYPE, SCALAR_TYPE | UNINTERPRETED_TYPE, UNINTERPRETED_TYPE
  | TUPLE_TYPE, TUPLE_TYPE | FUNCTION_TYPE, FUNCTION_TYPE => true
  | _, _ => false
  end.

Definition scalar_type_cardinal (tbl : type_table) (tau : type_t) : Z :=
  match type_desc_of tbl tau with
  | Some (Scalar_desc k) => k
  | _ => 0
  end.

Definition bv_type_size (tbl : type_table) (tau : type_t) : Z :=
  match type_desc_of tbl tau with
  | Some (Bitvector_desc n) => n
  | _ => 0
  end.

Definition tuple_type_elem (tbl : type_table) (tau : type_t) : list type_t :=
  match type_desc_of tbl tau with
  | Some (Tuple_desc e) => e
  | _ => []
  end.

Definition tuple_type_arity (tbl : type_table) (tau : type_t) : Z :=
  Z.of_nat (length (tuple_type_elem tbl tau)).

Definition function_type_domain (tbl : type_table) (tau : type_t) : list type_t :=
  match type_desc_of tbl tau with
  | Some (Function_desc d _) => d
  | _ => []
  end.

Definition function_type_range (tbl : type_table) (tau : type_t) : type_t :=
  match type_desc_of tbl tau with
  | Some (Function_desc _ r) => r
  | _ => NULL_TYPE
  end.

Definition is_integer_type (tau : type_t) : bool := tau =? int_id.
Definition is_arithmetic_type (tau : type_t) : bool := (tau =? int_id) || (tau =? real_id).

(** Modelled from the spec (4.1): [super_type] is the common handle
    when the two types are equal, [Real] when the operands are [Int]
    and [Real], and none otherwise; [compatible] iff a supertype
    exists; [Int] is a subtype of [Real] and subtyping is reflexive. *)
Definition super_type (tbl : type_table) (tau1 tau2 : type_t) : type_t :=
  if tau1 =? tau2 then tau1
  else if is_arithmetic_type tau1 && is_arithmetic_type tau2 then real_id
  else NULL_TYPE.

Definition compatible_types (tbl : type_table) (tau1 tau2 : type_t) : bool :=
  negb (super_type tbl tau1 tau2 =? NULL_TYPE).

Definition is_subtype (tbl : type_table) (tau sigma : type_t) : bool :=
  (tau =? sigma) || ((tau =? int_id) && (sigma =? real_id)).

(** Cardinality of a type (spec 3.1), [None] for the infinite types. *)
Fixpoint type_card_fuel (fuel : nat) (tbl : type_table) (tau : type_t) : option Z :=
  match fuel with
  | O => None
  | S fuel' =>
      match type_desc_of tbl tau with
      | Some Bool_desc => Some 2
      | Some (Bitvector_desc n) => Some (2 ^ n)
      | Some (Scalar_desc k) => Some k
      | Some (Tuple_desc e) =>
          fold_right (fun sigma acc =>
                        match type_card_fuel fuel' tbl sigma, acc with
                        | Some c, Some a => Some (c * a)
                        | _, _ => None
                        end) (Some 1) e
      | Some (Function_desc d r) =>
          match fold_right (fun sigma acc =>
                              match type_card_fuel fuel' tbl sigma, acc with
                              | Some c, Some a => Some (c * a)
                              | _, _ => None
                              end) (Some 1) d,
                type_card_fuel fuel' tbl r with
          | Some dc, Some rc => Some (rc ^ dc)
          | _, _ => None
          end
      | _ => None
      end
  end.

Definition type_card (tbl : type_table) (tau : type_t) : option Z :=
  type_card_fuel (S (length tbl)) tbl tau.

(** ** Polynomials and bits *)

(** Modelled from the spec (3.3): a polynomial is a linear combination
    of monomials [coeff * var], kept sorted by strictly increasing
    variable, without zero coefficients, every coefficient in lowest
    terms.  The constant monomial uses the reserved variable
    [const_idx]. *)
Definition monomial : Type := (Z * Q)%type.
Definition polynomial := list monomial.

(** Modelled from the spec (glossary, "bit-array term"): a bit of a
    bit-vector buffer is a boolean constant, the [k]-th bit of a
    bit-vector term, or an arbitrary boolean term. *)
Inductive bit_t : Type :=
| true_bit
| false_bit
| select_bit (k : Z) (u : term_t)
| term_bit (t : term_t).

Inductive bvop_t : Type :=
| BVOP_DIV | BVOP_REM | BVOP_SDIV | BVOP_SREM | BVOP_SMOD
| BVOP_SHL | BVOP_LSHR | BVOP_ASHR.

(** ** Terms

    Kinds as named in [term_api.c].  [NOT_TERM] is the kind the
    constructors test for a negated boolean term: with the polarity
    bit it is the kind of every handle of negative polarity (spec 3.2:
    negative connectives "are represented as the negated polarity of
    the corresponding positive kind"). *)
Inductive term_kind_t : Type :=
| UNUSED_TERM | RESERVED_TERM | CONSTANT_TERM | UNINTERPRETED_TERM | VARIABLE
| NOT_TERM | ITE_TERM | EQ_TERM | APP_TERM | OR_TERM | TUPLE_TERM | SELECT_TERM
| UPDATE_TERM | DISTINCT_TERM | FORALL_TERM
| ARITH_TERM | ARITH_EQ_ATOM | ARITH_GE_ATOM | ARITH_BINEQ_ATOM
| BV_LOGIC_TERM | BV_CONST_TERM | BV_APPLY_TERM | BV_EQ_ATOM | BIT_TERM.

Inductive term_desc : Type :=
| Reserved_desc
| Constant_desc (tau : type_t) (index : Z)
| Uninterpreted_desc_t (serial : Z)
| Variable_desc (tau : type_t) (index : Z)
| Ite_desc (cond then_arg else_arg : term_t)
| Eq_desc (left right : term_t)
| App_desc (f : term_t) (arg : list term_t)
| Or_desc (arg : list term_t)
| Tuple_desc_t (arg : list term_t)
| Select_desc (idx : Z) (arg : term_t)
| Update_desc (f : term_t) (arg : list term_t) (newval : term_t)
| Distinct_desc (arg : list term_t)
| Forall_desc (var : list term_t) (body : term_t)
| Arith_desc (p : polynomial)
| Arith_eq_desc (p : polynomial)
| Arith_ge_desc (p : polynomial)
| Arith_bineq_desc (left right : term_t)
| Bvlogic_desc (bit : list term_t)
| Bvconst_desc (nbits : Z) (value : Z)
| Bvapply_desc (op : bvop_t) (left right : term_t)
| Bveq_desc (left right : term_t)
| Bit_desc (k : Z) (u : term_t).

Definition term_table := list (term_desc * type_t).

Definition term_desc_eq_dec (d1 d2 : term_desc) : {d1 = d2} + {d1 <> d2}.
Proof. repeat decide equality. Defined.

Definition term_kind_eq_dec (k1 k2 : term_kind_t) : {k1 = k2} + {k1 <> k2}.
Proof. decide equality. Defined.

Definition kind_eqb (k1 k2 : term_kind_t) : bool :=
  if term_kind_eq_dec k1 k2 then true else false.

(** The table after [init_term_table]: index 0 is reserved, index 1 is
    the boolean constant, index 2 the arithmetic constant zero. *)
Definition init_term_table : term_table :=
  [ (Reserved_desc, NULL_TYPE);
    (Constant_desc bool_id 0, bool_id);
    (Arith_desc [], int_id) ].

Definition entry_of (tbl : term_table) (t : term_t) : option (term_desc * type_t) :=
  if t <? 0 then None else nth_error tbl (Z.to_nat (index_of t)).

Definition term_type (tbl : term_table) (t : term_t) : type_t :=
  match entry_of tbl t with
  | Some (_, tau) => tau
  | None => NULL_TYPE
  end.

Definition term_desc_of (tbl : term_table) (t : term_t) : term_desc :=
  match entry_of tbl t with
  | Some (d, _) => d
  | None => Reserved_desc
  end.

Definition kind_of_desc (d : term_desc) : term_kind_t :=
  match d with
  | Reserved_desc => RESERVED_TERM
  | Constant_desc _ _ => CONSTANT_TERM
  | Uninterpreted_desc_t _ => UNINTERPRETED_TERM
  | Variable_desc _ _ => VARIABLE
  | Ite_desc _ _ _ => ITE_TERM
  | Eq_desc _ _ => EQ_TERM
  | App_desc _ _ => APP_TERM
  | Or_desc _ => OR_TERM
  | Tuple_desc_t _ => TUPLE_TERM
  | Select_desc _ _ => SELECT_TERM
  | Update_desc _ _ _ => UPDATE_TERM
  | Distinct_desc _ => DISTINCT_TERM
  | Forall_desc _ _ => FORALL_TERM
  | Arith_desc _ => ARITH_TERM
  | Arith_eq_desc _ => ARITH_EQ_ATOM
  | Arith_ge_desc _ => ARITH_GE_ATOM
  | Arith_bineq_desc _ _ => ARITH_BINEQ_ATOM
  | Bvlogic_desc _ => BV_LOGIC_TERM
  | Bvconst_desc _ _ => BV_CONST_TERM
  | Bvapply_desc _ _ _ => BV_APPLY_TERM
  | Bveq_desc _ _ => BV_EQ_ATOM
  | Bit_desc _ _ => BIT_TERM
  end.

(** [good_term]: the index is live and a negative polarity occurs only
    on a boolean term (spec 3.2: "non-boolean terms are always
    referenced with positive polarity"). *)
Definition good_term (tbl : term_table) (t : term_t) : bool :=
  match entry_of tbl t with
  | None => false
  | Some (Reserved_desc, _) => false
  | Some (_, tau) => is_pos_term t || (tau =? bool_id)
  end.

Definition bad_term (tbl : term_table) (t : term_t) : bool := negb (good_term tbl t).

(** [term_kind] as the constructors of [term_api.c] use it: a handle
    of negative polarity is a [NOT_TERM] whose argument
    ([not_term_arg]) is the handle of opposite polarity. *)
Definition term_kind (tbl : term_table) (t : term_t) : term_kind_t :=
  match entry_of tbl t with
  | None => UNUSED_TERM
  | Some (d, _) => if is_neg_term t then NOT_TERM else kind_of_desc d
  end.

Definition not_term_arg (tbl : term_table) (t : term_t) : term_t := opposite_term t.
Definition not_term (tbl : term_table) (t : term_t) : term_t := opposite_term t.

Definition is_boolean_term (tbl : term_table) (t : term_t) : bool :=
  term_type tbl t =? bool_id.
Definition is_integer_term (tbl : term_table) (t : term_t) : bool :=
  term_type tbl t =? int_id.
Definition is_arithmetic_term (tbl : term_table) (t : term_t) : bool :=
  is_arithmetic_type (term_type tbl t).

(** ** Hash-consing

    Modelled from the spec (T-2): a composite with the same kind and
    the same arguments as an existing one shares its index; otherwise
    a new index is allocated at the end of the table. *)
Fixpoint find_desc (d : term_desc) (tbl : term_table) (i : Z) : option Z :=
  match tbl with
  | [] => None
  | (d', _) :: tbl' =>
      if term_desc_eq_dec d d' then Some i else find_desc d tbl' (i + 1)
  end.

Definition intern (d : term_desc) (tau : type_t) (tbl : term_table)
  : term_t * term_table :=
  match find_desc d tbl 0 with
  | Some i => (pos_term i, tbl)
  | None => (pos_term (Z.of_nat (length tbl)), tbl ++ [(d, tau)])
  end.

(** ** Facts on handles *)

Lemma lxor_1 t : Z.lxor t 1 = if Z.odd t then t - 1 else t + 1.
Proof.
  pose proof (Z.div2_odd t) as Ht.
  assert (H1 : forall n, 0 <= n -> Z.testbit 1 (Z.succ n) = false).
  { intros n Hn. change 1 with (2 * 0 + Z.b2z true).
    rewrite Z.testbit_succ_r by lia. apply Z.testbit_0_l. }
  assert (Hb : forall q b c n, 0 <= n ->
             Z.testbit (Z.lxor (2 * q + Z.b2z b) 1) n
             = Z.testbit (2 * q + Z.b2z c) n \/ n = 0).
  { intros q b c n Hn. destruct (Z.eq_dec n 0) as [->|Hn0]; [now right|left].
    replace n with (Z.succ (n - 1)) by lia.
    rewrite Z.lxor_spec, !Z.testbit_succ_r, H1 by lia. apply xorb_false_r. }
  destruct (Z.odd t) eqn:E; simpl Z.b2z in Ht.
  - apply Z.bits_inj'. intros n Hn.
    destruct (Z.eq_dec n 0) as [->|Hn0].
    + rewrite Z.lxor_spec, !Z.bit0_odd, Z.odd_sub, E. reflexivity.
    + destruct (Hb (Z.div2 t) true false n Hn) as [H|H]; [|contradiction].
      simpl Z.b2z in H. replace (t - 1) with (2 * Z.div2 t + 0) by lia.
      rewrite <- H. now rewrite <- Ht.
  - apply Z.bits_inj'. intros n Hn.
    destruct (Z.eq_dec n 0) as [->|Hn0].
    + rewrite Z.lxor_spec, !Z.bit0_odd, Z.odd_add, E. reflexivity.
    + destruct (Hb (Z.div2 t) false true n Hn) as [H|H]; [|contradiction].
      simpl Z.b2z in H. replace (t + 1) with (2 * Z.div2 t + 1) by lia.
      rewrite <- H. now rewrite <- Ht.
Qed.

Lemma opposite_term_involutive t : opposite_term (opposite_term t) = t.
Proof.
  unfold opposite_term. rewrite Z.lxor_assoc. simpl (Z.lxor 1 1).
  apply Z.lxor_0_r.
Qed.

Lemma opposite_term_neq t : opposite_term t <> t.
Proof.
  unfold opposite_term. rewrite lxor_1. destruct (Z.odd t); lia.
Qed.

Lemma index_of_opposite t : index_of (opposite_term t) = index_of t.
Proof.
  unfold index_of, opposite_term.
  rewrite Z.shiftr_lxor. change (Z.shiftr 1 1) with 0. apply Z.lxor_0_r.
Qed.

Lemma is_neg_term_opposite t : is_neg_term (opposite_term t) = negb (is_neg_term t).
Proof.
  unfold is_neg_term, opposite_term. rewrite Z.lxor_spec.
  simpl (Z.testbit 1 0). now rewrite xorb_true_r.
Qed.

Lemma opposite_term_nonneg t : 0 <= t -> 0 <= opposite_term t.
Proof.
  unfold opposite_term. intros H. rewrite lxor_1.
  destruct (Z.odd t) eqn:E; [|lia].
  assert (t <> 0) by (intros ->; discriminate). lia.
Qed.

Lemma opposite_term_neg t : t < 0 -> opposite_term t < 0.
Proof.
  unfold opposite_term. intros H. rewrite lxor_1.
  destruct (Z.odd t) eqn:E; [lia|].
  assert (t <> -1) by (intros ->; discriminate). lia.
Qed.

Lemma opposite_true : opposite_term true_term = false_term.
Proof. reflexivity. Qed.

Lemma opposite_false : opposite_term false_term = true_term.
Proof. reflexivity. Qed.

Lemma entry_of_opposite tbl t : entry_of tbl (opposite_term t) = entry_of tbl t.
Proof.
  unfold entry_of. rewrite index_of_opposite.
  destruct (t <? 0) eqn:E.
  - apply Z.ltb_lt in E. apply opposite_term_neg in E.
    apply Z.ltb_lt in E. now rewrite E.
  - apply Z.ltb_ge in E. apply opposite_term_nonneg in E.
    apply Z.ltb_ge in E. now rewrite E.
Qed.

Lemma term_type_opposite tbl t : term_type tbl (opposite_term t) = term_type tbl t.
Proof. unfold term_type. now rewrite entry_of_opposite. Qed.

Lemma is_boolean_term_opposite tbl t :
  is_boolean_term tbl (opposite_term t) = is_boolean_term tbl t.
Proof. unfold is_boolean_term. now rewrite term_type_opposite. Qed.

(** A good boolean term stays good when its polarity is flipped. *)
Lemma good_term_opposite tbl t :
  good_term tbl t = true -> is_boolean_term tbl t = true ->
  good_term tbl (opposite_term t) = true.
Proof.
  unfold good_term, is_boolean_term, term_type. rewrite entry_of_opposite.
  destruct (entry_of tbl t) as [[d tau]|]; [|discriminate].
  intros Hg Hb. rewrite Hb.
  destruct d; try discriminate; now rewrite orb_true_r.
Qed.

End Tables.

(* ================================================================== *)
(** * The term API of [term_api.c]                                     *)
(* ================================================================== *)

Module Api.

Import Tables.
Local Open Scope Z_scope.

(** ** Global state *)

Inductive error_code_t : Type :=
| NO_ERROR | INVALID_TYPE | INVALID_TERM | INVALID_CONSTANT_INDEX
| POS_INT_REQUIRED | NONNEG_INT_REQUIRED | SCALAR_OR_UTYPE_REQUIRED
| FUNCTION_REQUIRED | TUPLE_REQUIRED | VARIABLE_REQUIRED
| ARITHTERM_REQUIRED | BITVECTOR_REQUIRED | WRONG_NUMBER_OF_ARGUMENTS
| TYPE_MISMATCH | INCOMPATIBLE_TYPES | DUPLICATE_VARIABLE
| INCOMPATIBLE_BVSIZES | EMPTY_BITVECTOR | INVALID_TUPLE_INDEX
| TOO_MANY_ARGUMENTS | TOO_MANY_VARS | MAX_BVSIZE_EXCEEDED
| DEGREE_OVERFLOW | INVALID_BITSHIFT | INVALID_BVEXTRACT.

(** [error_report_t]: the fields are assigned one by one, a field that
    a check does not assign keeps its previous value. *)
Record error_report_t : Type := mk_error {
  code : error_code_t;
  type1 : type_t;
  type2 : type_t;
  term1 : term_t;
  term2 : term_t;
  index : Z;
  badval : Z
}.

Definition arith_buffer := polynomial.
Definition bvlogic_buffer := list bit_t.

(** The process-wide singletons of [term_api.c]: [types], [terms],
    [error], the buffer lists, and the internal buffers ([None] is the
    [NULL] pointer: the buffer is allocated on first use). *)
Record state : Type := mk_state {
  types : type_table;
  terms : term_table;
  error : error_report_t;
  buffers : BufferPool.pool;
  internal_arith_buffer : option arith_buffer;
  internal_bvlogic_buffer : option bvlogic_buffer
}.

Definition init_error : error_report_t := mk_error NO_ERROR 0 0 0 0 0 0.

(** The state after [yices_init]. *)
Definition yices_init : state :=
  mk_state init_type_table init_term_table init_error BufferPool.yices_init None None.

Definition set_error (e : error_report_t) (s : state) : state :=
  mk_state (types s) (terms s) e (buffers s)
           (internal_arith_buffer s) (internal_bvlogic_buffer s).
Definition set_terms (t : term_table) (s : state) : state :=
  mk_state (types s) t (error s) (buffers s)
           (internal_arith_buffer s) (internal_bvlogic_buffer s).
Definition set_types (t : type_table) (s : state) : state :=
  mk_state t (terms s) (error s) (buffers s)
           (internal_arith_buffer s) (internal_bvlogic_buffer s).

Definition with_code (c : error_code_t) (e : error_report_t) : error_report_t :=
  mk_error c (type1 e) (type2 e) (term1 e) (term2 e) (index e) (badval e).
Definition with_type1 (x : type_t) (e : error_report_t) : error_report_t :=
  mk_error (code e) x (type2 e) (term1 e) (term2 e) (index e) (badval e).
Definition with_type2 (x : type_t) (e : error_report_t) : error_report_t :=
  mk_error (code e) (type1 e) x (term1 e) (term2 e) (index e) (badval e).
Definition with_term1 (x : term_t) (e : error_report_t) : error_report_t :=
  mk_error (code e) (type1 e) (type2 e) x (term2 e) (index e) (badval e).
Definition with_term2 (x : term_t) (e : error_report_t) : error_report_t :=
  mk_error (code e) (type1 e) (type2 e) (term1 e) x (index e) (badval e).
Definition with_index (x : Z) (e : error_report_t) : error_report_t :=
  mk_error (code e) (type1 e) (type2 e) (term1 e) (term2 e) x (badval e).
Definition with_badval (x : Z) (e : error_report_t) : error_report_t :=
  mk_error (code e) (type1 e) (type2 e) (term1 e) (term2 e) (index e) x.

(** ** State monads

    [M] threads the global state; [TM] threads the term table alone
    and is the monad of the functions that take a [term_table_t *tbl]
    argument. *)

Definition St (S A : Type) : Type := S -> A * S.

Definition ret {S A} (a : A) : St S A := fun s => (a, s).
Definition bind {S A B} (c : St S A) (k : A -> St S B) : St S B :=
  fun s => let (a, s') := c s in k a s'.

Notation "x <- c1 ;; c2" := (bind c1 (fun x => c2))
  (at level 61, c1 at next level, right associativity).

Definition M (A : Type) : Type := St state A.
Definition TM (A : Type) : Type := St term_table A.

(** [c1 &&& c2]: the C expression [c1 && c2] on two checks; [c2] is not
    run when [c1] fails. *)
Definition andM (c1 c2 : M bool) : M bool :=
  b <- c1 ;; if b then c2 else ret false.
Notation "c1 &&& c2" := (andM c1 c2) (at level 40, left associativity).

(** A failed check: record the error and return [false]. *)
Definition fail_with (f : error_report_t -> error_report_t) : M bool :=
  fun s => (false, set_error (f (error s)) s).

(** Run on the global table [terms] a function written for [tbl]. *)
Definition on_terms {A} (f : TM A) : M A :=
  fun s => let (t, tbl) := f (terms s) in (t, set_terms tbl s).

Definition to_uint32 (n : Z) : Z := n mod 2 ^ 32.

(** ** What [term_api.c] takes from headers that are not in the sources *)

Record platform : Type := mk_platform {
  (** [yices_limits.h] *)
  YICES_MAX_ARITY : Z;
  YICES_MAX_VARS : Z;
  YICES_MAX_BVSIZE : Z;
  YICES_MAX_DEGREE : Z;
  (** cheap disequality tests of the polynomial and bit-vector modules *)
  must_disequal_polynomial : polynomial -> polynomial -> bool;
  polynomial_is_const_plus_var : polynomial -> Z -> bool;
  bvlogic_must_disequal_expr : list term_t -> list term_t -> bool;
  bvlogic_must_disequal_constant : list term_t -> Z -> Z -> bool
}.

Section WithPlatform.

Variable P : platform.

(** ** Type checking: the [check_] functions

    "All check_ functions return true if the check succeeds.
    Otherwise they return false and set the error code and diagnostic
    data." *)

Definition check_positive (n : Z) : M bool :=
  if n =? 0 then fail_with (fun e => with_badval n (with_code POS_INT_REQUIRED e))
  else ret true.

(** Modelled from the spec: [check_nonneg] is called but not defined in
    the sources; it reports [NONNEG_INT_REQUIRED] (spec 6) with the
    offending value, like its siblings. *)
Definition check_nonneg (n : Z) : M bool :=
  if n <? 0 then fail_with (fun e => with_badval n (with_code NONNEG_INT_REQUIRED e))
  else ret true.

Definition check_arity (n : Z) : M bool :=
  if n >? YICES_MAX_ARITY P
  then fail_with (fun e => with_badval n (with_code TOO_MANY_ARGUMENTS e))
  else ret true.

Definition check_maxvars (n : Z) : M bool :=
  if n >? YICES_MAX_VARS P
  then fail_with (fun e => with_badval n (with_code TOO_MANY_VARS e))
  else ret true.

Definition check_maxbvsize (n : Z) : M bool :=
  if n >? YICES_MAX_BVSIZE P
  then fail_with (fun e => with_badval n (with_code MAX_BVSIZE_EXCEEDED e))
  else ret true.

Definition check_maxdegree (d : Z) : M bool :=
  if d >? YICES_MAX_DEGREE P
  then fail_with (fun e => with_badval d (with_code DEGREE_OVERFLOW e))
  else ret true.

Definition check_good_type (tau : type_t) : M bool :=
  fun s =>
    if bad_type (types s) tau
    then fail_with (fun e => with_index (-1) (with_type1 tau (with_code INVALID_TYPE e))) s
    else (true, s).

Definition check_good_constant (tau : type_t) (i : Z) : M bool :=
  fun s =>
    if bad_type (types s) tau
    then fail_with (fun e => with_index (-1) (with_type1 tau (with_code INVALID_TYPE e))) s
    else
      let kind := type_kind (types s) tau in
      if negb (type_kind_eqb kind UNINTERPRETED_TYPE)
         && negb (type_kind_eqb kind SCALAR_TYPE)
      then fail_with (fun e => with_type1 tau (with_code SCALAR_OR_UTYPE_REQUIRED e)) s
      else if (i <? 0)
              || (type_kind_eqb kind SCALAR_TYPE
                  && (i >=? scalar_type_cardinal (types s) tau))
      then fail_with (fun e => with_badval i (with_type1 tau
                                 (with_code INVALID_CONSTANT_INDEX e))) s
      else (true, s).

Definition check_good_term (t : term_t) : M bool :=
  fun s =>
    if bad_term (terms s) t
    then fail_with (fun e => with_index (-1) (with_term1 t (with_code INVALID_TERM e))) s
    else (true, s).

(** The array loops [for (i=0; i<n; i++)] run over the first [n]
    entries of the array; [a] is the part of the array not yet
    visited and [i] the current index. *)
Fixpoint check_good_terms_from (i : Z) (a : list term_t) : M bool :=
  match a with
  | [] => ret true
  | t :: a' =>
      fun s =>
        if bad_term (terms s) t
        then fail_with (fun e => with_index i (with_term1 t (with_code INVALID_TERM e))) s
        else check_good_terms_from (i + 1) a' s
  end.

Definition check_good_terms (n : Z) (a : list term_t) : M bool :=
  check_good_terms_from 0 (firstn (Z.to_nat n) a).

Fixpoint check_arg_types_from (i : Z) (a : list term_t) (tau : list type_t) : M bool :=
  match a, tau with
  | t :: a', sigma :: tau' =>
      fun s =>
        if negb (is_subtype (types s) (term_type (terms s) t) sigma)
        then fail_with (fun e => with_index i (with_type1 sigma (with_term1 t
                                   (with_code TYPE_MISMATCH e)))) s
        else check_arg_types_from (i + 1) a' tau' s
  | _, _ => ret true
  end.

Definition check_arg_types (n : Z) (a : list term_t) (tau : list type_t) : M bool :=
  check_arg_types_from 0 (firstn (Z.to_nat n) a) tau.

Definition is_function_term (s : state) (t : term_t) : bool :=
  type_kind_eqb (type_kind (types s) (term_type (terms s) t)) FUNCTION_TYPE.

Definition is_bitvector_term (s : state) (t : term_t) : bool :=
  type_kind_eqb (type_kind (types s) (term_type (terms s) t)) BITVECTOR_TYPE.

Definition term_bitsize (s : state) (t : term_t) : Z :=
  bv_type_size (types s) (term_type (terms s) t).

Definition check_function_shape (f : term_t) (n : Z) : M bool :=
  fun s =>
    if negb (is_function_term s f)
    then fail_with (fun e => with_term1 f (with_code FUNCTION_REQUIRED e)) s
    else
      let tau := term_type (terms s) f in
      if negb (n =? Z.of_nat (length (function_type_domain (types s) tau)))
      then fail_with (fun e => with_badval n (with_type1 tau
                                 (with_code WRONG_NUMBER_OF_ARGUMENTS e))) s
      else (true, s).

Definition check_good_application (f : term_t) (n : Z) (a : list term_t) : M bool :=
  check_positive n &&& check_good_term f &&& check_good_terms n a
  &&& check_function_shape f n
  &&& (fun s => check_arg_types n a
                  (function_type_domain (types s) (term_type (terms s) f)) s).

Definition check_boolean_term (t : term_t) : M bool :=
  fun s =>
    if negb (is_boolean_term (terms s) t)
    then fail_with (fun e => with_index (-1) (with_type1 (bool_type (types s))
                               (with_term1 t (with_code TYPE_MISMATCH e)))) s
    else (true, s).

Definition check_arith_term (t : term_t) : M bool :=
  fun s =>
    if negb (is_arithmetic_term (terms s) t)
    then fail_with (fun e => with_term1 t (with_code ARITHTERM_REQUIRED e)) s
    else (true, s).

Definition check_bitvector_term (t : term_t) : M bool :=
  fun s =>
    if negb (is_bitvector_term s t)
    then fail_with (fun e => with_term1 t (with_code BITVECTOR_REQUIRED e)) s
    else (true, s).

Definition check_compatible_terms (t1 t2 : term_t) : M bool :=
  fun s =>
    let tau1 := term_type (terms s) t1 in
    let tau2 := term_type (terms s) t2 in
    if negb (compatible_types (types s) tau1 tau2)
    then fail_with (fun e => with_type2 tau2 (with_term2 t2 (with_type1 tau1
                               (with_term1 t1 (with_code INCOMPATIBLE_TYPES e))))) s
    else (true, s).

Definition check_good_eq (t1 t2 : term_t) : M bool :=
  check_good_term t1 &&& check_good_term t2 &&& check_compatible_terms t1 t2.

Definition check_both_arith_terms (t1 t2 : term_t) : M bool :=
  check_good_term t1 &&& check_good_term t2
  &&& check_arith_term t1 &&& check_arith_term t2.

Definition check_compatible_bv_terms (t1 t2 : term_t) : M bool :=
  check_good_term t1 &&& check_good_term t2
  &&& check_bitvector_term t1 &&& check_bitvector_term t2
  &&& check_compatible_terms t1 t2.

Fixpoint check_boolean_args_from (i : Z) (a : list term_t) : M bool :=
  match a with
  | [] => ret true
  | t :: a' =>
      fun s =>
        if negb (is_boolean_term (terms s) t)
        then fail_with (fun e => with_index i (with_type1 (bool_type (types s))
                                   (with_term1 t (with_code TYPE_MISMATCH e)))) s
        else check_boolean_args_from (i + 1) a' s
  end.

Definition check_boolean_args (n : Z) (a : list term_t) : M bool :=
  check_boolean_args_from 0 (firstn (Z.to_nat n) a).

Definition check_good_select (i : Z) (t : term_t) : M bool :=
  check_good_term t &&&
  (fun s =>
     let tau := term_type (terms s) t in
     if negb (type_kind_eqb (type_kind (types s) tau) TUPLE_TYPE)
     then fail_with (fun e => with_term1 t (with_code TUPLE_REQUIRED e)) s
     else if i >=? tuple_type_arity (types s) tau
     then fail_with (fun e => with_badval i (with_type1 tau
                                (with_code INVALID_TUPLE_INDEX e))) s
     else (true, s)).

Definition check_update_value (f v : term_t) : M bool :=
  fun s =>
    let range := function_type_range (types s) (term_type (terms s) f) in
    if negb (is_subtype (types s) (term_type (terms s) v) range)
    then fail_with (fun e => with_index (-1) (with_type1 range (with_term1 v
                               (with_code TYPE_MISMATCH e)))) s
    else (true, s).

Definition check_good_update (f : term_t) (n : Z) (a : list term_t) (v : term_t) : M bool :=
  check_positive n &&& check_good_term f &&& check_good_term v
  &&& check_good_terms n a
  &&& check_function_shape f n
  &&& check_update_value f v
  &&& (fun s => check_arg_types n a
                  (function_type_domain (types s) (term_type (terms s) f)) s).

(** The loop of [check_good_distinct_term] that folds [super_type]
    over the types of [a[1 .. n-1]]; [a0] is [a[0]]. *)
Fixpoint check_distinct_types (a0 : term_t) (tau : type_t) (a : list term_t) : M bool :=
  match a with
  | [] => ret true
  | t :: a' =>
      fun s =>
        let tau' := super_type (types s) tau (term_type (terms s) t) in
        if tau' =? NULL_TYPE
        then fail_with (fun e =>
               with_type2 (term_type (terms s) t) (with_term2 t
                 (with_type1 (term_type (terms s) a0) (with_term1 a0
                   (with_code INCOMPATIBLE_TYPES e))))) s
        else check_distinct_types a0 tau' a' s
  end.

Definition check_good_distinct_term (n : Z) (a : list term_t) : M bool :=
  check_positive n &&& check_arity n &&& check_good_terms n a
  &&& (fun s =>
         match firstn (Z.to_nat n) a with
         | [] => (true, s)
         | a0 :: a' => check_distinct_types a0 (term_type (terms s) a0) a' s
         end).

Fixpoint check_variables_from (i : Z) (v : list term_t) : M bool :=
  match v with
  | [] => ret true
  | x :: v' =>
      fun s =>
        if negb (kind_eqb (term_kind (terms s) x) VARIABLE)
        then fail_with (fun e => with_index i (with_term1 x
                                   (with_code VARIABLE_REQUIRED e))) s
        else check_variables_from (i + 1) v' s
  end.

Fixpoint check_no_duplicate_from (i : Z) (prev : term_t) (v : list term_t) : M bool :=
  match v with
  | [] => ret true
  | x :: v' =>
      if prev =? x
      then fail_with (fun e => with_index i (with_term1 x
                                 (with_code DUPLICATE_VARIABLE e)))
      else check_no_duplicate_from (i + 1) x v'
  end.

Definition check_good_quantified_term (n : Z) (v : list term_t) (body : term_t) : M bool :=
  check_positive n &&& check_maxvars n &&& check_good_term body
  &&& check_good_terms n v &&& check_boolean_term body
  &&& check_variables_from 0 (firstn (Z.to_nat n) v)
  &&& match firstn (Z.to_nat n) v with
      | [] => ret true
      | x :: v' => check_no_duplicate_from 1 x v'
      end.

Definition check_bitsize (t : term_t) (n : Z) : M bool :=
  fun s =>
    let sz := term_bitsize s t in
    if negb (sz =? n)
    then fail_with (fun e => with_badval sz (with_code INCOMPATIBLE_BVSIZES e)) s
    else (true, s).

Definition check_bitshift (i n : Z) : M bool :=
  if i >? n then fail_with (fun e => with_badval i (with_code INVALID_BITSHIFT e))
  else ret true.

(** ** Table constructors

    Modelled from the spec: the node constructors of the term table
    ([terms.c], not in the sources) hash-cons a descriptor (T-2). *)

Definition or_term (n : Z) (a : list term_t) : TM term_t :=
  intern (Or_desc (firstn (Z.to_nat n) a)) bool_id.
Definition eq_term (x y : term_t) : TM term_t := intern (Eq_desc x y) bool_id.
Definition ite_term (c t e : term_t) (tau : type_t) : TM term_t :=
  intern (Ite_desc c t e) tau.
Definition bveq_atom (x y : term_t) : TM term_t := intern (Bveq_desc x y) bool_id.
Definition arith_bineq_atom (x y : term_t) : TM term_t :=
  intern (Arith_bineq_desc x y) bool_id.
Definition tuple_term (n : Z) (a : list term_t) (tau : type_t) : TM term_t :=
  intern (Tuple_desc_t (firstn (Z.to_nat n) a)) tau.
Definition select_term (i : Z) (t : term_t) (tau : type_t) : TM term_t :=
  intern (Select_desc i t) tau.
Definition app_term (f : term_t) (n : Z) (a : list term_t) (tau : type_t) : TM term_t :=
  intern (App_desc f (firstn (Z.to_nat n) a)) tau.
Definition update_term (f : term_t) (n : Z) (a : list term_t) (v : term_t)
           (tau : type_t) : TM term_t :=
  intern (Update_desc f (firstn (Z.to_nat n) a) v) tau.
Definition distinct_term (n : Z) (a : list term_t) : TM term_t :=
  intern (Distinct_desc (firstn (Z.to_nat n) a)) bool_id.
Definition forall_term (n : Z) (v : list term_t) (body : term_t) : TM term_t :=
  intern (Forall_desc (firstn (Z.to_nat n) v) body) bool_id.
Definition constant_term (tau : type_t) (i : Z) : TM term_t :=
  intern (Constant_desc tau i) tau.
Definition variable (tau : type_t) (i : Z) : TM term_t :=
  intern (Variable_desc tau i) tau.
Definition bvapply_term (op : bvop_t) (t1 t2 : term_t) (tau : type_t) : TM term_t :=
  intern (Bvapply_desc op t1 t2) tau.

(** [new_uninterpreted_term] always allocates: the descriptor carries
    the index it is stored at. *)
Definition new_uninterpreted_term (tau : type_t) : TM term_t :=
  fun tbl =>
    (pos_term (Z.of_nat (length tbl)),
     tbl ++ [(Uninterpreted_desc_t (Z.of_nat (length tbl)), tau)]).

(** Modelled from the spec: [int_array_sort] ([int_array_sort.h], not
    in the sources) sorts an array of integers in increasing order.
    With the polarity in the low bit, [sort_bool_terms] is the same
    order: [x] and [not x] become neighbours. *)
Fixpoint insert_sorted (x : Z) (l : list Z) : list Z :=
  match l with
  | [] => [x]
  | y :: l' => if x <=? y then x :: l else y :: insert_sorted x l'
  end.

Definition int_array_sort (a : list Z) : list Z := fold_right insert_sorted [] a.
Definition sort_bool_terms (a : list term_t) : list term_t := int_array_sort a.

(** ** Boolean-term constructors *)

(** Negate non-constant boolean term. *)
Definition bool_negate (tbl : term_table) (x : term_t) : term_t :=
  if kind_eqb (term_kind tbl x) NOT_TERM then not_term_arg tbl x
  else not_term tbl x.

Definition mk_not (tbl : term_table) (x : term_t) : term_t :=
  if x =? true_term then false_term
  else if x =? false_term then true_term
  else bool_negate tbl x.

(** check whether x == not y. *)
Definition opposite_bool_terms (tbl : term_table) (x y : term_t) : bool :=
  (kind_eqb (term_kind tbl x) NOT_TERM && (not_term_arg tbl x =? y))
  || (kind_eqb (term_kind tbl y) NOT_TERM && (not_term_arg tbl y =? x)).

Definition sort2 (x y : term_t) : list term_t := if x <? y then [x; y] else [y; x].

Definition mk_binary_or (x y : term_t) : TM term_t :=
  fun tbl =>
    if x =? y then (x, tbl)
    else if x =? true_term then (x, tbl)
    else if y =? true_term then (y, tbl)
    else if x =? false_term then (y, tbl)
    else if y =? false_term then (x, tbl)
    else if opposite_bool_terms tbl x y then (true_term, tbl)
    else or_term 2 (sort2 x y) tbl.

Definition mk_binary_and (x y : term_t) : TM term_t :=
  fun tbl =>
    if x =? y then (x, tbl)
    else if x =? true_term then (y, tbl)
    else if y =? true_term then (x, tbl)
    else if x =? false_term then (x, tbl)
    else if y =? false_term then (y, tbl)
    else if opposite_bool_terms tbl x y then (false_term, tbl)
    else
      let x' := bool_negate tbl x in
      let y' := bool_negate tbl y in
      (r <- or_term 2 (sort2 x' y') ;; fun tbl' => (not_term tbl' r, tbl')) tbl.

(** Check whether x is of the form (not u) where u is uninterpreted. *)
Definition not_bool_var (tbl : term_table) (x : term_t) : bool :=
  kind_eqb (term_kind tbl x) NOT_TERM
  && kind_eqb (term_kind tbl (not_term_arg tbl x)) UNINTERPRETED_TERM.

(** [mk_iff], with the variant that the preprocessor keeps (the
    [#else] branch); [negate] stays [false]. *)
Definition mk_iff (x y : term_t) : TM term_t :=
  fun tbl =>
    if x =? y then (true_term, tbl)
    else if x =? true_term then (y, tbl)
    else if y =? true_term then (x, tbl)
    else if x =? false_term then (mk_not tbl y, tbl)
    else if y =? false_term then (mk_not tbl x, tbl)
    else if opposite_bool_terms tbl x y then (false_term, tbl)
    else
      let negate := false in
      let '(x1, y1) :=
        if (kind_eqb (term_kind tbl x) NOT_TERM && kind_eqb (term_kind tbl y) NOT_TERM)
           || not_bool_var tbl x || not_bool_var tbl y
        then (mk_not tbl x, mk_not tbl y) else (x, y) in
      let '(x2, y2) := if x1 >? y1 then (y1, x1) else (x1, y1) in
      (aux <- eq_term x2 y2 ;;
       fun tbl' => (if negate then not_term tbl' aux else aux, tbl')) tbl.

Definition mk_xor (x y : term_t) : TM term_t :=
  fun tbl =>
    if x =? y then (false_term, tbl)
    else if x =? false_term then (y, tbl)
    else if y =? false_term then (x, tbl)
    else if x =? true_term then (mk_not tbl y, tbl)
    else if y =? true_term then (mk_not tbl x, tbl)
    else if opposite_bool_terms tbl x y then (true_term, tbl)
    else
      let negate := true in
      let '(x1, negate1) :=
        if kind_eqb (term_kind tbl x) NOT_TERM
        then (not_term_arg tbl x, negb negate) else (x, negate) in
      let '(y1, negate2) :=
        if kind_eqb (term_kind tbl y) NOT_TERM
        then (not_term_arg tbl y, negb negate1) else (y, negate1) in
      let '(x2, y2) := if x1 >? y1 then (y1, x1) else (x1, y1) in
      (aux <- eq_term x2 y2 ;;
       fun tbl' => (if negate2 then not_term tbl' aux else aux, tbl')) tbl.

Definition mk_implies (x y : term_t) : TM term_t :=
  fun tbl =>
    if x =? y then (true_term, tbl)
    else if x =? true_term then (y, tbl)
    else if x =? false_term then (true_term, tbl)
    else if y =? true_term then (true_term, tbl)
    else if y =? false_term then (bool_negate tbl x, tbl)
    else if opposite_bool_terms tbl x y then (y, tbl)
    else or_term 2 (sort2 (bool_negate tbl x) y) tbl.

(** Build (bv-eq x (ite c y z)). *)
Definition mk_bveq_ite (c x y z : term_t) : TM term_t :=
  fun tbl =>
    (ite <- ite_term c y z (term_type tbl y) ;;
     let '(x1, ite1) := if x >? ite then (ite, x) else (x, ite) in
     bveq_atom x1 ite1) tbl.

Definition bvatom_desc (tbl : term_table) (t : term_t) : term_t * term_t :=
  match term_desc_of tbl t with
  | Bveq_desc l r => (l, r)
  | _ => (NULL_TERM, NULL_TERM)
  end.

Definition mk_lifted_ite_bveq (c t e : term_t) : TM term_t :=
  fun tbl =>
    let eq1 := bvatom_desc tbl t in
    let eq2 := bvatom_desc tbl e in
    if fst eq1 =? fst eq2 then mk_bveq_ite c (fst eq1) (snd eq1) (snd eq2) tbl
    else if fst eq1 =? snd eq2 then mk_bveq_ite c (fst eq1) (snd eq1) (fst eq2) tbl
    else if snd eq1 =? fst eq2 then mk_bveq_ite c (snd eq1) (fst eq1) (snd eq2) tbl
    else if snd eq1 =? snd eq2 then mk_bveq_ite c (snd eq1) (fst eq1) (fst eq2) tbl
    else ite_term c t e bool_id tbl.

Definition mk_bool_ite (c t e : term_t) : TM term_t :=
  fun tbl =>
    if t =? e then (t, tbl)
    else if c =? true_term then (t, tbl)
    else if c =? false_term then (e, tbl)
    else if opposite_bool_terms tbl t e then mk_iff c t tbl
    else if c =? t then mk_binary_or c e tbl
    else if c =? e then mk_binary_and c t tbl
    else if opposite_bool_terms tbl c t then mk_binary_and t e tbl
    else if opposite_bool_terms tbl c e then mk_binary_or t e tbl
    else if t =? true_term then mk_binary_or c e tbl
    else if e =? false_term then mk_binary_and c t tbl
    else if t =? false_term then mk_binary_and (mk_not tbl c) e tbl
    else if e =? true_term then mk_binary_or (mk_not tbl c) t tbl
    else
      let '(c1, t1, e1) :=
        if kind_eqb (term_kind tbl c) NOT_TERM
        then (not_term_arg tbl c, e, t) else (c, t, e) in
      if kind_eqb (term_kind tbl t1) BV_EQ_ATOM && kind_eqb (term_kind tbl e1) BV_EQ_ATOM
      then mk_lifted_ite_bveq c1 t1 e1 tbl
      else ite_term c1 t1 e1 bool_id tbl.

(** The scan of [mk_or] over the sorted array: [x] is the last term
    kept, [kept] is [a[0 .. j-1]]; [None] is the early
    [return true_term]. *)
Fixpoint mk_or_scan (tbl : term_table) (x : term_t) (kept rest : list term_t)
  : option (term_t * list term_t) :=
  match rest with
  | [] => Some (x, kept)
  | y :: rest' =>
      if x =? y then mk_or_scan tbl x kept rest'
      else if (y =? true_term) || opposite_bool_terms tbl x y then None
      else mk_or_scan tbl y (kept ++ [y]) rest'
  end.

Definition mk_or (n : Z) (a : list term_t) : TM term_t :=
  fun tbl =>
    let a' := sort_bool_terms (firstn (Z.to_nat n) a) in
    let x := hd NULL_TERM a' in
    if x =? true_term then (true_term, tbl)
    else
      match mk_or_scan tbl x (if x =? false_term then [] else [x]) (tl a') with
      | None => (true_term, tbl)
      | Some (x', kept) =>
          if Z.of_nat (length kept) <=? 1 then (x', tbl)
          else or_term (Z.of_nat (length kept)) kept tbl
      end.

Fixpoint mk_and_scan (tbl : term_table) (x : term_t) (kept rest : list term_t)
  : option (term_t * list term_t) :=
  match rest with
  | [] => Some (x, kept)
  | y :: rest' =>
      if x =? y then mk_and_scan tbl x kept rest'
      else if (y =? false_term) || opposite_bool_terms tbl x y then None
      else mk_and_scan tbl y (kept ++ [y]) rest'
  end.

Definition mk_and (n : Z) (a : list term_t) : TM term_t :=
  fun tbl =>
    let a' := sort_bool_terms (firstn (Z.to_nat n) a) in
    let x := hd NULL_TERM a' in
    if x =? false_term then (false_term, tbl)
    else
      match mk_and_scan tbl x (if x =? true_term then [] else [x]) (tl a') with
      | None => (false_term, tbl)
      | Some (x', kept) =>
          if Z.of_nat (length kept) <=? 1 then (x', tbl)
          else
            (r <- or_term (Z.of_nat (length kept)) (map (bool_negate tbl) kept) ;;
             fun tbl' => (not_term tbl' r, tbl')) tbl
      end.

(** ** Checks for disequalities *)

Definition disequal_constant_terms (x y : term_t) : bool := negb (x =? y).

Definition disequal_boolean_terms (tbl : term_table) (x y : term_t) : bool :=
  ((x =? true_term) && (y =? false_term))
  || ((x =? false_term) && (y =? true_term))
  || opposite_bool_terms tbl x y.

Definition arith_term_desc (tbl : term_table) (t : term_t) : polynomial :=
  match term_desc_of tbl t with
  | Arith_desc p => p
  | _ => []
  end.

(** Modelled from the spec: the arithmetic variable of a term that is
    not a polynomial is the term itself (a polynomial is a combination
    of term handles, the constant monomial using [const_idx]). *)
Definition null_theory_var : Z := -1.
Definition term_theory_var (tbl : term_table) (t : term_t) : Z :=
  if kind_eqb (term_kind tbl t) ARITH_TERM then null_theory_var else t.
Definition get_arithmetic_variable (tbl : term_table) (t : term_t) : Z := t.

Definition disequal_arith_terms (tbl : term_table) (x y : term_t) : bool :=
  let kx := term_kind tbl x in
  let ky := term_kind tbl y in
  let vx := term_theory_var tbl x in
  let vy := term_theory_var tbl y in
  if kind_eqb kx ARITH_TERM && kind_eqb ky ARITH_TERM
  then must_disequal_polynomial P (arith_term_desc tbl x) (arith_term_desc tbl y)
  else if kind_eqb kx ARITH_TERM && negb (vy =? null_theory_var)
  then polynomial_is_const_plus_var P (arith_term_desc tbl x) vy
  else if kind_eqb ky ARITH_TERM && negb (vx =? null_theory_var)
  then polynomial_is_const_plus_var P (arith_term_desc tbl y) vx
  else false.

Definition bvlogic_term_desc (tbl : term_table) (t : term_t) : list term_t :=
  match term_desc_of tbl t with
  | Bvlogic_desc b => b
  | _ => []
  end.

Definition bvconst_term_desc (tbl : term_table) (t : term_t) : Z * Z :=
  match term_desc_of tbl t with
  | Bvconst_desc n v => (n, v)
  | _ => (0, 0)
  end.

(** The table has no bit-vector polynomial kind here, so the
    [BV_ARITH_TERM] case of the source is not reachable. *)
Definition disequal_bitvector_terms (tbl : term_table) (x y : term_t) : bool :=
  let kx := term_kind tbl x in
  let ky := term_kind tbl y in
  if kind_eqb kx ky then
    match kx with
    | BV_LOGIC_TERM =>
        bvlogic_must_disequal_expr P (bvlogic_term_desc tbl x) (bvlogic_term_desc tbl y)
    | BV_CONST_TERM =>
        negb (snd (bvconst_term_desc tbl x) =? snd (bvconst_term_desc tbl y))
    | _ => false
    end
  else if kind_eqb kx BV_CONST_TERM && kind_eqb ky BV_LOGIC_TERM then
    bvlogic_must_disequal_constant P (bvlogic_term_desc tbl y)
      (fst (bvconst_term_desc tbl x)) (snd (bvconst_term_desc tbl x))
  else if kind_eqb kx BV_LOGIC_TERM && kind_eqb ky BV_CONST_TERM then
    bvlogic_must_disequal_constant P (bvlogic_term_desc tbl x)
      (fst (bvconst_term_desc tbl y)) (snd (bvconst_term_desc tbl y))
  else false.

Definition tuple_term_desc (tbl : term_table) (t : term_t) : list term_t :=
  match term_desc_of tbl t with
  | Tuple_desc_t a => a
  | _ => []
  end.

Definition update_term_desc (tbl : term_table) (t : term_t)
  : term_t * list term_t * term_t :=
  match term_desc_of tbl t with
  | Update_desc f a v => (f, a, v)
  | _ => (NULL_TERM, [], NULL_TERM)
  end.

(** [for (i=0; i<n; i++) if (a[i] != b[i]) return false; return true] *)
Fixpoint equal_term_arrays (a b : list term_t) : bool :=
  match a, b with
  | x :: a', y :: b' => (x =? y) && equal_term_arrays a' b'
  | _, _ => true
  end.

Fixpoint exists2b (f : term_t -> term_t -> bool) (a b : list term_t) : bool :=
  match a, b with
  | x :: a', y :: b' => f x y || exists2b f a' b'
  | _, _ => false
  end.

(** [disequal_terms] and its mutually recursive helpers
    [disequal_tuple_terms] and [disequal_update_terms]; the recursion
    descends into the components of tuples, [fuel] bounds its depth. *)
Fixpoint disequal_terms (fuel : nat) (tys : type_table) (tbl : term_table)
         (x y : term_t) : bool :=
  match fuel with
  | O => false
  | S fuel' =>
      if is_boolean_term tbl x then disequal_boolean_terms tbl x y
      else if is_arithmetic_term tbl x then disequal_arith_terms tbl x y
      else if type_kind_eqb (type_kind tys (term_type tbl x)) BITVECTOR_TYPE
      then disequal_bitvector_terms tbl x y
      else
        let kind := term_kind tbl x in
        if negb (kind_eqb kind (term_kind tbl y)) then false
        else
          match kind with
          | CONSTANT_TERM => disequal_constant_terms x y
          | TUPLE_TERM =>
              exists2b (disequal_terms fuel' tys tbl)
                       (tuple_term_desc tbl x) (tuple_term_desc tbl y)
          | UPDATE_TERM =>
              let '(fx, ax, vx) := update_term_desc tbl x in
              let '(fy, ay, vy) := update_term_desc tbl y in
              if negb (fx =? fy) then false
              else if negb (equal_term_arrays ax ay) then false
              else disequal_terms fuel' tys tbl vx vy
          | _ => false
          end
  end.

Definition disequal (s : state) (x y : term_t) : bool :=
  disequal_terms (S (length (terms s))) (types s) (terms s) x y.

Definition disequal_term_arrays (s : state) (a b : list term_t) : bool :=
  exists2b (disequal s) a b.

Fixpoint pairwise_disequal_terms (s : state) (a : list term_t) : bool :=
  match a with
  | [] => true
  | x :: a' => forallb (disequal s x) a' && pairwise_disequal_terms s a'
  end.

(** ** Lift for if-then-else terms *)

Record lift_result_t : Type := mk_lift {
  cond : term_t;
  left1 : term_t; left2 : term_t;
  right1 : term_t; right2 : term_t
}.

Definition ite_term_desc (tbl : term_table) (t : term_t) : term_t * term_t * term_t :=
  match term_desc_of tbl t with
  | Ite_desc c a b => (c, a, b)
  | _ => (NULL_TERM, NULL_TERM, NULL_TERM)
  end.

Definition check_for_lift_if (tbl : term_table) (t1 t2 : term_t) : option lift_result_t :=
  if kind_eqb (term_kind tbl t1) ITE_TERM then
    let '(c1, a1, b1) := ite_term_desc tbl t1 in
    if kind_eqb (term_kind tbl t2) ITE_TERM then
      let '(c2, a2, b2) := ite_term_desc tbl t2 in
      if c1 =? c2 then Some (mk_lift c1 a1 a2 b1 b2) else None
    else Some (mk_lift c1 a1 t2 b1 t2)
  else if kind_eqb (term_kind tbl t2) ITE_TERM then
    let '(c2, a2, b2) := ite_term_desc tbl t2 in
    Some (mk_lift c2 t1 a2 t1 b2)
  else None.

(** ** Arithmetic buffers

    Modelled from the spec (3.3): [arith_buffers.h] is not in the
    sources.  A buffer holds a linear combination of monomials sorted
    by variable; the linear operations merge monomials on the same
    variable, [arith_buffer_normalize] drops the zero coefficients. *)

Definition q_is_zero (a : Q) : bool := Qnum a =? 0.
Definition q_is_one (a : Q) : bool := Qeq_bool a 1.
Definition q_is_integer (a : Q) : bool := Pos.eqb (Qden (Qred a)) 1.

Fixpoint arith_buffer_add_mono (b : arith_buffer) (v : Z) (a : Q) : arith_buffer :=
  match b with
  | [] => [(v, Qred a)]
  | (w, c) :: b' =>
      if v <? w then (v, Qred a) :: b
      else if v =? w then (w, Qred (c + a)) :: b'
      else (w, c) :: arith_buffer_add_mono b' v a
  end.

Definition arith_buffer_sub_mono (b : arith_buffer) (v : Z) (a : Q) : arith_buffer :=
  arith_buffer_add_mono b v (- a).
Definition arith_buffer_add_var (b : arith_buffer) (v : Z) : arith_buffer :=
  arith_buffer_add_mono b v 1.
Definition arith_buffer_sub_var (b : arith_buffer) (v : Z) : arith_buffer :=
  arith_buffer_sub_mono b v 1.
Definition arith_buffer_add_monarray (b : arith_buffer) (p : polynomial) : arith_buffer :=
  fold_left (fun acc m => arith_buffer_add_mono acc (fst m) (snd m)) p b.
Definition arith_buffer_sub_monarray (b : arith_buffer) (p : polynomial) : arith_buffer :=
  fold_left (fun acc m => arith_buffer_sub_mono acc (fst m) (snd m)) p b.
Definition arith_buffer_div_const (b : arith_buffer) (r : Q) : arith_buffer :=
  map (fun m => (fst m, Qred (snd m / r))) b.
Definition arith_buffer_negate (b : arith_buffer) : arith_buffer :=
  map (fun m => (fst m, Qred (- snd m))) b.
Definition arith_buffer_normalize (b : arith_buffer) : arith_buffer :=
  filter (fun m => negb (q_is_zero (snd m))) b.
Definition arith_buffer_reset (b : arith_buffer) : arith_buffer := [].

Definition arith_buffer_is_zero (b : arith_buffer) : bool :=
  match b with [] => true | _ => false end.

(** [b] is a non-zero constant. *)
Definition arith_buffer_is_nonzero (b : arith_buffer) : bool :=
  match b with
  | [(v, c)] => (v =? const_idx) && negb (q_is_zero c)
  | _ => false
  end.

Definition arith_buffer_is_nonneg (b : arith_buffer) : bool :=
  match b with
  | [] => true
  | [(v, c)] => (v =? const_idx) && (0 <=? Qnum c)
  | _ => false
  end.

Definition arith_buffer_is_neg (b : arith_buffer) : bool :=
  match b with
  | [(v, c)] => (v =? const_idx) && (Qnum c <? 0)
  | _ => false
  end.

(** [b] is [a.x - a.y] for two variables [x] and [y]. *)
Definition arith_buffer_is_equality (b : arith_buffer) : option (Z * Z) :=
  match b with
  | [(x, a); (y, c)] =>
      if negb (x =? const_idx) && negb (y =? const_idx) && q_is_zero (Qred (a + c))
      then Some (x, y) else None
  | _ => None
  end.

Definition polynomial_is_zero (p : polynomial) : bool :=
  match p with [] => true | _ => false end.

(** gcd of the (integer) coefficients. *)
Definition monarray_common_factor (p : polynomial) : Q :=
  inject_Z (fold_right (fun m g => Z.gcd (Qnum (snd m)) g) 0 p).
Definition q_gcd (a b : Q) : Q := inject_Z (Z.gcd (Qnum a) (Qnum b)).

(** The type of the polynomial term built from a buffer: integer when
    all coefficients are integers and all variables are integer terms. *)
Definition poly_type (tbl : term_table) (p : polynomial) : type_t :=
  if forallb (fun m => q_is_integer (snd m)
                       && ((fst m =? const_idx) || is_integer_term tbl (fst m))) p
  then int_id else real_id.

Definition arith_term (b : arith_buffer) : TM term_t :=
  fun tbl => intern (Arith_desc b) (poly_type tbl b) tbl.
Definition arith_eq_atom (b : arith_buffer) : TM term_t :=
  intern (Arith_eq_desc b) bool_id.
Definition arith_geq_atom (b : arith_buffer) : TM term_t :=
  intern (Arith_ge_desc b) bool_id.

(** ** Internal buffers *)

Definition set_arith_buffer (b : option arith_buffer) (s : state) : state :=
  mk_state (types s) (terms s) (error s) (buffers s) b (internal_bvlogic_buffer s).
Definition set_bvlogic_buffer (b : option bvlogic_buffer) (s : state) : state :=
  mk_state (types s) (terms s) (error s) (buffers s) (internal_arith_buffer s) b.
Definition set_buffers (p : BufferPool.pool) (s : state) : state :=
  mk_state (types s) (terms s) (error s) p
           (internal_arith_buffer s) (internal_bvlogic_buffer s).

(** Return the internal arithmetic buffer, allocate it if needed. *)
Definition get_internal_arith_buffer : M arith_buffer :=
  fun s =>
    match internal_arith_buffer s with
    | Some b => (b, s)
    | None =>
        let p := snd (BufferPool.alloc_buffer BufferPool.ArithList (buffers s)) in
        ([], set_arith_buffer (Some []) (set_buffers p s))
    end.

Definition get_internal_bvlogic_buffer : M bvlogic_buffer :=
  fun s =>
    match internal_bvlogic_buffer s with
    | Some b => (b, s)
    | None =>
        let p := snd (BufferPool.alloc_buffer BufferPool.BvLogicList (buffers s)) in
        ([], set_bvlogic_buffer (Some []) (set_buffers p s))
    end.

(** Store into the buffer that a pointer [b] obtained from
    [get_internal_arith_buffer] designates. *)
Definition put_arith_buffer (b : arith_buffer) : M unit :=
  fun s => (tt, set_arith_buffer (Some b) s).
Definition put_bvlogic_buffer (b : bvlogic_buffer) : M unit :=
  fun s => (tt, set_bvlogic_buffer (Some b) s).

(** ** Polynomials *)

Definition arith_add (tbl : term_table) (b : arith_buffer) (t : term_t) : arith_buffer :=
  if kind_eqb (term_kind tbl t) ARITH_TERM
  then arith_buffer_add_monarray b (arith_term_desc tbl t)
  else arith_buffer_add_var b (get_arithmetic_variable tbl t).

Definition arith_sub (tbl : term_table) (b : arith_buffer) (t : term_t) : arith_buffer :=
  if kind_eqb (term_kind tbl t) ARITH_TERM
  then arith_buffer_sub_monarray b (arith_term_desc tbl t)
  else arith_buffer_sub_var b (get_arithmetic_variable tbl t).

(** Convert to term t if b is reduced to a variable x. *)
Definition yices_arith_term : M term_t :=
  b0 <- get_internal_arith_buffer ;;
  let b := arith_buffer_normalize b0 in
  _ <- put_arith_buffer b ;;
  match b with
  | [(x, c)] =>
      if q_is_one c && negb (x =? const_idx) then ret x
      else on_terms (arith_term b)
  | _ => on_terms (arith_term b)
  end.

(** Atom (b == 0) for the internal buffer. *)
Definition yices_arith_eq0_atom : M term_t :=
  b0 <- get_internal_arith_buffer ;;
  let b := arith_buffer_normalize b0 in
  _ <- put_arith_buffer b ;;
  if arith_buffer_is_zero b then ret true_term
  else if arith_buffer_is_nonzero b then ret false_term
  else
    match arith_buffer_is_equality b with
    | Some (x, y) =>
        let '(lhs, rhs) := if x >? y then (y, x) else (x, y) in
        on_terms (arith_bineq_atom lhs rhs)
    | None => on_terms (arith_eq_atom b)
    end.

Definition yices_arith_geq0_atom : M term_t :=
  b0 <- get_internal_arith_buffer ;;
  let b := arith_buffer_normalize b0 in
  _ <- put_arith_buffer b ;;
  if arith_buffer_is_nonneg b then ret true_term
  else if arith_buffer_is_neg b then ret false_term
  else on_terms (arith_geq_atom b).

(** Store t1 - t2 in internal_arith_buffer. *)
Definition mk_arith_diff (t1 t2 : term_t) : M unit :=
  b <- get_internal_arith_buffer ;;
  fun s =>
    let b1 := arith_buffer_reset b in
    let b2 := arith_add (terms s) b1 t1 in
    let b3 := arith_sub (terms s) b2 t2 in
    put_arith_buffer b3 s.

Definition mk_lifted_aritheq (c t1 t2 t3 t4 : term_t) : M term_t :=
  _ <- mk_arith_diff t1 t2 ;;
  lhs <- yices_arith_eq0_atom ;;
  _ <- mk_arith_diff t3 t4 ;;
  rhs <- yices_arith_eq0_atom ;;
  on_terms (mk_bool_ite c lhs rhs).

Definition mk_lifted_arithgeq (c t1 t2 t3 t4 : term_t) : M term_t :=
  _ <- mk_arith_diff t1 t2 ;;
  lhs <- yices_arith_geq0_atom ;;
  _ <- mk_arith_diff t3 t4 ;;
  rhs <- yices_arith_geq0_atom ;;
  on_terms (mk_bool_ite c lhs rhs).

Definition mk_aritheq (t1 t2 : term_t) : M term_t :=
  fun s =>
    match check_for_lift_if (terms s) t1 t2 with
    | Some tmp =>
        mk_lifted_aritheq (cond tmp) (left1 tmp) (left2 tmp) (right1 tmp) (right2 tmp) s
    | None => (_ <- mk_arith_diff t1 t2 ;; yices_arith_eq0_atom) s
    end.

Definition mk_arithgeq (t1 t2 : term_t) : M term_t :=
  fun s =>
    match check_for_lift_if (terms s) t1 t2 with
    | Some tmp =>
        mk_lifted_arithgeq (cond tmp) (left1 tmp) (left2 tmp) (right1 tmp) (right2 tmp) s
    | None => (_ <- mk_arith_diff t1 t2 ;; yices_arith_geq0_atom) s
    end.

Definition mk_arithneq (t1 t2 : term_t) : M term_t :=
  r <- mk_aritheq t1 t2 ;; fun s => (mk_not (terms s) r, s).

(** Lift common factors in arithmetic if-then-else:
    (ite c t e) with t = a * t' and e = a * e' becomes a * (ite c t' e'). *)
Definition mk_integer_polynomial_ite (c t e : term_t) : M term_t :=
  fun s =>
    let p := arith_term_desc (terms s) t in
    let q := arith_term_desc (terms s) e in
    let r0 := q_gcd (monarray_common_factor p) (monarray_common_factor q) in
    if negb (polynomial_is_zero p) && negb (polynomial_is_zero q) && negb (q_is_one r0)
    then
      (b <- get_internal_arith_buffer ;;
       let b1 := arith_buffer_div_const
                   (arith_buffer_add_monarray (arith_buffer_reset b) p) r0 in
       _ <- put_arith_buffer b1 ;;
       t' <- on_terms (arith_term b1) ;;
       let b2 := arith_buffer_div_const
                   (arith_buffer_add_monarray (arith_buffer_reset b1) q) r0 in
       _ <- put_arith_buffer b2 ;;
       e' <- on_terms (arith_term b2) ;;
       t'' <- on_terms (ite_term c t' e' int_id) ;;
       fun s' =>
         let b3 := arith_buffer_add_mono (arith_buffer_reset b2)
                     (get_arithmetic_variable (terms s') t'') r0 in
         (_ <- put_arith_buffer b3 ;; on_terms (arith_term b3)) s') s
    else on_terms (ite_term c t e int_id) s.

(** ** Bit-vector constants and bit-vector logic buffers

    Modelled from the spec: [bv_constants.h], [bvlogic_buffers.h] and
    the bit-vector part of the term table are not in the sources.  A
    constant of [n] bits is an array of [(n + 31) >> 5] words of 32
    bits, low-order word first, padding bits zero; the table stores its
    value.  A logic buffer is an array of bits, low-order bit first. *)

Definition bvconst_words (n v : Z) : list Z :=
  map (fun i => (Z.shiftr v (32 * Z.of_nat i)) mod 2 ^ 32)
      (seq 0 (Z.to_nat (Z.shiftr (n + 31) 5))).

Definition bvconst_get32 (bv : list Z) : Z := nth 0 bv 0.

Definition bvconst_tst_bit (bv : list Z) (i : Z) : bool :=
  Z.testbit (nth (Z.to_nat (i / 32)) bv 0) (i mod 32).

(** Convert bv's value (as a non-negative integer) into a shift
    amount.  If bv's value is larger than n, then returns n. *)
Definition get_shift_amount (n : Z) (bv : list Z) : Z :=
  let k := Z.shiftr (n + 31) 5 in
  let s := bvconst_get32 bv in
  if existsb (fun w => negb (w =? 0)) (firstn (Z.to_nat (k - 1)) (tl bv)) then n
  else if n <=? s then n else s.

Definition bit_of_bool (b : bool) : bit_t := if b then true_bit else false_bit.

Definition bvlogic_buffer_set_constant (n : Z) (bv : list Z) : bvlogic_buffer :=
  map (fun i => bit_of_bool (bvconst_tst_bit bv (Z.of_nat i))) (seq 0 (Z.to_nat n)).

Definition bvlogic_buffer_set_bitarray (n : Z) (bits : list bit_t) : bvlogic_buffer :=
  firstn (Z.to_nat n) bits.

(** The bit array of a bit-vector variable: its [n] bit selections. *)
Definition bv_var_manager_get_bit_array (n : Z) (t : term_t) : list bit_t :=
  map (fun i => select_bit (Z.of_nat i) t) (seq 0 (Z.to_nat n)).

(** A boolean term used as a bit. *)
Definition convert_term_to_bit (tbl : term_table) (t : term_t) : bit_t :=
  if t =? true_term then true_bit
  else if t =? false_term then false_bit
  else match term_desc_of tbl t with
       | Bit_desc k u => if is_pos_term t then select_bit k u else term_bit t
       | _ => term_bit t
       end.

(** A bit as a boolean term. *)
Definition convert_bit_to_term (b : bit_t) : TM term_t :=
  match b with
  | true_bit => ret true_term
  | false_bit => ret false_term
  | select_bit k u => intern (Bit_desc k u) bool_id
  | term_bit t => ret t
  end.

Fixpoint convert_bits_to_terms (bits : list bit_t) : TM (list term_t) :=
  match bits with
  | [] => ret []
  | b :: bits' =>
      t <- convert_bit_to_term b ;;
      ts <- convert_bits_to_terms bits' ;;
      ret (t :: ts)
  end.

(** Shifts by [k] bits, [0 <= k <= n]: [shift_left0] sets the
    low-order bits to zero, [shift_right0] the high-order bits,
    [ashift_right] copies the sign bit. *)
Definition bvlogic_buffer_shift_left0 (b : bvlogic_buffer) (k : Z) : bvlogic_buffer :=
  repeat false_bit (Z.to_nat k) ++ firstn (length b - Z.to_nat k) b.
Definition bvlogic_buffer_shift_right0 (b : bvlogic_buffer) (k : Z) : bvlogic_buffer :=
  skipn (Z.to_nat k) b ++ repeat false_bit (Nat.min (Z.to_nat k) (length b)).
Definition bvlogic_buffer_ashift_right (b : bvlogic_buffer) (k : Z) : bvlogic_buffer :=
  skipn (Z.to_nat k) b ++ repeat (last b false_bit) (Nat.min (Z.to_nat k) (length b)).

Definition bit_is_constant (b : bit_t) : bool :=
  match b with true_bit | false_bit => true | _ => false end.

Definition bvlogic_buffer_is_constant (b : bvlogic_buffer) : bool :=
  forallb bit_is_constant b.

(** Value of a constant buffer. *)
Fixpoint bvlogic_buffer_get_constant (b : bvlogic_buffer) : Z :=
  match b with
  | [] => 0
  | true_bit :: b' => 1 + 2 * bvlogic_buffer_get_constant b'
  | _ :: b' => 2 * bvlogic_buffer_get_constant b'
  end.

Fixpoint is_select_array (u : term_t) (i : Z) (b : list bit_t) : bool :=
  match b with
  | [] => true
  | select_bit k v :: b' => (k =? i) && (v =? u) && is_select_array u (i + 1) b'
  | _ :: _ => false
  end.

(** [bvlogic_buffer_get_var]: the term [t] if [b] is
    [(select 0 t) ... (select k t)], [-1] otherwise. *)
Definition bvlogic_buffer_get_var (b : bvlogic_buffer) : term_t :=
  match b with
  | select_bit 0 u :: _ => if is_select_array u 0 b then u else NULL_TERM
  | _ => NULL_TERM
  end.

Definition find_type (d : type_desc) (tys : type_table) : option Z :=
  (fix go (l : type_table) (i : Z) : option Z :=
     match l with
     | [] => None
     | d' :: l' =>
         match d, d' with
         | Bitvector_desc n, Bitvector_desc m => if n =? m then Some i else go l' (i + 1)
         | _, _ => go l' (i + 1)
         end
     end) tys 0.

(** [bv_type(types, n)]: the interned bit-vector type of size [n]. *)
Definition bv_type (n : Z) : M type_t :=
  fun s =>
    match find_type (Bitvector_desc n) (types s) with
    | Some i => (i, s)
    | None => (Z.of_nat (length (types s)),
               set_types (types s ++ [Bitvector_desc n]) s)
    end.

Definition bvconst_term (n v : Z) : M term_t :=
  tau <- bv_type n ;; on_terms (intern (Bvconst_desc n v) tau).

(** [bvlogic_term] / [bvarray_term]: the bit-array term of the bits. *)
Definition bvarray_term (n : Z) (bits : list term_t) : M term_t :=
  tau <- bv_type n ;; on_terms (intern (Bvlogic_desc (firstn (Z.to_nat n) bits)) tau).

Definition bvlogic_term (b : bvlogic_buffer) : M term_t :=
  bits <- on_terms (convert_bits_to_terms b) ;;
  bvarray_term (Z.of_nat (length b)) bits.

(** Convert the internal logic buffer to a term. *)
Definition yices_bvlogic_term : M term_t :=
  b <- get_internal_bvlogic_buffer ;;
  if Z.of_nat (length b) =? 0
  then (fun s => (NULL_TERM, set_error (with_code EMPTY_BITVECTOR (error s)) s))
  else if bvlogic_buffer_is_constant b
  then bvconst_term (Z.of_nat (length b)) (bvlogic_buffer_get_constant b)
  else
    fun s =>
      let t := bvlogic_buffer_get_var b in
      if negb (t <? 0) && (term_bitsize s t =? Z.of_nat (length b))
      then (t, s)
      else bvlogic_term b s.

(** Copy t into the internal_bvlogic_buffer. *)
Definition copy_term_to_internal_bvlogic_buffer (t : term_t) : M unit :=
  _ <- get_internal_bvlogic_buffer ;;
  fun s =>
    let tbl := terms s in
    let kind := term_kind tbl t in
    if kind_eqb kind BV_LOGIC_TERM then
      let e := bvlogic_term_desc tbl t in
      put_bvlogic_buffer
        (bvlogic_buffer_set_bitarray (Z.of_nat (length e))
           (map (convert_term_to_bit tbl) e)) s
    else if kind_eqb kind BV_CONST_TERM then
      let c := bvconst_term_desc tbl t in
      put_bvlogic_buffer
        (bvlogic_buffer_set_constant (fst c) (bvconst_words (fst c) (snd c))) s
    else
      let n := term_bitsize s t in
      put_bvlogic_buffer
        (bvlogic_buffer_set_bitarray n (bv_var_manager_get_bit_array n t)) s.

Definition shift_by_constant
           (shift : bvlogic_buffer -> Z -> bvlogic_buffer) (t1 t2 : term_t) : M term_t :=
  _ <- copy_term_to_internal_bvlogic_buffer t1 ;;
  fun s =>
    let c := bvconst_term_desc (terms s) t2 in
    let sh := get_shift_amount (fst c) (bvconst_words (fst c) (snd c)) in
    (log_buffer <- get_internal_bvlogic_buffer ;;
     _ <- put_bvlogic_buffer (shift log_buffer sh) ;;
     yices_bvlogic_term) s.

Definition bvapply (op : bvop_t) (t1 t2 : term_t) : M term_t :=
  fun s => on_terms (bvapply_term op t1 t2 (term_type (terms s) t1)) s.

Definition yices_bvshl (t1 t2 : term_t) : M term_t :=
  ok <- check_compatible_bv_terms t1 t2 ;;
  if negb ok then ret NULL_TERM
  else fun s =>
    if kind_eqb (term_kind (terms s) t2) BV_CONST_TERM
    then shift_by_constant bvlogic_buffer_shift_left0 t1 t2 s
    else bvapply BVOP_SHL t1 t2 s.

Definition yices_bvlshr (t1 t2 : term_t) : M term_t :=
  ok <- check_compatible_bv_terms t1 t2 ;;
  if negb ok then ret NULL_TERM
  else fun s =>
    if kind_eqb (term_kind (terms s) t2) BV_CONST_TERM
    then shift_by_constant bvlogic_buffer_shift_right0 t1 t2 s
    else bvapply BVOP_LSHR t1 t2 s.

Definition yices_bvashr (t1 t2 : term_t) : M term_t :=
  ok <- check_compatible_bv_terms t1 t2 ;;
  if negb ok then ret NULL_TERM
  else fun s =>
    if kind_eqb (term_kind (terms s) t2) BV_CONST_TERM
    then shift_by_constant bvlogic_buffer_ashift_right t1 t2 s
    else bvapply BVOP_ASHR t1 t2 s.

Definition yices_bvoperator (op : bvop_t) (t1 t2 : term_t) : M term_t :=
  ok <- check_compatible_bv_terms t1 t2 ;;
  if negb ok then ret NULL_TERM else bvapply op t1 t2.

Definition yices_bvdiv := yices_bvoperator BVOP_DIV.
Definition yices_bvrem := yices_bvoperator BVOP_REM.
Definition yices_bvsdiv := yices_bvoperator BVOP_SDIV.
Definition yices_bvsrem := yices_bvoperator BVOP_SREM.
Definition yices_bvsmod := yices_bvoperator BVOP_SMOD.

(** ** Bit-vector atoms *)

Definition mk_bveq (t1 t2 : term_t) : M term_t :=
  fun s =>
    if t1 =? t2 then (true_term, s)
    else if disequal_bitvector_terms (terms s) t1 t2 then (false_term, s)
    else
      let '(x, y) := if t1 >? t2 then (t2, t1) else (t1, t2) in
      on_terms (bveq_atom x y) s.

Definition mk_bvneq (t1 t2 : term_t) : M term_t :=
  fun s =>
    if t1 =? t2 then (false_term, s)
    else if disequal_bitvector_terms (terms s) t1 t2 then (true_term, s)
    else
      let '(x, y) := if t1 >? t2 then (t2, t1) else (t1, t2) in
      (r <- on_terms (bveq_atom x y) ;; fun s' => (not_term (terms s') r, s')) s.

Definition yices_bveq_atom (t1 t2 : term_t) : M term_t :=
  ok <- check_compatible_bv_terms t1 t2 ;;
  if negb ok then ret NULL_TERM else mk_bveq t1 t2.

Definition yices_bvneq_atom (t1 t2 : term_t) : M term_t :=
  ok <- check_compatible_bv_terms t1 t2 ;;
  if negb ok then ret NULL_TERM else mk_bvneq t1 t2.

(** ** Conversion of bvlogic buffers to terms (the exported finalizer) *)

(** The table keeps one kind of bit-vector constant: [bv64_constant]
    (at most 64 bits) and [bvconst_term] intern the same descriptor. *)
Definition bv64_constant (n c : Z) : M term_t := bvconst_term n c.

(** Convert buffer b to a bv_constant term. *)
Definition bvlogic_buffer_get_bvconst (b : bvlogic_buffer) : M term_t :=
  bvconst_term (Z.of_nat (length b)) (bvlogic_buffer_get_constant b).

(** Convert buffer b to a bv-array term: translate each bit of b into
    a boolean term, then build (bvarray b->bit[0] ... b->bit[n-1]). *)
Definition bvlogic_buffer_get_bvarray (b : bvlogic_buffer) : M term_t :=
  bits <- on_terms (convert_bits_to_terms b) ;;
  bvarray_term (Z.of_nat (length b)) bits.

(** The term [t] that the body of [bvlogic_buffer_get_term] builds:
    a constant if [b] is constant, the variable if [b] is of the form
    [(select 0 t) ... (select k t)] and [t] has bitsize [k+1],
    otherwise a bit-array term. *)
Definition bvlogic_buffer_build_term (b : bvlogic_buffer) : M term_t :=
  let n := Z.of_nat (length b) in
  if bvlogic_buffer_is_constant b
  then
    if n <=? 64 then bv64_constant n (bvlogic_buffer_get_constant b)
    else bvlogic_buffer_get_bvconst b
  else
    fun s =>
      let t := bvlogic_buffer_get_var b in
      if (t <? 0) || negb (term_bitsize s t =? n)
      then bvlogic_buffer_get_bvarray b s
      else (t, s).

Definition bvlogic_buffer_clear (b : bvlogic_buffer) : bvlogic_buffer := [].

(** [bvlogic_buffer_get_term(b)]: builds [t], clears [b], and ends
    with [return n;] where [n = b->bitsize].  The result is the pair
    of the returned value and the buffer after the call. *)
Definition bvlogic_buffer_get_term (b : bvlogic_buffer) : M (term_t * bvlogic_buffer) :=
  let n := Z.of_nat (length b) in
  t <- bvlogic_buffer_build_term b ;;
  ret (n, bvlogic_buffer_clear b).

(** ** Type constructors used by the term constructors *)

Definition type_desc_eq_dec (d1 d2 : type_desc) : {d1 = d2} + {d1 <> d2}.
Proof. repeat decide equality. Defined.

Definition intern_type (d : type_desc) : M type_t :=
  fun s =>
    match (fix go (l : type_table) (i : Z) : option Z :=
             match l with
             | [] => None
             | d' :: l' => if type_desc_eq_dec d d' then Some i else go l' (i + 1)
             end) (types s) 0 with
    | Some i => (i, s)
    | None => (Z.of_nat (length (types s)), set_types (types s ++ [d]) s)
    end.

Definition tuple_type (elem : list type_t) : M type_t := intern_type (Tuple_desc elem).

(** ** Term constructors *)

Definition yices_true : M term_t := ret true_term.
Definition yices_false : M term_t := ret false_term.

Definition yices_constant (tau : type_t) (index : Z) : M term_t :=
  ok <- check_good_constant tau index ;;
  if negb ok then ret NULL_TERM else on_terms (constant_term tau index).

Definition yices_new_uninterpreted_term (tau : type_t) : M term_t :=
  ok <- check_good_type tau ;;
  if negb ok then ret NULL_TERM else on_terms (new_uninterpreted_term tau).

Definition yices_variable (tau : type_t) (index : Z) : M term_t :=
  ok <- check_nonneg index &&& check_good_type tau ;;
  if negb ok then ret NULL_TERM else on_terms (variable tau index).

(** The loop of [yices_application] that strips updates:
    [inl v] is the early [return update->newval], [inr f] the function
    to apply when the loop is left. *)
Fixpoint application_strip (fuel : nat) (s : state) (f : term_t) (arg : list term_t)
  : term_t + term_t :=
  match fuel with
  | O => inr f
  | S fuel' =>
      if kind_eqb (term_kind (terms s) f) UPDATE_TERM then
        let '(f', a, v) := update_term_desc (terms s) f in
        if equal_term_arrays a arg then inl v
        else if disequal_term_arrays s a arg then application_strip fuel' s f' arg
        else inr f
      else inr f
  end.

Definition yices_application (f : term_t) (n : Z) (arg : list term_t) : M term_t :=
  ok <- check_good_application f (to_uint32 n) arg ;;
  if negb ok then ret NULL_TERM
  else fun s =>
    let a := firstn (Z.to_nat n) arg in
    match application_strip (S (length (terms s))) s f a with
    | inl v => (v, s)
    | inr f' =>
        on_terms (app_term f' n arg
                    (function_type_range (types s) (term_type (terms s) f'))) s
    end.

Definition yices_ite (cond then_term else_term : term_t) : M term_t :=
  ok <- check_good_term cond &&& check_good_term then_term
        &&& check_good_term else_term &&& check_boolean_term cond ;;
  if negb ok then ret NULL_TERM
  else fun s =>
    let tau := super_type (types s) (term_type (terms s) then_term)
                          (term_type (terms s) else_term) in
    if tau =? NULL_TYPE then
      (NULL_TERM,
       set_error (with_type2 (term_type (terms s) else_term) (with_term2 else_term
                   (with_type1 (term_type (terms s) then_term) (with_term1 then_term
                     (with_code INCOMPATIBLE_TYPES (error s)))))) s)
    else if is_boolean_term (terms s) then_term
    then on_terms (mk_bool_ite cond then_term else_term) s
    else if then_term =? else_term then (then_term, s)
    else if cond =? true_term then (then_term, s)
    else if cond =? false_term then (else_term, s)
    else
      let '(cond1, then1, else1) :=
        if kind_eqb (term_kind (terms s) cond) NOT_TERM
        then (not_term_arg (terms s) cond, else_term, then_term)
        else (cond, then_term, else_term) in
      if is_integer_type tau
         && kind_eqb (term_kind (terms s) then1) ARITH_TERM
         && kind_eqb (term_kind (terms s) else1) ARITH_TERM
      then mk_integer_polynomial_ite cond1 then1 else1 s
      else on_terms (ite_term cond1 then1 else1 tau) s.

Definition yices_eq (left right : term_t) : M term_t :=
  ok <- check_good_eq left right ;;
  if negb ok then ret NULL_TERM
  else fun s =>
    if is_boolean_term (terms s) left then on_terms (mk_iff left right) s
    else if is_arithmetic_term (terms s) left then mk_aritheq left right s
    else if is_bitvector_term s left then mk_bveq left right s
    else if left =? right then (true_term, s)
    else if disequal s left right then (false_term, s)
    else
      let '(x, y) := if left >? right then (right, left) else (left, right) in
      on_terms (eq_term x y) s.

Definition yices_neq (left right : term_t) : M term_t :=
  ok <- check_good_eq left right ;;
  if negb ok then ret NULL_TERM
  else fun s =>
    if is_boolean_term (terms s) left then on_terms (mk_xor left right) s
    else if is_arithmetic_term (terms s) left then mk_arithneq left right s
    else if is_bitvector_term s left then mk_bvneq left right s
    else if left =? right then (false_term, s)
    else if disequal s left right then (true_term, s)
    else
      let '(x, y) := if left >? right then (right, left) else (left, right) in
      (r <- on_terms (eq_term x y) ;; fun s' => (not_term (terms s') r, s')) s.

Definition yices_or (n : Z) (arg : list term_t) : M term_t :=
  ok <- check_nonneg n &&& check_arity n
        &&& check_good_terms n arg &&& check_boolean_args n arg ;;
  if negb ok then ret NULL_TERM
  else
    match n with
    | 0 => ret false_term
    | 1 => ret (nth 0 arg NULL_TERM)
    | 2 => on_terms (mk_binary_or (nth 0 arg NULL_TERM) (nth 1 arg NULL_TERM))
    | _ => on_terms (mk_or n arg)
    end.

Definition yices_and (n : Z) (arg : list term_t) : M term_t :=
  ok <- check_nonneg n &&& check_arity n
        &&& check_good_terms n arg &&& check_boolean_args n arg ;;
  if negb ok then ret NULL_TERM
  else
    match n with
    | 0 => ret true_term
    | 1 => ret (nth 0 arg NULL_TERM)
    | 2 => on_terms (mk_binary_and (nth 0 arg NULL_TERM) (nth 1 arg NULL_TERM))
    | _ => on_terms (mk_and n arg)
    end.

Definition yices_not (arg : term_t) : M term_t :=
  ok <- check_good_term arg &&& check_boolean_term arg ;;
  if negb ok then ret NULL_TERM
  else fun s => (mk_not (terms s) arg, s).

Definition check_two_booleans (left right : term_t) : M bool :=
  check_good_term left &&& check_good_term right
  &&& check_boolean_term left &&& check_boolean_term right.

Definition yices_xor (left right : term_t) : M term_t :=
  ok <- check_two_booleans left right ;;
  if negb ok then ret NULL_TERM else on_terms (mk_xor left right).

Definition yices_iff (left right : term_t) : M term_t :=
  ok <- check_two_booleans left right ;;
  if negb ok then ret NULL_TERM else on_terms (mk_iff left right).

Definition yices_implies (left right : term_t) : M term_t :=
  ok <- check_two_booleans left right ;;
  if negb ok then ret NULL_TERM else on_terms (mk_implies left right).

Definition select_term_desc (tbl : term_table) (t : term_t) : Z * term_t :=
  match term_desc_of tbl t with
  | Select_desc i x => (i, x)
  | _ => (-1, NULL_TERM)
  end.

(** The loop of [yices_tuple]: are [a[i], a[i+1], ...] the selections
    [(select i x), (select i+1 x), ...]? *)
Fixpoint all_selects (tbl : term_table) (x : term_t) (i : Z) (a : list term_t) : bool :=
  match a with
  | [] => true
  | t :: a' =>
      kind_eqb (term_kind tbl t) SELECT_TERM
      && (fst (select_term_desc tbl t) =? i)
      && (snd (select_term_desc tbl t) =? x)
      && all_selects tbl x (i + 1) a'
  end.

Definition mk_tuple_term (n : Z) (arg : list term_t) : M term_t :=
  fun s =>
    (tau <- tuple_type (map (term_type (terms s)) (firstn (Z.to_nat n) arg)) ;;
     on_terms (tuple_term n arg tau)) s.

Definition yices_tuple (n : Z) (arg : list term_t) : M term_t :=
  ok <- check_positive (to_uint32 n) &&& check_arity (to_uint32 n)
        &&& check_good_terms (to_uint32 n) arg ;;
  if negb ok then ret NULL_TERM
  else fun s =>
    let a := nth 0 arg NULL_TERM in
    if kind_eqb (term_kind (terms s) a) SELECT_TERM
       && (fst (select_term_desc (terms s) a) =? 0)
    then
      let x := snd (select_term_desc (terms s) a) in
      if all_selects (terms s) x 1 (tl (firstn (Z.to_nat n) arg))
      then (x, s) else mk_tuple_term n arg s
    else mk_tuple_term n arg s.

Definition yices_select (index : Z) (tuple : term_t) : M term_t :=
  ok <- check_good_select (to_uint32 index) tuple ;;
  if negb ok then ret NULL_TERM
  else fun s =>
    if kind_eqb (term_kind (terms s) tuple) TUPLE_TERM
    then (nth (Z.to_nat index) (tuple_term_desc (terms s) tuple) NULL_TERM, s)
    else
      on_terms (select_term index tuple
                  (nth (Z.to_nat index)
                       (tuple_type_elem (types s) (term_type (terms s) tuple))
                       NULL_TYPE)) s.

Definition yices_update (f : term_t) (n : Z) (arg : list term_t) (new_v : term_t)
  : M term_t :=
  ok <- check_good_update f (to_uint32 n) arg new_v ;;
  if negb ok then ret NULL_TERM
  else fun s => on_terms (update_term f n arg new_v (term_type (terms s) f)) s.

(** [for (i=1; i<n; i++) if (arg[i] == arg[i-1]) return false_term] *)
Fixpoint has_adjacent_equal (a : list term_t) : bool :=
  match a with
  | x :: ((y :: _) as a') => (x =? y) || has_adjacent_equal a'
  | _ => false
  end.

Definition yices_distinct (n : Z) (arg : list term_t) : M term_t :=
  if n =? 2 then yices_neq (nth 0 arg NULL_TERM) (nth 1 arg NULL_TERM)
  else
    ok <- check_positive (to_uint32 n) &&& check_arity (to_uint32 n)
          &&& check_good_distinct_term (to_uint32 n) arg ;;
    if negb ok then ret NULL_TERM
    else if n =? 1 then ret true_term
    else fun s =>
      let tau := term_type (terms s) (nth 0 arg NULL_TERM) in
      if (tau =? bool_type (types s))
         || (type_kind_eqb (type_kind (types s) tau) SCALAR_TYPE
             && (scalar_type_cardinal (types s) tau <? n))
      then (false_term, s)
      else
        let a := int_array_sort (firstn (Z.to_nat n) arg) in
        if has_adjacent_equal a then (false_term, s)
        else if pairwise_disequal_terms s a then (true_term, s)
        else on_terms (distinct_term n a) s.

(** [yices_forall] and [yices_exists] first sort the caller's array
    [var] in place; the checks and the constructor see it sorted. *)
Definition yices_forall (n : Z) (var : list term_t) (body : term_t) : M term_t :=
  let v := if n >? 1 then int_array_sort (firstn (Z.to_nat n) var) else var in
  ok <- check_good_quantified_term (to_uint32 n) v body ;;
  if negb ok then ret NULL_TERM
  else if body =? true_term then ret body
  else if body =? false_term then ret body
  else on_terms (forall_term n v body).

Definition yices_exists (n : Z) (var : list term_t) (body : term_t) : M term_t :=
  let v := if n >? 1 then int_array_sort (firstn (Z.to_nat n) var) else var in
  ok <- check_good_quantified_term (to_uint32 n) v body ;;
  if negb ok then ret NULL_TERM
  else if body =? true_term then ret body
  else if body =? false_term then ret body
  else fun s =>
    (r <- on_terms (forall_term n v (bool_negate (terms s) body)) ;;
     fun s' => (not_term (terms s') r, s')) s.

(** ** Arithmetic terms and atoms *)

Definition yices_add (t1 t2 : term_t) : M term_t :=
  ok <- check_both_arith_terms t1 t2 ;;
  if negb ok then ret NULL_TERM
  else
    b <- get_internal_arith_buffer ;;
    _ <- (fun s => put_arith_buffer
            (arith_add (terms s) (arith_add (terms s) (arith_buffer_reset b) t1) t2) s) ;;
    yices_arith_term.

Definition yices_sub (t1 t2 : term_t) : M term_t :=
  ok <- check_both_arith_terms t1 t2 ;;
  if negb ok then ret NULL_TERM
  else
    b <- get_internal_arith_buffer ;;
    _ <- (fun s => put_arith_buffer
            (arith_sub (terms s) (arith_add (terms s) (arith_buffer_reset b) t1) t2) s) ;;
    yices_arith_term.

Definition yices_neg (t1 : term_t) : M term_t :=
  ok <- check_good_term t1 &&& check_arith_term t1 ;;
  if negb ok then ret NULL_TERM
  else
    b <- get_internal_arith_buffer ;;
    _ <- (fun s => put_arith_buffer
            (arith_sub (terms s) (arith_buffer_reset b) t1) s) ;;
    yices_arith_term.

Definition yices_aritheq_atom (t1 t2 : term_t) : M term_t :=
  ok <- check_both_arith_terms t1 t2 ;;
  if negb ok then ret NULL_TERM else mk_aritheq t1 t2.

Definition yices_arithneq_atom (t1 t2 : term_t) : M term_t :=
  ok <- check_both_arith_terms t1 t2 ;;
  if negb ok then ret NULL_TERM
  else r <- mk_aritheq t1 t2 ;; fun s => (mk_not (terms s) r, s).

Definition yices_arithgeq_atom (t1 t2 : term_t) : M term_t :=
  ok <- check_both_arith_terms t1 t2 ;;
  if negb ok then ret NULL_TERM else mk_arithgeq t1 t2.

Definition yices_arithlt_atom (t1 t2 : term_t) : M term_t :=
  ok <- check_both_arith_terms t1 t2 ;;
  if negb ok then ret NULL_TERM
  else r <- mk_arithgeq t1 t2 ;; fun s => (mk_not (terms s) r, s).

Definition yices_arithgt_atom (t1 t2 : term_t) : M term_t := yices_arithlt_atom t2 t1.
Definition yices_arithleq_atom (t1 t2 : term_t) : M term_t := yices_arithgeq_atom t2 t1.

(** ** What a check does to the state

    [same_tables s s']: the type table, the term table, the buffer
    lists and the internal buffers of [s'] are those of [s]. *)
Definition same_tables (s s' : state) : Prop :=
  types s' = types s /\ terms s' = terms s /\ buffers s' = buffers s
  /\ internal_arith_buffer s' = internal_arith_buffer s
  /\ internal_bvlogic_buffer s' = internal_bvlogic_buffer s.

(** [checks c v]: the check [c] decides the verdict [v] of the state;
    when it passes the state is untouched, when it fails only the
    error record changes and its code is set. *)
Definition checks (c : M bool) (v : state -> bool) : Prop :=
  forall s,
    (v s = true -> c s = (true, s))
    /\ (v s = false ->
        fst (c s) = false /\ same_tables s (snd (c s))
        /\ code (error (snd (c s))) <> NO_ERROR).

Lemma same_tables_refl s : same_tables s s.
Proof. repeat split. Qed.

Lemma same_tables_set_error s e : same_tables s (set_error e s).
Proof. repeat split. Qed.

Lemma checks_ret_true : checks (ret true) (fun _ => true).
Proof. intros s. split; [reflexivity | discriminate]. Qed.

Lemma checks_and c1 c2 v1 v2 :
  checks c1 v1 -> checks c2 v2 -> checks (c1 &&& c2) (fun s => v1 s && v2 s).
Proof.
  intros H1 H2 s. unfold andM, bind.
  destruct (H1 s) as [H1t H1f]. destruct (H2 s) as [H2t H2f].
  destruct (v1 s) eqn:E1; simpl.
  - rewrite (H1t eq_refl). exact (conj H2t H2f).
  - split; [discriminate|]. intros _.
    destruct (H1f eq_refl) as (Hb & Hs & Hc).
    destruct (c1 s) as [b s1]. simpl in *. subst b. simpl. auto.
Qed.

Lemma checks_ext c v v' : (forall s, v s = v' s) -> checks c v -> checks c v'.
Proof. intros E H s. rewrite <- E. apply H. Qed.

Ltac prim_check :=
  let s := fresh "s" in
  intros s; simpl;
  repeat match goal with
         | |- context [if ?b then _ else _] => destruct b eqn:?; simpl
         end;
  split; intros; try discriminate; try reflexivity;
  repeat split; simpl; discriminate.

Lemma checks_positive n : checks (check_positive n) (fun _ => negb (n =? 0)).
Proof. unfold check_positive, fail_with, ret. prim_check. Qed.

Lemma checks_nonneg n : checks (check_nonneg n) (fun _ => negb (n <? 0)).
Proof. unfold check_nonneg, fail_with, ret. prim_check. Qed.

Lemma checks_arity n : checks (check_arity n) (fun _ => negb (n >? YICES_MAX_ARITY P)).
Proof. unfold check_arity, fail_with, ret. prim_check. Qed.

Lemma checks_maxvars n : checks (check_maxvars n) (fun _ => negb (n >? YICES_MAX_VARS P)).
Proof. unfold check_maxvars, fail_with, ret. prim_check. Qed.

Lemma checks_good_type tau :
  checks (check_good_type tau) (fun s => negb (bad_type (types s) tau)).
Proof. unfold check_good_type, fail_with. prim_check. Qed.

Definition good_constant (tau : type_t) (i : Z) (s : state) : bool :=
  negb (bad_type (types s) tau)
  && (type_kind_eqb (type_kind (types s) tau) UNINTERPRETED_TYPE
      || type_kind_eqb (type_kind (types s) tau) SCALAR_TYPE)
  && negb ((i <? 0)
           || (type_kind_eqb (type_kind (types s) tau) SCALAR_TYPE
               && (i >=? scalar_type_cardinal (types s) tau))).

Lemma checks_good_constant tau i :
  checks (check_good_constant tau i) (good_constant tau i).
Proof.
  unfold check_good_constant, good_constant, fail_with. intros s.
  destruct (bad_type (types s) tau); simpl.
  - split; intros; [discriminate|]. repeat split; simpl; discriminate.
  - destruct (type_kind_eqb (type_kind (types s) tau) UNINTERPRETED_TYPE);
      destruct (type_kind_eqb (type_kind (types s) tau) SCALAR_TYPE); simpl;
      try (split; intros; [discriminate|]; repeat split; simpl; discriminate);
      destruct (i <? 0); simpl;
      try (split; intros; [discriminate|]; repeat split; simpl; discriminate);
      try destruct (i >=? scalar_type_cardinal (types s) tau); simpl;
      split; intros; try discriminate; try reflexivity;
      repeat split; simpl; discriminate.
Qed.

Lemma checks_good_term t :
  checks (check_good_term t) (fun s => good_term (terms s) t).
Proof.
  unfold check_good_term, fail_with, bad_term. intros s.
  destruct (good_term (terms s) t); simpl.
  - split; [reflexivity | discriminate].
  - split; [discriminate|]. intros _. repeat split; simpl; discriminate.
Qed.

Lemma checks_good_terms_from a :
  forall i, checks (check_good_terms_from i a)
                   (fun s => forallb (good_term (terms s)) a).
Proof.
  induction a as [|t a IH]; intros i s; simpl.
  - split; [reflexivity | discriminate].
  - unfold bad_term. destruct (good_term (terms s) t); simpl.
    + apply IH.
    + split; [discriminate|]. intros _.
      unfold fail_with. repeat split; simpl; discriminate.
Qed.

Lemma checks_good_terms n a :
  checks (check_good_terms n a)
         (fun s => forallb (good_term (terms s)) (firstn (Z.to_nat n) a)).
Proof. apply checks_good_terms_from. Qed.

Fixpoint arg_types_ok (s : state) (a : list term_t) (tau : list type_t) : bool :=
  match a, tau with
  | t :: a', sigma :: tau' =>
      is_subtype (types s) (term_type (terms s) t) sigma && arg_types_ok s a' tau'
  | _, _ => true
  end.

Lemma checks_arg_types_from (tau : state -> list type_t) a :
  forall i s,
    (arg_types_ok s a (tau s) = true ->
     check_arg_types_from i a (tau s) s = (true, s))
    /\ (arg_types_ok s a (tau s) = false ->
        fst (check_arg_types_from i a (tau s) s) = false
        /\ same_tables s (snd (check_arg_types_from i a (tau s) s))
        /\ code (error (snd (check_arg_types_from i a (tau s) s))) <> NO_ERROR).
Proof.
  intros i s. generalize (tau s) as l. revert i.
  induction a as [|t a IH]; intros i l; simpl.
  - split; [reflexivity | discriminate].
  - destruct l as [|sigma l]; [split; [reflexivity | discriminate]|].
    destruct (is_subtype (types s) (term_type (terms s) t) sigma); simpl.
    + apply IH.
    + split; [discriminate|]. intros _.
      unfold fail_with. repeat split; simpl; discriminate.
Qed.

Definition function_shape_ok (f : term_t) (n : Z) (s : state) : bool :=
  is_function_term s f
  && (n =? Z.of_nat (length (function_type_domain (types s) (term_type (terms s) f)))).

Lemma checks_function_shape f n :
  checks (check_function_shape f n) (function_shape_ok f n).
Proof.
  unfold check_function_shape, function_shape_ok, fail_with. intros s.
  destruct (is_function_term s f); simpl.
  - destruct (n =? _); simpl.
    + split; [reflexivity | discriminate].
    + split; [discriminate|]. intros _. repeat split; simpl; discriminate.
  - split; [discriminate|]. intros _. repeat split; simpl; discriminate.
Qed.

Lemma checks_boolean_term t :
  checks (check_boolean_term t) (fun s => is_boolean_term (terms s) t).
Proof.
  unfold check_boolean_term, fail_with. intros s.
  destruct (is_boolean_term (terms s) t); simpl.
  - split; [reflexivity | discriminate].
  - split; [discriminate|]. intros _. repeat split; simpl; discriminate.
Qed.

Lemma checks_arith_term t :
  checks (check_arith_term t) (fun s => is_arithmetic_term (terms s) t).
Proof.
  unfold check_arith_term, fail_with. intros s.
  destruct (is_arithmetic_term (terms s) t); simpl.
  - split; [reflexivity | discriminate].
  - split; [discriminate|]. intros _. repeat split; simpl; discriminate.
Qed.

Lemma checks_bitvector_term t :
  checks (check_bitvector_term t) (fun s => is_bitvector_term s t).
Proof.
  unfold check_bitvector_term, fail_with. intros s.
  destruct (is_bitvector_term s t); simpl.
  - split; [reflexivity | discriminate].
  - split; [discriminate|]. intros _. repeat split; simpl; discriminate.
Qed.

Definition compatible_terms (t1 t2 : term_t) (s : state) : bool :=
  compatible_types (types s) (term_type (terms s) t1) (term_type (terms s) t2).

Lemma checks_compatible_terms t1 t2 :
  checks (check_compatible_terms t1 t2) (compatible_terms t1 t2).
Proof.
  unfold check_compatible_terms, compatible_terms, fail_with. intros s.
  destruct (compatible_types _ _ _); simpl.
  - split; [reflexivity | discriminate].
  - split; [discriminate|]. intros _. repeat split; simpl; discriminate.
Qed.

Lemma checks_boolean_args_from a :
  forall i, checks (check_boolean_args_from i a)
                   (fun s => forallb (is_boolean_term (terms s)) a).
Proof.
  induction a as [|t a IH]; intros i s; simpl.
  - split; [reflexivity | discriminate].
  - destruct (is_boolean_term (terms s) t); simpl.
    + apply IH.
    + split; [discriminate|]. intros _.
      unfold fail_with. repeat split; simpl; discriminate.
Qed.

Definition good_select (i : Z) (t : term_t) (s : state) : bool :=
  type_kind_eqb (type_kind (types s) (term_type (terms s) t)) TUPLE_TYPE
  && negb (i >=? tuple_type_arity (types s) (term_type (terms s) t)).

Lemma checks_good_select i t :
  checks (check_good_select i t)
         (fun s => good_term (terms s) t && good_select i t s).
Proof.
  unfold check_good_select. apply checks_and; [apply checks_good_term|].
  unfold good_select, fail_with. intros s.
  destruct (type_kind_eqb _ _); simpl.
  - destruct (i >=? _); simpl.
    + split; [discriminate|]. intros _. repeat split; simpl; discriminate.
    + split; [reflexivity | discriminate].
  - split; [discriminate|]. intros _. repeat split; simpl; discriminate.
Qed.

Definition update_value_ok (f v : term_t) (s : state) : bool :=
  is_subtype (types s) (term_type (terms s) v)
             (function_type_range (types s) (term_type (terms s) f)).

Lemma checks_update_value f v :
  checks (check_update_value f v) (update_value_ok f v).
Proof.
  unfold check_update_value, update_value_ok, fail_with. intros s.
  destruct (is_subtype _ _ _); simpl.
  - split; [reflexivity | discriminate].
  - split; [discriminate|]. intros _. repeat split; simpl; discriminate.
Qed.

Fixpoint distinct_types_ok (s : state) (tau : type_t) (a : list term_t) : bool :=
  match a with
  | [] => true
  | t :: a' =>
      let tau' := super_type (types s) tau (term_type (terms s) t) in
      negb (tau' =? NULL_TYPE) && distinct_types_ok s tau' a'
  end.

Lemma checks_distinct_types a0 a :
  forall tau s,
    (distinct_types_ok s tau a = true -> check_distinct_types a0 tau a s = (true, s))
    /\ (distinct_types_ok s tau a = false ->
        fst (check_distinct_types a0 tau a s) = false
        /\ same_tables s (snd (check_distinct_types a0 tau a s))
        /\ code (error (snd (check_distinct_types a0 tau a s))) <> NO_ERROR).
Proof.
  induction a as [|t a IH]; intros tau s; simpl.
  - split; [reflexivity | discriminate].
  - destruct (super_type (types s) tau (term_type (terms s) t) =? NULL_TYPE); simpl.
    + split; [discriminate|]. intros _.
      unfold fail_with. repeat split; simpl; discriminate.
    + apply IH.
Qed.

Definition distinct_args_ok (n : Z) (a : list term_t) (s : state) : bool :=
  match firstn (Z.to_nat n) a with
  | [] => true
  | a0 :: a' => distinct_types_ok s (term_type (terms s) a0) a'
  end.

Definition good_distinct_term (n : Z) (a : list term_t) (s : state) : bool :=
  negb (n =? 0) && negb (n >? YICES_MAX_ARITY P)
  && forallb (good_term (terms s)) (firstn (Z.to_nat n) a)
  && distinct_args_ok n a s.

Lemma checks_good_distinct_term n a :
  checks (check_good_distinct_term n a) (good_distinct_term n a).
Proof.
  unfold check_good_distinct_term, good_distinct_term.
  repeat apply checks_and.
  - apply checks_positive.
  - apply checks_arity.
  - apply checks_good_terms.
  - intros s. unfold distinct_args_ok.
    destruct (firstn (Z.to_nat n) a) as [|a0 a'].
    + split; [reflexivity | discriminate].
    + apply checks_distinct_types.
Qed.

Lemma checks_variables_from v :
  forall i, checks (check_variables_from i v)
                   (fun s => forallb (fun x => kind_eqb (term_kind (terms s) x) VARIABLE) v).
Proof.
  induction v as [|x v IH]; intros i s; simpl.
  - split; [reflexivity | discriminate].
  - destruct (kind_eqb (term_kind (terms s) x) VARIABLE); simpl.
    + apply IH.
    + split; [discriminate|]. intros _.
      unfold fail_with. repeat split; simpl; discriminate.
Qed.

Fixpoint no_adjacent_equal (prev : term_t) (v : list term_t) : bool :=
  match v with
  | [] => true
  | x :: v' => negb (prev =? x) && no_adjacent_equal x v'
  end.

Lemma checks_no_duplicate_from v :
  forall i prev, checks (check_no_duplicate_from i prev v)
                        (fun _ => no_adjacent_equal prev v).
Proof.
  induction v as [|x v IH]; intros i prev s; simpl.
  - split; [reflexivity | discriminate].
  - destruct (prev =? x); simpl.
    + split; [discriminate|]. intros _.
      unfold fail_with. repeat split; simpl; discriminate.
    + apply IH.
Qed.

Definition good_quantified_term (n : Z) (v : list term_t) (body : term_t) (s : state)
  : bool :=
  negb (n =? 0) && negb (n >? YICES_MAX_VARS P)
  && good_term (terms s) body
  && forallb (good_term (terms s)) (firstn (Z.to_nat n) v)
  && is_boolean_term (terms s) body
  && forallb (fun x => kind_eqb (term_kind (terms s) x) VARIABLE) (firstn (Z.to_nat n) v)
  && match firstn (Z.to_nat n) v with
     | [] => true
     | x :: v' => no_adjacent_equal x v'
     end.

Lemma checks_good_quantified_term n v body :
  checks (check_good_quantified_term n v body) (good_quantified_term n v body).
Proof.
  unfold check_good_quantified_term, good_quantified_term.
  repeat apply checks_and.
  - apply checks_positive.
  - apply checks_maxvars.
  - apply checks_good_term.
  - apply checks_good_terms.
  - apply checks_boolean_term.
  - apply checks_variables_from.
  - destruct (firstn (Z.to_nat n) v) as [|x v'].
    + apply checks_ret_true.
    + apply checks_no_duplicate_from.
Qed.

Definition good_eq (t1 t2 : term_t) (s : state) : bool :=
  good_term (terms s) t1 && good_term (terms s) t2 && compatible_terms t1 t2 s.

Lemma checks_good_eq t1 t2 : checks (check_good_eq t1 t2) (good_eq t1 t2).
Proof.
  unfold check_good_eq, good_eq. repeat apply checks_and.
  - apply checks_good_term.
  - apply checks_good_term.
  - apply checks_compatible_terms.
Qed.

Definition both_arith_terms (t1 t2 : term_t) (s : state) : bool :=
  good_term (terms s) t1 && good_term (terms s) t2
  && is_arithmetic_term (terms s) t1 && is_arithmetic_term (terms s) t2.

Lemma checks_both_arith_terms t1 t2 :
  checks (check_both_arith_terms t1 t2) (both_arith_terms t1 t2).
Proof.
  unfold check_both_arith_terms, both_arith_terms. repeat apply checks_and.
  - apply checks_good_term.
  - apply checks_good_term.
  - apply checks_arith_term.
  - apply checks_arith_term.
Qed.

Definition compatible_bv_terms (t1 t2 : term_t) (s : state) : bool :=
  good_term (terms s) t1 && good_term (terms s) t2
  && is_bitvector_term s t1 && is_bitvector_term s t2
  && compatible_terms t1 t2 s.

Lemma checks_compatible_bv_terms t1 t2 :
  checks (check_compatible_bv_terms t1 t2) (compatible_bv_terms t1 t2).
Proof.
  unfold check_compatible_bv_terms, compatible_bv_terms. repeat apply checks_and.
  - apply checks_good_term.
  - apply checks_good_term.
  - apply checks_bitvector_term.
  - apply checks_bitvector_term.
  - apply checks_compatible_terms.
Qed.

Definition two_booleans (t1 t2 : term_t) (s : state) : bool :=
  good_term (terms s) t1 && good_term (terms s) t2
  && is_boolean_term (terms s) t1 && is_boolean_term (terms s) t2.

Lemma checks_two_booleans t1 t2 :
  checks (check_two_booleans t1 t2) (two_booleans t1 t2).
Proof.
  unfold check_two_booleans, two_booleans. repeat apply checks_and.
  - apply checks_good_term.
  - apply checks_good_term.
  - apply checks_boolean_term.
  - apply checks_boolean_term.
Qed.

Definition good_application (f : term_t) (n : Z) (a : list term_t) (s : state) : bool :=
  negb (n =? 0) && good_term (terms s) f
  && forallb (good_term (terms s)) (firstn (Z.to_nat n) a)
  && function_shape_ok f n s
  && arg_types_ok s (firstn (Z.to_nat n) a)
       (function_type_domain (types s) (term_type (terms s) f)).

Lemma checks_good_application f n a :
  checks (check_good_application f n a) (good_application f n a).
Proof.
  unfold check_good_application, good_application. repeat apply checks_and.
  - apply checks_positive.
  - apply checks_good_term.
  - apply checks_good_terms.
  - apply checks_function_shape.
  - intros s. unfold check_arg_types.
    apply (checks_arg_types_from
             (fun s => function_type_domain (types s) (term_type (terms s) f))).
Qed.

Definition good_update (f : term_t) (n : Z) (a : list term_t) (v : term_t) (s : state)
  : bool :=
  negb (n =? 0) && good_term (terms s) f && good_term (terms s) v
  && forallb (good_term (terms s)) (firstn (Z.to_nat n) a)
  && function_shape_ok f n s
  && update_value_ok f v s
  && arg_types_ok s (firstn (Z.to_nat n) a)
       (function_type_domain (types s) (term_type (terms s) f)).

Lemma checks_good_update f n a v :
  checks (check_good_update f n a v) (good_update f n a v).
Proof.
  unfold check_good_update, good_update. repeat apply checks_and.
  - apply checks_positive.
  - apply checks_good_term.
  - apply checks_good_term.
  - apply checks_good_terms.
  - apply checks_function_shape.
  - apply checks_update_value.
  - intros s. unfold check_arg_types.
    apply (checks_arg_types_from
             (fun s => function_type_domain (types s) (term_type (terms s) f))).
Qed.

(** A constructor guarded by a check: when the check fails the
    constructor returns [NULL_TERM] and only the error record has
    changed; when it passes the body runs in the unchanged state. *)
Lemma guarded_fail (c : M bool) v (k : M term_t) s :
  checks c v -> v s = false ->
  fst ((ok <- c ;; if negb ok then ret NULL_TERM else k) s) = NULL_TERM
  /\ same_tables s (snd ((ok <- c ;; if negb ok then ret NULL_TERM else k) s))
  /\ code (error (snd ((ok <- c ;; if negb ok then ret NULL_TERM else k) s))) <> NO_ERROR.
Proof.
  intros Hc Hv. destruct (Hc s) as [_ Hf].
  destruct (Hf Hv) as (Hb & Hs & He). unfold bind.
  destruct (c s) as [b s']. simpl in *. subst b. simpl. auto.
Qed.

Lemma guarded_pass (c : M bool) v (k : M term_t) s :
  checks c v -> v s = true ->
  (ok <- c ;; if negb ok then ret NULL_TERM else k) s = k s.
Proof.
  intros Hc Hv. destruct (Hc s) as [Ht _]. unfold bind.
  now rewrite (Ht Hv).
Qed.

(** ** Negation *)

Lemma bool_negate_flips tbl x : bool_negate tbl x = opposite_term x.
Proof.
  unfold bool_negate, not_term_arg, not_term.
  now destruct (kind_eqb (term_kind tbl x) NOT_TERM).
Qed.

Lemma mk_not_flips tbl x : mk_not tbl x = opposite_term x.
Proof.
  unfold mk_not.
  destruct (Z.eqb_spec x true_term) as [->|_]; [reflexivity|].
  destruct (Z.eqb_spec x false_term) as [->|_]; [reflexivity|].
  apply bool_negate_flips.
Qed.

(** C4.  For every valid boolean term [t], [yices_not t] returns the
    handle of [t] with the low bit flipped and leaves the whole state
    as it was: the result is a closed form of the handle (no table
    lookup decides it, no traversal is made), its index is the index
    of [t], its polarity is the opposite one, and no node is added
    to the term table. *)
Theorem yices_not_flips_polarity s t :
  good_term (terms s) t = true ->
  is_boolean_term (terms s) t = true ->
  yices_not t s = (opposite_term t, s)
  /\ opposite_term t = Z.lxor t 1
  /\ index_of (fst (yices_not t s)) = index_of t
  /\ is_neg_term (fst (yices_not t s)) = negb (is_neg_term t)
  /\ terms (snd (yices_not t s)) = terms s.
Proof.
  intros Hg Hb.
  assert (E : yices_not t s = (opposite_term t, s)).
  { unfold yices_not.
    rewrite guarded_pass
      with (v := fun s => good_term (terms s) t && is_boolean_term (terms s) t).
    - now rewrite mk_not_flips.
    - apply checks_and; [apply checks_good_term | apply checks_boolean_term].
    - now rewrite Hg, Hb. }
  rewrite E. simpl. repeat split.
  - apply index_of_opposite.
  - apply is_neg_term_opposite.
Qed.

(** ** n-ary connectives on the empty list *)

(** C10.  [yices_or] with [n = 0] returns the false term and
    [yices_and] with [n = 0] returns the true term, without touching
    the state (no error is recorded); an [n] above the arity limit is
    the case that fails, with [TOO_MANY_ARGUMENTS]. *)
Theorem yices_or_and_empty arg s :
  0 <= YICES_MAX_ARITY P ->
  yices_or 0 arg s = (false_term, s)
  /\ yices_and 0 arg s = (true_term, s)
  /\ (forall n, YICES_MAX_ARITY P < n ->
      fst (yices_or n arg s) = NULL_TERM
      /\ code (error (snd (yices_or n arg s))) = TOO_MANY_ARGUMENTS
      /\ fst (yices_and n arg s) = NULL_TERM
      /\ code (error (snd (yices_and n arg s))) = TOO_MANY_ARGUMENTS).
Proof.
  intros Hmax.
  assert (H0 : (0 >? YICES_MAX_ARITY P) = false).
  { rewrite Z.gtb_ltb. apply Z.ltb_ge. exact Hmax. }
  split; [|split].
  - unfold yices_or, check_nonneg, check_arity, check_good_terms,
      check_boolean_args, andM, bind, ret. simpl. now rewrite H0.
  - unfold yices_and, check_nonneg, check_arity, check_good_terms,
      check_boolean_args, andM, bind, ret. simpl. now rewrite H0.
  - intros n Hn.
    assert (Hn0 : (n <? 0) = false) by (apply Z.ltb_ge; lia).
    assert (Hn1 : (n >? YICES_MAX_ARITY P) = true).
    { rewrite Z.gtb_ltb. apply Z.ltb_lt. exact Hn. }
    unfold yices_or, yices_and, check_nonneg, check_arity, andM, bind, ret, fail_with.
    rewrite Hn0, Hn1. simpl. repeat split.
Qed.

(** ** Arithmetic buffers: [t - t] is the zero polynomial *)

(** The coefficient of variable [w] in a buffer. *)
Definition coeff (b : arith_buffer) (w : Z) : Q :=
  fold_right (fun m acc => if fst m =? w then (snd m + acc)%Q else acc) 0%Q b.

(** The variables of a buffer are strictly increasing. *)
Fixpoint sorted_buffer (b : arith_buffer) : Prop :=
  match b with
  | [] => True
  | m :: b' => (forall m', In m' b' -> fst m < fst m') /\ sorted_buffer b'
  end.

Lemma coeff_cons m b w :
  coeff (m :: b) w = if fst m =? w then (snd m + coeff b w)%Q else coeff b w.
Proof. reflexivity. Qed.

Lemma coeff_add_mono b v a w :
  (coeff (arith_buffer_add_mono b v a) w
   == coeff b w + (if v =? w then a else 0))%Q.
Proof.
  induction b as [|[u c] b IH]; cbn [arith_buffer_add_mono].
  - rewrite coeff_cons. cbn [fst snd coeff fold_right].
    destruct (v =? w); [rewrite Qred_correct|]; ring.
  - destruct (v <? u) eqn:E1.
    + rewrite !coeff_cons. cbn [fst snd].
      destruct (v =? w); [rewrite Qred_correct|]; destruct (u =? w); ring.
    + destruct (Z.eqb_spec v u) as [->|Hvu].
      * rewrite !coeff_cons. cbn [fst snd].
        destruct (u =? w); [rewrite Qred_correct|]; ring.
      * rewrite !coeff_cons. cbn [fst snd].
        destruct (u =? w); rewrite IH; ring.
Qed.

Lemma coeff_add_monarray p : forall b w,
  (coeff (arith_buffer_add_monarray b p) w == coeff b w + coeff p w)%Q.
Proof.
  unfold arith_buffer_add_monarray.
  induction p as [|[u c] p IH]; intros b w; cbn [fold_left].
  - cbn [coeff fold_right]. ring.
  - rewrite IH, coeff_add_mono, coeff_cons. cbn [fst snd].
    destruct (u =? w); ring.
Qed.

Lemma coeff_sub_monarray p : forall b w,
  (coeff (arith_buffer_sub_monarray b p) w == coeff b w - coeff p w)%Q.
Proof.
  unfold arith_buffer_sub_monarray, arith_buffer_sub_mono.
  induction p as [|[u c] p IH]; intros b w; cbn [fold_left].
  - cbn [coeff fold_right]. ring.
  - rewrite IH, coeff_add_mono, coeff_cons. cbn [fst snd].
    destruct (u =? w); ring.
Qed.

Lemma add_mono_keys b v a m :
  In m (arith_buffer_add_mono b v a) -> fst m = v \/ exists m', In m' b /\ fst m' = fst m.
Proof.
  induction b as [|[u c] b IH]; simpl.
  - intros [<-|[]]. now left.
  - destruct (v <? u); simpl.
    + intros [<-|[<-|H]]; [now left | right | right].
      * exists (u, c). auto.
      * exists m. auto.
    + destruct (Z.eqb_spec v u) as [->|Hvu]; simpl.
      * intros [<-|H]; [now left | right]. exists m. auto.
      * intros [<-|H]; [right; exists (u, c); auto|].
        destruct (IH H) as [E|(m' & Hin & E)]; [now left | right].
        exists m'. auto.
Qed.

Lemma sorted_add_mono b v a :
  sorted_buffer b -> sorted_buffer (arith_buffer_add_mono b v a).
Proof.
  induction b as [|[u c] b IH]; simpl.
  - intros _. split; [intros m' []|exact I].
  - intros [Hlt Hs]. destruct (v <? u) eqn:E1; simpl.
    + apply Z.ltb_lt in E1. split; [|split; assumption].
      intros m' [<-|H]; [exact E1|]. specialize (Hlt m' H). lia.
    + destruct (Z.eqb_spec v u) as [->|Hvu]; simpl.
      * split; assumption.
      * apply Z.ltb_ge in E1. split; [|now apply IH].
        intros m' H. destruct (add_mono_keys _ _ _ _ H) as [E|(m'' & Hin & E)].
        -- simpl. lia.
        -- rewrite <- E. now apply Hlt.
Qed.

Lemma sorted_add_monarray p : forall b,
  sorted_buffer b -> sorted_buffer (arith_buffer_add_monarray b p).
Proof.
  unfold arith_buffer_add_monarray.
  induction p as [|m p IH]; intros b Hb; simpl; [exact Hb|].
  apply IH. now apply sorted_add_mono.
Qed.

Lemma sorted_sub_monarray p : forall b,
  sorted_buffer b -> sorted_buffer (arith_buffer_sub_monarray b p).
Proof.
  unfold arith_buffer_sub_monarray, arith_buffer_sub_mono.
  induction p as [|m p IH]; intros b Hb; simpl; [exact Hb|].
  apply IH. now apply sorted_add_mono.
Qed.

Lemma coeff_above b w :
  (forall m, In m b -> w < fst m) -> coeff b w = 0%Q.
Proof.
  induction b as [|m b IH]; simpl; intros H; [reflexivity|].
  destruct (Z.eqb_spec (fst m) w) as [E|_].
  - specialize (H m (or_introl eq_refl)). lia.
  - apply IH. intros m' Hm'. apply H. now right.
Qed.

Lemma q_is_zero_spec c : (c == 0)%Q -> q_is_zero c = true.
Proof.
  unfold Qeq, q_is_zero. simpl. intros H. apply Z.eqb_eq. lia.
Qed.

Lemma normalize_zero b :
  sorted_buffer b -> (forall w, (coeff b w == 0)%Q) -> arith_buffer_normalize b = [].
Proof.
  induction b as [|[u c] b IH]; intros Hs Hz; [reflexivity|].
  destruct Hs as [Hlt Hs]. cbn [fst] in Hlt.
  assert (Hb : coeff b u = 0%Q) by (apply coeff_above; exact Hlt).
  assert (Hc : (c == 0)%Q).
  { pose proof (Hz u) as Hu. rewrite coeff_cons in Hu. cbn [fst snd] in Hu.
    rewrite Z.eqb_refl, Hb in Hu. rewrite <- Hu. ring. }
  unfold arith_buffer_normalize. cbn [filter snd].
  rewrite (q_is_zero_spec Hc). cbn [negb]. apply IH; [exact Hs|].
  intros w. pose proof (Hz w) as Hw. rewrite coeff_cons in Hw. cbn [fst snd] in Hw.
  destruct (Z.eqb_spec u w) as [E|_]; [|exact Hw].
  rewrite <- E, Hb. reflexivity.
Qed.

(** The buffer built by [mk_arith_diff t t] normalizes to zero. *)
Lemma arith_diff_self tbl t :
  arith_buffer_normalize (arith_sub tbl (arith_add tbl (arith_buffer_reset []) t) t) = [].
Proof.
  unfold arith_sub, arith_add, arith_buffer_reset.
  destruct (kind_eqb (term_kind tbl t) ARITH_TERM).
  - apply normalize_zero.
    + apply sorted_sub_monarray, sorted_add_monarray. exact I.
    + intros w. rewrite coeff_sub_monarray, coeff_add_monarray. simpl. ring.
  - unfold arith_buffer_sub_var, arith_buffer_sub_mono, arith_buffer_add_var.
    apply normalize_zero.
    + apply sorted_add_mono, sorted_add_mono. exact I.
    + intros w. rewrite !coeff_add_mono. simpl.
      destruct (get_arithmetic_variable tbl t =? w); ring.
Qed.

(** [mk_arith_diff t t] followed by [yices_arith_eq0_atom] yields the
    true term and creates no term. *)
Lemma arith_eq0_self t s :
  exists s',
    (_ <- mk_arith_diff t t ;; yices_arith_eq0_atom) s = (true_term, s')
    /\ terms s' = terms s /\ types s' = types s.
Proof.
  unfold mk_arith_diff, yices_arith_eq0_atom, get_internal_arith_buffer,
    put_arith_buffer, bind, ret.
  destruct (internal_arith_buffer s) as [b|]; simpl;
    unfold arith_buffer_reset at 1; rewrite arith_diff_self; simpl;
    eexists; repeat split.
Qed.

Lemma mk_aritheq_self t s :
  exists s', mk_aritheq t t s = (true_term, s')
             /\ terms s' = terms s /\ types s' = types s.
Proof.
  unfold mk_aritheq, check_for_lift_if.
  destruct (kind_eqb (term_kind (terms s) t) ITE_TERM).
  - destruct (ite_term_desc (terms s) t) as [[c a] b].
    rewrite Z.eqb_refl. simpl.
    unfold mk_lifted_aritheq.
    destruct (arith_eq0_self a s) as (s1 & E1 & Ht1 & Hy1).
    destruct (arith_eq0_self b s1) as (s2 & E2 & Ht2 & Hy2).
    unfold bind in *.
    destruct (mk_arith_diff a a s) as [u1 s1'].
    rewrite E1.
    destruct (mk_arith_diff b b s1) as [u2 s2'].
    rewrite E2.
    unfold on_terms, mk_bool_ite. rewrite Z.eqb_refl.
    eexists. split; [reflexivity|]. simpl. split; congruence.
  - apply arith_eq0_self.
Qed.

(** A valid term: a live handle whose type is a live type. *)
Definition valid_term (s : state) (t : term_t) : Prop :=
  good_term (terms s) t = true /\ bad_type (types s) (term_type (terms s) t) = false.

Lemma bad_type_false_nonneg tys tau : bad_type tys tau = false -> 0 <= tau.
Proof.
  unfold bad_type, type_desc_of. destruct (tau <? 0) eqn:E; [discriminate|].
  intros _. now apply Z.ltb_ge.
Qed.

Lemma good_eq_self s t : valid_term s t -> good_eq t t s = true.
Proof.
  intros [Hg Hty]. unfold good_eq, compatible_terms, compatible_types, super_type.
  rewrite Hg, Z.eqb_refl. simpl.
  apply bad_type_false_nonneg in Hty. unfold NULL_TYPE.
  destruct (Z.eqb_spec (term_type (terms s) t) (-1)); [lia | reflexivity].
Qed.

(** C9.  For every valid term [t] of any sort, [yices_eq t t] returns
    the true term and adds no term to the table; this covers the
    arithmetic if-then-else terms, which [mk_aritheq] decomposes
    through [check_for_lift_if]. *)
Theorem yices_eq_reflexive s t :
  valid_term s t ->
  fst (yices_eq t t s) = true_term
  /\ terms (snd (yices_eq t t s)) = terms s.
Proof.
  intros Hv. unfold yices_eq.
  rewrite (guarded_pass _ s (checks_good_eq t t) (good_eq_self Hv)).
  destruct (is_boolean_term (terms s) t).
  - unfold on_terms, mk_iff. rewrite Z.eqb_refl. simpl. now destruct s.
  - destruct (is_arithmetic_term (terms s) t).
    + destruct (mk_aritheq_self t s) as (s' & E & Ht & _). now rewrite E.
    + destruct (is_bitvector_term s t).
      * unfold mk_bveq. rewrite Z.eqb_refl. auto.
      * rewrite Z.eqb_refl. auto.
Qed.

(** ** Polarity normalization *)

Lemma good_term_entry tbl t : good_term tbl t = true -> entry_of tbl t <> None.
Proof. unfold good_term. destruct (entry_of tbl t); [discriminate | discriminate]. Qed.

Lemma kind_of_desc_not d : kind_eqb (kind_of_desc d) NOT_TERM = false.
Proof. now destruct d. Qed.

(** On a live handle, "the kind is [NOT_TERM]" is "the polarity is
    negative". *)
Lemma kind_not_eq tbl t :
  entry_of tbl t <> None ->
  kind_eqb (term_kind tbl t) NOT_TERM = is_neg_term t.
Proof.
  unfold term_kind. destruct (entry_of tbl t) as [[d tau]|]; [intros _|congruence].
  destruct (is_neg_term t); [reflexivity | apply kind_of_desc_not].
Qed.


(** On live handles [opposite_bool_terms x y] decides [y = not x]. *)
Lemma opposite_bool_terms_eq tbl x y :
  entry_of tbl x <> None -> entry_of tbl y <> None ->
  opposite_bool_terms tbl x y = (y =? opposite_term x).
Proof.
  intros Hx Hy. unfold opposite_bool_terms, not_term_arg.
  rewrite !kind_not_eq by assumption.
  destruct (Z.eqb_spec y (opposite_term x)) as [->|Hne].
  - rewrite opposite_term_involutive, !Z.eqb_refl, is_neg_term_opposite, !andb_true_r.
    now destruct (is_neg_term x).
  - destruct (Z.eqb_spec (opposite_term x) y) as [E|_]; [congruence|].
    destruct (Z.eqb_spec (opposite_term y) x) as [E|_].
    + exfalso. apply Hne. rewrite <- E. now rewrite opposite_term_involutive.
    + now rewrite !andb_false_r.
Qed.

Lemma opposite_bool_terms_sym tbl x y :
  opposite_bool_terms tbl x y = opposite_bool_terms tbl y x.
Proof. unfold opposite_bool_terms. apply orb_comm. Qed.

Lemma sort2_sym x y : sort2 x y = sort2 y x.
Proof.
  unfold sort2. destruct (Z.ltb_spec x y), (Z.ltb_spec y x); try reflexivity; try lia.
  now replace y with x by lia.
Qed.

Lemma mk_binary_or_comm x y tbl : mk_binary_or x y tbl = mk_binary_or y x tbl.
Proof.
  unfold mk_binary_or. rewrite (opposite_bool_terms_sym tbl y x), (sort2_sym y x).
  rewrite (Z.eqb_sym y x).
  destruct (Z.eqb_spec x y) as [->|Hxy]; [reflexivity|].
  destruct (Z.eqb_spec x true_term) as [->|]; destruct (Z.eqb_spec y true_term) as [->|];
    try reflexivity; try congruence.
  destruct (Z.eqb_spec x false_term) as [->|]; destruct (Z.eqb_spec y false_term) as [->|];
    try reflexivity; congruence.
Qed.

Lemma mk_binary_and_comm x y tbl : mk_binary_and x y tbl = mk_binary_and y x tbl.
Proof.
  unfold mk_binary_and.
  rewrite (opposite_bool_terms_sym tbl y x),
    (sort2_sym (bool_negate tbl y) (bool_negate tbl x)).
  rewrite (Z.eqb_sym y x).
  destruct (Z.eqb_spec x y) as [->|Hxy]; [reflexivity|].
  destruct (Z.eqb_spec x true_term) as [->|]; destruct (Z.eqb_spec y true_term) as [->|];
    try reflexivity; try congruence.
  destruct (Z.eqb_spec x false_term) as [->|]; destruct (Z.eqb_spec y false_term) as [->|];
    try reflexivity; congruence.
Qed.







Definition good_ite (c t e : term_t) (s : state) : bool :=
  good_term (terms s) c && good_term (terms s) t && good_term (terms s) e
  && is_boolean_term (terms s) c.

Lemma checks_ite c t e :
  checks (check_good_term c &&& check_good_term t &&& check_good_term e
          &&& check_boolean_term c) (good_ite c t e).
Proof.
  unfold good_ite. repeat apply checks_and;
    first [apply checks_good_term | apply checks_boolean_term].
Qed.




Lemma guarded_fail_gen (c : M bool) v s :
  checks c v -> v s = false ->
  forall g : bool -> M term_t,
    g false = ret NULL_TERM ->
    fst (bind c g s) = NULL_TERM
    /\ same_tables s (snd (bind c g s))
    /\ code (error (snd (bind c g s))) <> NO_ERROR.
Proof.
  intros Hc Hv g Hg. destruct (Hc s) as [_ Hf].
  destruct (Hf Hv) as (Hb & Hs & He). unfold bind.
  destruct (c s) as [b s']. simpl in *. subst b. rewrite Hg. simpl. auto.
Qed.

(** ** No if-then-else node stores a negated condition *)

Definition ite_cond_ok (e : term_desc * type_t) : Prop :=
  match fst e with
  | Ite_desc c _ _ => is_neg_term c = false
  | _ => True
  end.

Definition ite_conds_positive (tbl : term_table) : Prop := Forall ite_cond_ok tbl.

(** [keeps f]: [f] maintains the invariant on the term table. *)
Definition keeps {A} (f : TM A) : Prop :=
  forall tbl, ite_conds_positive tbl -> ite_conds_positive (snd (f tbl)).



Lemma keeps_ret {A} (a : A) : keeps (ret a).
Proof. intros tbl H. exact H. Qed.























(** ** Distinct *)

Lemma insert_sorted_perm x l : Permutation (x :: l) (insert_sorted x l).
Proof.
  induction l as [|y l IH]; simpl; [reflexivity|].
  destruct (x <=? y); [reflexivity|].
  rewrite perm_swap. now constructor.
Qed.

Lemma int_array_sort_perm l : Permutation l (int_array_sort l).
Proof.
  induction l as [|x l IH]; simpl; [constructor|].
  rewrite <- insert_sorted_perm. now constructor.
Qed.

Lemma insert_sorted_sorted x l :
  StronglySorted Z.le l -> StronglySorted Z.le (insert_sorted x l).
Proof.
  induction l as [|y l IH]; simpl; intros H.
  - constructor; constructor.
  - inversion H as [|? ? Hs Hf]; subst.
    destruct (Z.leb_spec x y).
    + constructor; [exact H|]. constructor; [exact H0|].
      eapply Forall_impl; [|exact Hf]. simpl. intros. lia.
    + constructor; [now apply IH|].
      assert (Hp : Permutation (x :: l) (insert_sorted x l))
        by apply insert_sorted_perm.
      eapply Permutation_Forall; [exact Hp|].
      constructor; [lia | exact Hf].
Qed.

Lemma int_array_sort_sorted l : StronglySorted Z.le (int_array_sort l).
Proof.
  induction l as [|x l IH]; simpl; [constructor|].
  now apply insert_sorted_sorted.
Qed.

Lemma sorted_no_adjacent_NoDup l :
  StronglySorted Z.le l -> has_adjacent_equal l = false -> NoDup l.
Proof.
  induction l as [|x l IH]; intros Hs Ha; [constructor|].
  inversion Hs as [|? ? Hs' Hf]; subst.
  destruct l as [|y l]; [constructor; [intros []|constructor]|].
  simpl in Ha. apply orb_false_iff in Ha. destruct Ha as [Hxy Ha].
  apply Z.eqb_neq in Hxy.
  constructor; [|now apply IH].
  inversion Hf as [|? ? Hle Hf']; subst.
  inversion Hs' as [|? ? _ Hfy]; subst.
  intros [E|Hin]; [congruence|].
  rewrite Forall_forall in Hfy. specialize (Hfy x Hin). lia.
Qed.

(** Sorting brings two equal entries next to each other. *)
Lemma duplicates_adjacent l :
  ~ NoDup l -> has_adjacent_equal (int_array_sort l) = true.
Proof.
  intros Hd. destruct (has_adjacent_equal (int_array_sort l)) eqn:E; [reflexivity|].
  exfalso. apply Hd.
  apply (Permutation_NoDup (Permutation_sym (int_array_sort_perm l))).
  apply sorted_no_adjacent_NoDup; [apply int_array_sort_sorted | exact E].
Qed.

Lemma mk_xor_self x tbl : mk_xor x x tbl = (false_term, tbl).
Proof. unfold mk_xor. now rewrite Z.eqb_refl. Qed.

Lemma yices_neq_self s t :
  valid_term s t -> fst (yices_neq t t s) = false_term.
Proof.
  intros Hv. unfold yices_neq.
  rewrite (guarded_pass _ s (checks_good_eq t t) (good_eq_self Hv)).
  destruct (is_boolean_term (terms s) t).
  - unfold on_terms. now rewrite mk_xor_self.
  - destruct (is_arithmetic_term (terms s) t).
    + unfold mk_arithneq, bind.
      destruct (mk_aritheq_self t s) as (s' & E & _). now rewrite E.
    + destruct (is_bitvector_term s t).
      * unfold mk_bvneq. now rewrite Z.eqb_refl.
      * now rewrite Z.eqb_refl.
Qed.

Lemma to_uint32_small n : 0 <= n < 2 ^ 32 -> to_uint32 n = n.
Proof. intros H. unfold to_uint32. now apply Z.mod_small. Qed.

Lemma good_distinct_term_checks n arg s :
  good_distinct_term n arg s = true ->
  (check_positive n &&& check_arity n &&& check_good_distinct_term n arg) s = (true, s).
Proof.
  intros H.
  pose proof (checks_and (checks_and (checks_positive n) (checks_arity n))
                         (checks_good_distinct_term n arg)) as Hc.
  destruct (Hc s) as [Ht _]. apply Ht.
  unfold good_distinct_term in *.
  destruct (negb (n =? 0)); [|discriminate].
  destruct (negb (n >? YICES_MAX_ARITY P)); [|discriminate].
  exact H.
Qed.

(** C7 (as amended).  [yices_distinct] uses the cardinality of the
    type only for [n >= 3] arguments whose type is [Bool] or a scalar
    type with fewer than [n] elements: it then returns the false term.
    It also returns the false term whenever two of the [n >= 3] valid
    arguments are identical, and for [n = 2] identical valid
    arguments (where it is [yices_neq]). *)
Theorem yices_distinct_false s :
  (forall n arg,
      3 <= n < 2 ^ 32 ->
      good_distinct_term n arg s = true ->
      term_type (terms s) (nth 0 arg NULL_TERM) = bool_id
      \/ (type_kind (types s) (term_type (terms s) (nth 0 arg NULL_TERM)) = SCALAR_TYPE
          /\ scalar_type_cardinal (types s) (term_type (terms s) (nth 0 arg NULL_TERM)) < n)
      \/ ~ NoDup (firstn (Z.to_nat n) arg) ->
      yices_distinct n arg s = (false_term, s))
  /\ (forall a rest,
         valid_term s a -> fst (yices_distinct 2 (a :: a :: rest) s) = false_term).
Proof.
  split.
  - intros n arg Hn Hv Hcase. unfold yices_distinct.
    destruct (Z.eqb_spec n 2) as [->|_]; [lia|].
    rewrite to_uint32_small by lia.
    unfold bind at 1. rewrite good_distinct_term_checks by exact Hv.
    change (negb true) with false. cbv beta iota.
    destruct (Z.eqb_spec n 1) as [->|_]; [lia|].
    destruct Hcase as [Hb | [[Hk Hc] | Hd]].
    + rewrite Hb. unfold bool_type. now rewrite Z.eqb_refl.
    + rewrite Hk. simpl type_kind_eqb.
      assert (E : (scalar_type_cardinal (types s)
                     (term_type (terms s) (nth 0 arg NULL_TERM)) <? n) = true)
        by (now apply Z.ltb_lt).
      rewrite E. now rewrite orb_true_r.
    + rewrite (duplicates_adjacent Hd).
      now destruct (_ || _).
  - intros a rest Hv. unfold yices_distinct. simpl. now apply yices_neq_self.
Qed.

(** ** Shift amounts *)





Lemma copy_term_keeps_terms t s :
  terms (snd (copy_term_to_internal_bvlogic_buffer t s)) = terms s.
Proof.
  unfold copy_term_to_internal_bvlogic_buffer, get_internal_bvlogic_buffer, bind.
  destruct (internal_bvlogic_buffer s); simpl;
    repeat match goal with
           | |- context [if ?b then _ else _] => destruct b
           end; reflexivity.
Qed.

(** ** The shifts by a constant *)















(** ** Failed calls are side-effect free *)

Lemma checks_boolean_args n a :
  checks (check_boolean_args n a)
         (fun s => forallb (is_boolean_term (terms s)) (firstn (Z.to_nat n) a)).
Proof. apply checks_boolean_args_from. Qed.

(** *** [yices_tuple_update]

    The check is declared as [check_good_tuple_update(tbl, i, t, v)]
    and [yices_tuple_update(tuple, index, new_v)] calls it as
    [check_good_tuple_update(&terms, tuple, index, new_v)]: the check
    receives the tuple as [i] and the index as [t]. *)
Definition check_good_tuple_update (i : Z) (t v : term_t) : M bool :=
  check_good_term t &&& check_good_term v &&&
  (fun s =>
     let tau := term_type (terms s) t in
     let elem := nth (Z.to_nat i) (tuple_type_elem (types s) tau) NULL_TYPE in
     if negb (type_kind_eqb (type_kind (types s) tau) TUPLE_TYPE)
     then fail_with (fun e => with_term1 t (with_code TUPLE_REQUIRED e)) s
     else if i >=? tuple_type_arity (types s) tau
     then fail_with (fun e => with_badval i (with_type1 tau
                                (with_code INVALID_TUPLE_INDEX e))) s
     else if negb (is_subtype (types s) (term_type (terms s) v) elem)
     then fail_with (fun e => with_index (-1) (with_type1 elem (with_term1 v
                                (with_code TYPE_MISMATCH e)))) s
     else (true, s)).

(** The second loop of [mk_tuple_aux]:
    [a[j] = (i == j) ? v : select_term(tbl, j, tuple)]. *)
Fixpoint tuple_aux_selects (tuple : term_t) (elem : list type_t) (i : Z)
         (v : term_t) (j : Z) (count : nat) : TM (list term_t) :=
  match count with
  | O => fun tbl => ([], tbl)
  | S count' =>
      fun tbl =>
        let '(x, tbl1) :=
          if i =? j then (v, tbl)
          else select_term j tuple (nth (Z.to_nat j) elem NULL_TYPE) tbl in
        let '(a, tbl2) := tuple_aux_selects tuple elem i v (j + 1) count' tbl1 in
        (x :: a, tbl2)
  end.

Definition mk_tuple_aux (tuple : term_t) (n i : Z) (v : term_t) : M term_t :=
  fun s =>
    if kind_eqb (term_kind (terms s) tuple) TUPLE_TERM
    then
      let desc := tuple_term_desc (terms s) tuple in
      let a := map (fun j => if i =? Z.of_nat j then v else nth j desc NULL_TERM)
                   (seq 0 (Z.to_nat n)) in
      mk_tuple_term n a s
    else
      (a <- on_terms (tuple_aux_selects tuple
                        (tuple_type_elem (types s) (term_type (terms s) tuple))
                        i v 0 (Z.to_nat n)) ;;
       mk_tuple_term n a) s.

(** Modelled from the spec: [tuple_term_nargs] is not in the sources;
    it is the number of components of the tuple [t]. *)
Definition tuple_term_nargs (s : state) (t : term_t) : Z :=
  tuple_type_arity (types s) (term_type (terms s) t).

Definition yices_tuple_update (tuple : term_t) (index : Z) (new_v : term_t)
  : M term_t :=
  ok <- check_good_tuple_update (to_uint32 tuple) index new_v ;;
  if negb ok then ret NULL_TERM
  else fun s => mk_tuple_aux tuple (tuple_term_nargs s tuple) index new_v s.

Definition good_tuple_update (i : Z) (t v : term_t) (s : state) : bool :=
  good_term (terms s) t && good_term (terms s) v
  && (type_kind_eqb (type_kind (types s) (term_type (terms s) t)) TUPLE_TYPE
      && negb (i >=? tuple_type_arity (types s) (term_type (terms s) t))
      && is_subtype (types s) (term_type (terms s) v)
           (nth (Z.to_nat i) (tuple_type_elem (types s) (term_type (terms s) t))
                NULL_TYPE)).

Lemma checks_good_tuple_update i t v :
  checks (check_good_tuple_update i t v) (good_tuple_update i t v).
Proof.
  unfold check_good_tuple_update.
  apply checks_and; [apply checks_and; apply checks_good_term|].
  unfold fail_with. intros s.
  destruct (type_kind_eqb _ _); simpl.
  - destruct (_ >=? _); simpl.
    + split; [discriminate|]. intros _. repeat split; simpl; discriminate.
    + destruct (is_subtype _ _ _); simpl.
      * split; [reflexivity | discriminate].
      * split; [discriminate|]. intros _. repeat split; simpl; discriminate.
  - split; [discriminate|]. intros _. repeat split; simpl; discriminate.
Qed.

(** The public term constructors of [term_api.c] embedded above, as
    calls with their arguments. *)
Inductive api_call : Type :=
| Call_constant (tau : type_t) (index : Z)
| Call_new_uninterpreted_term (tau : type_t)
| Call_variable (tau : type_t) (index : Z)
| Call_application (f : term_t) (n : Z) (arg : list term_t)
| Call_ite (c t e : term_t)
| Call_eq (l r : term_t)
| Call_neq (l r : term_t)
| Call_or (n : Z) (arg : list term_t)
| Call_and (n : Z) (arg : list term_t)
| Call_not (a : term_t)
| Call_xor (l r : term_t)
| Call_iff (l r : term_t)
| Call_implies (l r : term_t)
| Call_tuple (n : Z) (arg : list term_t)
| Call_select (i : Z) (t : term_t)
| Call_update (f : term_t) (n : Z) (arg : list term_t) (v : term_t)
| Call_distinct (n : Z) (arg : list term_t)
| Call_forall (n : Z) (var : list term_t) (body : term_t)
| Call_exists (n : Z) (var : list term_t) (body : term_t)
| Call_add (t1 t2 : term_t)
| Call_sub (t1 t2 : term_t)
| Call_neg (t1 : term_t)
| Call_aritheq_atom (t1 t2 : term_t)
| Call_arithneq_atom (t1 t2 : term_t)
| Call_arithgeq_atom (t1 t2 : term_t)
| Call_arithlt_atom (t1 t2 : term_t)
| Call_arithgt_atom (t1 t2 : term_t)
| Call_arithleq_atom (t1 t2 : term_t)
| Call_bvshl (t1 t2 : term_t)
| Call_bvlshr (t1 t2 : term_t)
| Call_bvashr (t1 t2 : term_t)
| Call_bvoperator (op : bvop_t) (t1 t2 : term_t)
| Call_bveq_atom (t1 t2 : term_t)
| Call_bvneq_atom (t1 t2 : term_t)
| Call_tuple_update (tuple : term_t) (i : Z) (new_v : term_t).

Definition run (call : api_call) : M term_t :=
  match call with
  | Call_constant tau i => yices_constant tau i
  | Call_new_uninterpreted_term tau => yices_new_uninterpreted_term tau
  | Call_variable tau i => yices_variable tau i
  | Call_application f n arg => yices_application f n arg
  | Call_ite c t e => yices_ite c t e
  | Call_eq l r => yices_eq l r
  | Call_neq l r => yices_neq l r
  | Call_or n arg => yices_or n arg
  | Call_and n arg => yices_and n arg
  | Call_not a => yices_not a
  | Call_xor l r => yices_xor l r
  | Call_iff l r => yices_iff l r
  | Call_implies l r => yices_implies l r
  | Call_tuple n arg => yices_tuple n arg
  | Call_select i t => yices_select i t
  | Call_update f n arg v => yices_update f n arg v
  | Call_distinct n arg => yices_distinct n arg
  | Call_forall n var body => yices_forall n var body
  | Call_exists n var body => yices_exists n var body
  | Call_add t1 t2 => yices_add t1 t2
  | Call_sub t1 t2 => yices_sub t1 t2
  | Call_neg t1 => yices_neg t1
  | Call_aritheq_atom t1 t2 => yices_aritheq_atom t1 t2
  | Call_arithneq_atom t1 t2 => yices_arithneq_atom t1 t2
  | Call_arithgeq_atom t1 t2 => yices_arithgeq_atom t1 t2
  | Call_arithlt_atom t1 t2 => yices_arithlt_atom t1 t2
  | Call_arithgt_atom t1 t2 => yices_arithgt_atom t1 t2
  | Call_arithleq_atom t1 t2 => yices_arithleq_atom t1 t2
  | Call_bvshl t1 t2 => yices_bvshl t1 t2
  | Call_bvlshr t1 t2 => yices_bvlshr t1 t2
  | Call_bvashr t1 t2 => yices_bvashr t1 t2
  | Call_bvoperator op t1 t2 => yices_bvoperator op t1 t2
  | Call_bveq_atom t1 t2 => yices_bveq_atom t1 t2
  | Call_bvneq_atom t1 t2 => yices_bvneq_atom t1 t2
  | Call_tuple_update tuple i new_v => yices_tuple_update tuple i new_v
  end.

Definition sorted_vars (n : Z) (var : list term_t) : list term_t :=
  if n >? 1 then int_array_sort (firstn (Z.to_nat n) var) else var.

Definition good_connective (n : Z) (arg : list term_t) (s : state) : bool :=
  negb (n <? 0) && negb (n >? YICES_MAX_ARITY P)
  && forallb (good_term (terms s)) (firstn (Z.to_nat n) arg)
  && forallb (is_boolean_term (terms s)) (firstn (Z.to_nat n) arg).

(** [valid call s]: the arguments of [call] are valid for the
    constructor in state [s] (handles live, types as required, sizes
    within the limits).  This is what the validation of the
    constructor decides, except for [yices_tuple_update], whose check
    receives [tuple] and [index] in each other's place: there [valid]
    is the validity of the update of component [i] of [tuple]. *)
Definition valid (call : api_call) (s : state) : bool :=
  match call with
  | Call_constant tau i => good_constant tau i s
  | Call_new_uninterpreted_term tau => negb (bad_type (types s) tau)
  | Call_variable tau i => negb (i <? 0) && negb (bad_type (types s) tau)
  | Call_application f n arg => good_application f (to_uint32 n) arg s
  | Call_ite c t e =>
      good_ite c t e s
      && negb (super_type (types s) (term_type (terms s) t) (term_type (terms s) e)
               =? NULL_TYPE)
  | Call_eq l r | Call_neq l r => good_eq l r s
  | Call_or n arg | Call_and n arg => good_connective n arg s
  | Call_not a => good_term (terms s) a && is_boolean_term (terms s) a
  | Call_xor l r | Call_iff l r | Call_implies l r => two_booleans l r s
  | Call_tuple n arg =>
      negb (to_uint32 n =? 0) && negb (to_uint32 n >? YICES_MAX_ARITY P)
      && forallb (good_term (terms s)) (firstn (Z.to_nat (to_uint32 n)) arg)
  | Call_select i t => good_term (terms s) t && good_select (to_uint32 i) t s
  | Call_update f n arg v => good_update f (to_uint32 n) arg v s
  | Call_distinct n arg =>
      if n =? 2 then good_eq (nth 0 arg NULL_TERM) (nth 1 arg NULL_TERM) s
      else negb (to_uint32 n =? 0) && negb (to_uint32 n >? YICES_MAX_ARITY P)
           && good_distinct_term (to_uint32 n) arg s
  | Call_forall n var body | Call_exists n var body =>
      good_quantified_term (to_uint32 n) (sorted_vars n var) body s
  | Call_add t1 t2 | Call_sub t1 t2
  | Call_aritheq_atom t1 t2 | Call_arithneq_atom t1 t2
  | Call_arithgeq_atom t1 t2 | Call_arithlt_atom t1 t2 => both_arith_terms t1 t2 s
  | Call_arithgt_atom t1 t2 | Call_arithleq_atom t1 t2 => both_arith_terms t2 t1 s
  | Call_neg t1 => good_term (terms s) t1 && is_arithmetic_term (terms s) t1
  | Call_bvshl t1 t2 | Call_bvlshr t1 t2 | Call_bvashr t1 t2
  | Call_bvoperator _ t1 t2 | Call_bveq_atom t1 t2 | Call_bvneq_atom t1 t2 =>
      compatible_bv_terms t1 t2 s
  | Call_tuple_update tuple i new_v =>
      good_tuple_update (to_uint32 i) tuple new_v s
  end.

Definition is_tuple_update (call : api_call) : bool :=
  match call with
  | Call_tuple_update _ _ _ => true
  | _ => false
  end.

Ltac unfold_api :=
  unfold yices_constant, yices_new_uninterpreted_term, yices_variable,
    yices_application, yices_eq, yices_neq, yices_or, yices_and, yices_not,
    yices_xor, yices_iff, yices_implies, yices_tuple, yices_select, yices_update,
    yices_forall, yices_exists, yices_add, yices_sub, yices_neg,
    yices_arithgt_atom, yices_arithleq_atom,
    yices_aritheq_atom, yices_arithneq_atom, yices_arithgeq_atom,
    yices_arithlt_atom, yices_bvshl, yices_bvlshr, yices_bvashr,
    yices_bvoperator, yices_bveq_atom, yices_bvneq_atom, yices_tuple_update.

Ltac fail_by lem :=
  match goal with
  | H : _ = false |- _ =>
      apply (@guarded_fail_gen _ _ _ lem H); reflexivity
  end.

Ltac fail_by_checks :=
  match goal with
  | H : _ = false |- _ =>
      eapply guarded_fail_gen;
      [ repeat apply checks_and;
        first [ apply checks_positive | apply checks_nonneg | apply checks_arity
              | apply checks_good_type | apply checks_good_term
              | apply checks_good_terms | apply checks_boolean_term
              | apply checks_boolean_args | apply checks_arith_term
              | apply checks_good_distinct_term ]
      | exact H
      | reflexivity ]
  end.

(** For every embedded public term constructor other than
    [yices_tuple_update] and every input that is not valid for it,
    the call returns [NULL_TERM], records an error code, and leaves
    the type table, the term table, the buffer lists and the internal
    buffers exactly as they were.  [yices_tuple_update] is the
    exception: its check receives [tuple] and [index] in each other's
    place. *)
Theorem failed_call_is_side_effect_free call s :
  is_tuple_update call = false ->
  valid call s = false ->
  fst (run call s) = NULL_TERM
  /\ same_tables s (snd (run call s))
  /\ code (error (snd (run call s))) <> NO_ERROR.
Proof.
  intros Hcall H.
  destruct call; try discriminate Hcall; clear Hcall;
    cbn [valid] in H; cbn [run]; unfold_api.
  - fail_by (checks_good_constant tau index0).
  - fail_by_checks.
  - fail_by_checks.
  - fail_by (checks_good_application f (to_uint32 n) arg).
  - unfold yices_ite. destruct (good_ite c t e s) eqn:Hv.
    + rewrite (guarded_pass _ s (checks_ite c t e) Hv).
      simpl in H. apply negb_false_iff in H. rewrite H.
      simpl. repeat split; discriminate.
    + fail_by (checks_ite c t e).
  - fail_by (checks_good_eq l r).
  - fail_by (checks_good_eq l r).
  - fail_by_checks.
  - fail_by_checks.
  - fail_by_checks.
  - fail_by (checks_two_booleans l r).
  - fail_by (checks_two_booleans l r).
  - fail_by (checks_two_booleans l r).
  - fail_by_checks.
  - fail_by (checks_good_select (to_uint32 i) t).
  - fail_by (checks_good_update f (to_uint32 n) arg v).
  - unfold yices_distinct. destruct (n =? 2).
    + fail_by (checks_good_eq (nth 0 arg NULL_TERM) (nth 1 arg NULL_TERM)).
    + eapply guarded_fail_gen.
      * apply checks_and;
          [apply checks_and; [apply checks_positive | apply checks_arity]
          | apply checks_good_distinct_term].
      * exact H.
      * reflexivity.
  - fold (sorted_vars n var).
    fail_by (checks_good_quantified_term (to_uint32 n) (sorted_vars n var) body).
  - fold (sorted_vars n var).
    fail_by (checks_good_quantified_term (to_uint32 n) (sorted_vars n var) body).
  - fail_by (checks_both_arith_terms t1 t2).
  - fail_by (checks_both_arith_terms t1 t2).
  - fail_by_checks.
  - fail_by (checks_both_arith_terms t1 t2).
  - fail_by (checks_both_arith_terms t1 t2).
  - fail_by (checks_both_arith_terms t1 t2).
  - fail_by (checks_both_arith_terms t1 t2).
  - fail_by (checks_both_arith_terms t2 t1).
  - fail_by (checks_both_arith_terms t2 t1).
  - fail_by (checks_compatible_bv_terms t1 t2).
  - fail_by (checks_compatible_bv_terms t1 t2).
  - fail_by (checks_compatible_bv_terms t1 t2).
  - fail_by (checks_compatible_bv_terms t1 t2).
  - fail_by (checks_compatible_bv_terms t1 t2).
  - fail_by (checks_compatible_bv_terms t1 t2).
Qed.

(** ** Type constructors (live part of the file) *)

Definition yices_bool_type : M type_t := fun s => (bool_type (types s), s).
Definition yices_int_type : M type_t := fun s => (int_type (types s), s).
Definition yices_real_type : M type_t := fun s => (real_type (types s), s).

Definition yices_bv_type (size : Z) : M type_t :=
  ok <- check_positive size &&& check_maxbvsize size ;;
  if negb ok then ret NULL_TYPE else bv_type size.

(** [new_scalar_type] and [new_uninterpreted_type] always allocate. *)
Definition new_type (d : type_desc) : M type_t :=
  fun s => (Z.of_nat (length (types s)), set_types (types s ++ [d]) s).

Definition yices_new_uninterpreted_type : M type_t := new_type Uninterpreted_desc.

Definition yices_new_scalar_type (card : Z) : M type_t :=
  ok <- check_positive card ;;
  if negb ok then ret NULL_TYPE else new_type (Scalar_desc card).

(** ** The exported finalizer of logic buffers *)

(** Whatever term the body builds, the value returned is the bitsize
    of the buffer. *)
Lemma bvlogic_buffer_get_term_returns_bitsize b s :
  fst (fst (bvlogic_buffer_get_term b s)) = Z.of_nat (length b)
  /\ snd (fst (bvlogic_buffer_get_term b s)) = []
  /\ snd (bvlogic_buffer_get_term b s) = snd (bvlogic_buffer_build_term b s).
Proof.
  unfold bvlogic_buffer_get_term, bind, ret.
  destruct (bvlogic_buffer_build_term b s). repeat split.
Qed.

End WithPlatform.

(** * Concrete managers

    The limits of [yices_limits.h] and the states reached by a few
    calls from [yices_init], on which the theorems above are run. *)

(** The limits of the source ([UINT32_MAX/8] for arities, variables
    and bit-vector sizes, [INT32_MAX] for degrees) with oracles that
    never conclude. *)
Definition ref_platform : platform :=
  mk_platform 268435455 268435455 268435455 2147483647
              (fun _ _ => false) (fun _ _ => false)
              (fun _ _ => false) (fun _ _ _ => false).

(** Two uninterpreted boolean terms, of handles 6 and 8. *)
Definition two_booleans_state : state :=
  snd (yices_new_uninterpreted_term bool_id
         (snd (yices_new_uninterpreted_term bool_id yices_init))).

(** Three uninterpreted boolean terms, of handles 6, 8 and 10. *)
Definition three_booleans_state : state :=
  snd (yices_new_uninterpreted_term bool_id two_booleans_state).

(** The type [BitVec(8)] (of id 3), an uninterpreted term [t] of that
    type (handle 6) and the constants 4 (handle 8) and 9 (handle 10). *)
Definition bv8_state : state :=
  let s1 := snd (yices_bv_type ref_platform 8 yices_init) in
  let s2 := snd (yices_new_uninterpreted_term 3 s1) in
  let s3 := snd (bvconst_term 8 4 s2) in
  snd (bvconst_term 8 9 s3).

(** Three uninterpreted terms (handles 6, 8, 10) of the type of id 3. *)
Definition three_terms_of (mk_type : M type_t) : state :=
  let s1 := snd (mk_type yices_init) in
  let s2 := snd (yices_new_uninterpreted_term 3 s1) in
  let s3 := snd (yices_new_uninterpreted_term 3 s2) in
  snd (yices_new_uninterpreted_term 3 s3).

Definition scalar2_state : state := three_terms_of (yices_new_scalar_type 2).
Definition scalar1_state : state := three_terms_of (yices_new_scalar_type 1).
Definition bv1_state : state := three_terms_of (yices_bv_type ref_platform 1).

(** ** The statements on these managers *)

Lemma yices_not_flips_polarity_witness :
  good_term (terms two_booleans_state) 6 = true
  /\ is_boolean_term (terms two_booleans_state) 6 = true
  /\ yices_not 6 two_booleans_state = (7, two_booleans_state)
  /\ index_of (fst (yices_not 6 two_booleans_state)) = index_of 6.
Proof.
  split; [reflexivity|]. split; [reflexivity|].
  destruct (@yices_not_flips_polarity two_booleans_state 6 eq_refl eq_refl)
    as (E & _ & Hi & _).
  split; [exact E | exact Hi].
Defined.

Lemma yices_or_and_empty_witness :
  0 <= YICES_MAX_ARITY ref_platform
  /\ yices_or ref_platform 0 [] yices_init = (false_term, yices_init)
  /\ yices_and ref_platform 0 [] yices_init = (true_term, yices_init).
Proof.
  assert (H : 0 <= YICES_MAX_ARITY ref_platform) by (simpl; lia).
  split; [exact H|].
  destruct (@yices_or_and_empty ref_platform [] yices_init H) as (Eo & Ea & _).
  split; [exact Eo | exact Ea].
Defined.

Lemma yices_eq_reflexive_witness :
  valid_term two_booleans_state 6
  /\ fst (yices_eq ref_platform 6 6 two_booleans_state) = true_term.
Proof.
  assert (H : valid_term two_booleans_state 6) by (split; reflexivity).
  split; [exact H|].
  exact (proj1 (@yices_eq_reflexive ref_platform two_booleans_state 6 H)).
Defined.



(** Scenario E: [distinct(a, b, c)] with [a, b, c : Scalar(2)]. *)
Lemma yices_distinct_false_witness :
  3 <= 3 < 2 ^ 32
  /\ good_distinct_term ref_platform 3 [6; 8; 10] scalar2_state = true
  /\ type_kind (types scalar2_state) (term_type (terms scalar2_state) 6) = SCALAR_TYPE
  /\ scalar_type_cardinal (types scalar2_state) (term_type (terms scalar2_state) 6) = 2
  /\ yices_distinct ref_platform 3 [6; 8; 10] scalar2_state = (false_term, scalar2_state)
  /\ valid_term scalar2_state 6
  /\ fst (yices_distinct ref_platform 2 [6; 6] scalar2_state) = false_term.
Proof.
  assert (Hn : 3 <= 3 < 2 ^ 32) by lia.
  assert (Hv : valid_term scalar2_state 6) by (split; reflexivity).
  destruct (@yices_distinct_false ref_platform scalar2_state) as (H3 & H2).
  split; [exact Hn|]. do 3 (split; [reflexivity|]).
  split.
  - apply (H3 3 [6; 8; 10] Hn eq_refl).
    right; left. split; [reflexivity | vm_compute; reflexivity].
  - split; [exact Hv | exact (H2 6 [] Hv)].
Defined.

(** The cardinality of the type is not consulted outside [Bool] and
    the scalar types, nor for two arguments: three terms of the type
    [BitVec(1)], which has two elements, give a [Distinct] node, and
    two different terms of a scalar type of one element give the
    negation of an [Eq] node. *)
Lemma yices_distinct_finite_counterexample :
  (good_distinct_term ref_platform 3 [6; 8; 10] bv1_state = true
   /\ type_card (types bv1_state) (term_type (terms bv1_state) 6) = Some 2
   /\ fst (yices_distinct ref_platform 3 [6; 8; 10] bv1_state) = 12
   /\ term_desc_of (terms (snd (yices_distinct ref_platform 3 [6; 8; 10] bv1_state))) 12
      = Distinct_desc [6; 8; 10]
   /\ fst (yices_distinct ref_platform 3 [6; 8; 10] bv1_state) <> false_term)
  /\ (good_distinct_term ref_platform 2 [6; 8] scalar1_state = true
      /\ type_card (types scalar1_state) (term_type (terms scalar1_state) 6) = Some 1
      /\ fst (yices_distinct ref_platform 2 [6; 8] scalar1_state) = 13
      /\ term_desc_of (terms (snd (yices_distinct ref_platform 2 [6; 8] scalar1_state))) 13
         = Eq_desc 6 8
      /\ fst (yices_distinct ref_platform 2 [6; 8] scalar1_state) <> false_term).
Proof.
  split; (do 4 (split; [reflexivity|])); vm_compute; discriminate.
Qed.


(** An if-then-else whose branches are a boolean and the integer
    zero fails with [INCOMPATIBLE_TYPES] and changes nothing. *)
Lemma failed_call_is_side_effect_free_witness :
  valid ref_platform (Call_ite 6 8 zero_term) two_booleans_state = false
  /\ fst (yices_ite 6 8 zero_term two_booleans_state) = NULL_TERM
  /\ same_tables two_booleans_state (snd (yices_ite 6 8 zero_term two_booleans_state))
  /\ code (error (snd (yices_ite 6 8 zero_term two_booleans_state))) = INCOMPATIBLE_TYPES.
Proof.
  split; [reflexivity|].
  destruct (@failed_call_is_side_effect_free ref_platform (Call_ite 6 8 zero_term)
              two_booleans_state eq_refl eq_refl) as (Hr & Hs & _).
  split; [exact Hr|]. split; [exact Hs | reflexivity].
Defined.

(** C1.  [bvlogic_buffer_get_term b] does not return the term it
    constructs: for every buffer [b] and state the value returned is
    the bitsize of [b] (the buffer is reset and the term is built, as
    the state shows).  On the constant buffer of the three bits
    [0, 1, 0] in the manager [bv8_state] the term built is the
    bit-vector constant of handle 12, and the value returned is 3,
    which as a handle is the boolean term false, not a bit-vector
    term. *)
Theorem bvlogic_buffer_get_term_returns_bitsize_not_term :
  (forall (b : bvlogic_buffer) (s : state),
      fst (fst (bvlogic_buffer_get_term b s)) = Z.of_nat (length b)
      /\ snd (fst (bvlogic_buffer_get_term b s)) = []
      /\ snd (bvlogic_buffer_get_term b s) = snd (bvlogic_buffer_build_term b s))
  /\ (let b := [false_bit; true_bit; false_bit] in
      let r := bvlogic_buffer_get_term b bv8_state in
      let t := fst (bvlogic_buffer_build_term b bv8_state) in
      t = 12
      /\ term_desc_of (terms (snd r)) t = Bvconst_desc 3 2
      /\ is_bitvector_term (snd r) t = true
      /\ term_bitsize (snd r) t = 3
      /\ fst (fst r) = 3
      /\ fst (fst r) <> t
      /\ fst (fst r) = false_term
      /\ is_bitvector_term (snd r) (fst (fst r)) = false).
Proof.
  split.
  - intros b s. apply bvlogic_buffer_get_term_returns_bitsize.
  - cbv zeta. do 5 (split; [reflexivity|]).
    split; [vm_compute; discriminate|]. split; reflexivity.
Qed.

(** A tuple type of three booleans (of id 3) and an uninterpreted
    term of that type (handle 6). *)
Definition tuple3_state : state :=
  let s1 := snd (tuple_type [bool_id; bool_id; bool_id] yices_init) in
  snd (yices_new_uninterpreted_term 3 s1).

(** C3 (evidence of the defect).  [yices_tuple_update(tuple, index,
    new_v)] gives [tuple] and [index] to [check_good_tuple_update] in
    the places of the index [i] and of the tuple [t].  In a manager
    holding the type [(bool, bool, bool)] and one term of that type
    (handle 6):
    - the call with [tuple = true_term], a boolean, is not valid, and
      the sibling [yices_select] refuses that argument with
      [TUPLE_REQUIRED]; but the check of [yices_tuple_update] passes
      and records nothing, so the call goes on to [mk_tuple_aux]: it
      does not return [NULL_TERM], sets no error code and adds a term
      to the table;
    - the same holds for [tuple = 1], which is not a live handle;
    - the valid update of component 0 of the tuple 6 is refused with
      [INVALID_TERM], because the index 0 is checked as a term. *)
Theorem yices_tuple_update_accepts_invalid_tuple :
  (type_kind (types tuple3_state) (term_type (terms tuple3_state) true_term)
   = BOOL_TYPE
   /\ valid ref_platform (Call_tuple_update true_term 6 true_term) tuple3_state = false
   /\ fst (yices_select 0 true_term tuple3_state) = NULL_TERM
   /\ code (error (snd (yices_select 0 true_term tuple3_state))) = TUPLE_REQUIRED)
  /\ (check_good_tuple_update (to_uint32 true_term) 6 true_term tuple3_state
      = (true, tuple3_state)
      /\ yices_tuple_update true_term 6 true_term tuple3_state
         = mk_tuple_aux true_term (tuple_term_nargs tuple3_state true_term)
                        6 true_term tuple3_state
      /\ fst (yices_tuple_update true_term 6 true_term tuple3_state) <> NULL_TERM
      /\ code (error (snd (yices_tuple_update true_term 6 true_term tuple3_state)))
         = NO_ERROR
      /\ terms (snd (yices_tuple_update true_term 6 true_term tuple3_state))
         <> terms tuple3_state)
  /\ (good_term (terms tuple3_state) 1 = false
      /\ valid ref_platform (Call_tuple_update 1 6 true_term) tuple3_state = false
      /\ check_good_tuple_update (to_uint32 1) 6 true_term tuple3_state
         = (true, tuple3_state)
      /\ fst (yices_tuple_update 1 6 true_term tuple3_state) <> NULL_TERM)
  /\ (valid ref_platform (Call_tuple_update 6 0 true_term) tuple3_state = true
      /\ fst (yices_tuple_update 6 0 true_term tuple3_state) = NULL_TERM
      /\ code (error (snd (yices_tuple_update 6 0 true_term tuple3_state)))
         = INVALID_TERM
      /\ same_tables tuple3_state (snd (yices_tuple_update 6 0 true_term tuple3_state))).
Proof.
  split; [repeat split|]. split; [|split].
  - do 2 (split; [reflexivity|]). split; [vm_compute; discriminate|].
    split; [reflexivity|]. vm_compute. discriminate.
  - do 3 (split; [reflexivity|]). vm_compute. discriminate.
  - repeat split.
Qed.

End Api.

(** * The skolemizer of the exists/forall solver

    [exists_forall/ef_skolemize.c]: conversion to negation normal form
    and skolemization.  The skolemizer keeps in [sk->uvars] the
    universal variables in the scope of which the current term lies. *)

Module Skolem.

Local Open Scope Z_scope.

Definition term_t := Tables.term_t.
Definition type_t := Tables.type_t.
Definition NULL_TERM : term_t := Tables.NULL_TERM.
Definition opposite_term : term_t -> term_t := Tables.opposite_term.
Definition unsigned_term : term_t -> term_t := Tables.unsigned_term.
Definition is_neg_term : term_t -> bool := Tables.is_neg_term.

(** The term kinds that the file names; every other kind is
    [OTHER_KIND]. *)
Inductive term_kind_t : Type :=
| ITE_TERM | ITE_SPECIAL | EQ_TERM | OR_TERM | XOR_TERM | FORALL_TERM
| APP_TERM | BV_ARRAY | BV_DIV | BV_REM | BV_SDIV | BV_SREM | BV_SMOD
| BV_SHL | BV_LSHR | BV_ASHR | BV_EQ_ATOM | BV_GE_ATOM | BV_SGE_ATOM
| OTHER_KIND.

(** ** The term manager

    Modelled from the spec: the term table, the term manager, the term
    explorer and the substitution module ([terms/terms.h],
    [terms/term_manager.h], [terms/term_explorer.h],
    [terms/term_substitution.h]) and the API functions called by
    [ef_skolem_term] are not part of the sources.  Only their
    signatures are used: the observers read the [world] (term table
    and manager), the constructors return a term and a new world.
    [composite_term_desc] stands for [ite_term_desc], [eq_term_desc],
    [or_term_desc] and [forall_term_desc]: the array [d->arg], of
    length [d->arity].  [yices_set_term_name f k x] names [f] after
    the counter [k] and the name of [x]. *)
Record term_manager_ops (world : Type) : Type := mk_term_manager_ops {
  term_kind : world -> term_t -> term_kind_t;
  term_is_atomic : world -> term_t -> bool;
  term_num_children : world -> term_t -> nat;
  term_child : world -> term_t -> nat -> term_t;
  composite_term_desc : world -> term_t -> list term_t;
  is_boolean_term : world -> term_t -> bool;
  term_type : world -> term_t -> type_t;
  mk_eq : term_t -> term_t -> world -> term_t * world;
  mk_implies : term_t -> term_t -> world -> term_t * world;
  mk_or : nat -> list term_t -> world -> term_t * world;
  mk_and : nat -> list term_t -> world -> term_t * world;
  mk_xor : nat -> list term_t -> world -> term_t * world;
  mk_bvarray : nat -> list term_t -> world -> term_t * world;
  mk_bvdiv : term_t -> term_t -> world -> term_t * world;
  mk_bvrem : term_t -> term_t -> world -> term_t * world;
  mk_bvsdiv : term_t -> term_t -> world -> term_t * world;
  mk_bvsrem : term_t -> term_t -> world -> term_t * world;
  mk_bvsmod : term_t -> term_t -> world -> term_t * world;
  mk_bvshl : term_t -> term_t -> world -> term_t * world;
  mk_bvlshr : term_t -> term_t -> world -> term_t * world;
  mk_bvashr : term_t -> term_t -> world -> term_t * world;
  mk_bveq : term_t -> term_t -> world -> term_t * world;
  mk_bvge : term_t -> term_t -> world -> term_t * world;
  mk_bvsge : term_t -> term_t -> world -> term_t * world;
  mk_ite : term_t -> term_t -> term_t -> type_t -> world -> term_t * world;
  mk_application : term_t -> nat -> list term_t -> world -> term_t * world;
  yices_function_type : nat -> list type_t -> type_t -> world -> type_t * world;
  yices_new_uninterpreted_term : type_t -> world -> term_t * world;
  yices_set_term_name : term_t -> Z -> term_t -> world -> world;
  yices_application : term_t -> nat -> list term_t -> world -> term_t * world;
  apply_term_subst :
    nat -> list term_t -> list term_t -> term_t -> world -> term_t * world
}.

(** ** Integer vectors ([ivector_t]) *)

Definition ivector := list term_t.

Definition ivector_push (v : ivector) (x : term_t) : ivector := v ++ [x].

(** [ivector_pop]: [assert(v->size > 0); v->size --;] an empty vector
    cannot be popped. *)
Definition ivector_pop (v : ivector) : option ivector :=
  match v with
  | [] => None
  | _ => Some (removelast v)
  end.

Section WithTermManager.

Variable world : Type.
Variable tm : term_manager_ops world.

(** ** The analyzer and the skolemizer objects

    [sk->mgr] and [sk->terms] point to the manager and the table of
    the analyzer: one [world], kept in the analyzer. *)
Record ef_analyzer_t : Type := mk_ef_analyzer {
  manager : world;
  num_skolem : Z;
  existentials : list (term_t * term_t)
}.

Record ef_skolemize_t : Type := mk_ef_skolemize {
  analyzer : ef_analyzer_t;
  flatten_ite : bool;
  flatten_iff : bool;
  uvars : ivector
}.

Definition init_ef_skolemize (ef : ef_analyzer_t) (f_ite f_iff : bool)
  : ef_skolemize_t :=
  mk_ef_skolemize ef f_ite f_iff [].

Definition terms (sk : ef_skolemize_t) : world := manager (analyzer sk).

Definition set_manager (w : world) (ef : ef_analyzer_t) : ef_analyzer_t :=
  mk_ef_analyzer w (num_skolem ef) (existentials ef).

Definition set_analyzer (ef : ef_analyzer_t) (sk : ef_skolemize_t)
  : ef_skolemize_t :=
  mk_ef_skolemize ef (flatten_ite sk) (flatten_iff sk) (uvars sk).

Definition set_uvars (v : ivector) (sk : ef_skolemize_t) : ef_skolemize_t :=
  mk_ef_skolemize (analyzer sk) (flatten_ite sk) (flatten_iff sk) v.

(** Computations on the skolemizer that may fail (a read outside an
    array, a pop of an empty vector, a variable recorded twice, or no
    more fuel). *)
Definition SK (A : Type) : Type := ef_skolemize_t -> option (A * ef_skolemize_t).

Definition ret {A} (a : A) : SK A := fun sk => Some (a, sk).

Definition bind {A B} (c : SK A) (k : A -> SK B) : SK B :=
  fun sk =>
    match c sk with
    | Some (a, sk') => k a sk'
    | None => None
    end.

Definition fault {A} : SK A := fun _ => None.

Notation "x <- c1 ;; c2" := (bind c1 (fun x => c2))
  (at level 61, c1 at next level, right associativity).

(** A call of the term manager. *)
Definition call {A} (f : world -> A * world) : SK A :=
  fun sk =>
    let '(a, w) := f (terms sk) in
    Some (a, set_analyzer (set_manager w (analyzer sk)) sk).

(** ** [ef_update_composite]

    Construct a composite term by updating its children. *)
Definition ef_update_composite (t : term_t) (args : ivector) (w : world)
  : term_t * world :=
  let kind := term_kind tm w t in
  let n := length args in
  let c i := nth i args NULL_TERM in
  match kind with
  | EQ_TERM => mk_eq tm (c 0%nat) (c 1%nat) w
  | OR_TERM => mk_or tm n args w
  | XOR_TERM => mk_xor tm n args w
  | BV_ARRAY => mk_bvarray tm n args w
  | BV_DIV => mk_bvdiv tm (c 0%nat) (c 1%nat) w
  | BV_REM => mk_bvrem tm (c 0%nat) (c 1%nat) w
  | BV_SDIV => mk_bvsdiv tm (c 0%nat) (c 1%nat) w
  | BV_SREM => mk_bvsrem tm (c 0%nat) (c 1%nat) w
  | BV_SMOD => mk_bvsmod tm (c 0%nat) (c 1%nat) w
  | BV_SHL => mk_bvshl tm (c 0%nat) (c 1%nat) w
  | BV_LSHR => mk_bvlshr tm (c 0%nat) (c 1%nat) w
  | BV_ASHR => mk_bvashr tm (c 0%nat) (c 1%nat) w
  | BV_EQ_ATOM => mk_bveq tm (c 0%nat) (c 1%nat) w
  | BV_GE_ATOM => mk_bvge tm (c 0%nat) (c 1%nat) w
  | BV_SGE_ATOM => mk_bvsge tm (c 0%nat) (c 1%nat) w
  | ITE_TERM =>
      let tau := term_type tm w (c 1%nat) in
      mk_ite tm (c 0%nat) (c 1%nat) (c 2%nat) tau w
  | APP_TERM =>
      (* [mk_application(tm, c[0], n-1, &c[1])], with [n >= 1] *)
      mk_application tm (c 0%nat) (n - 1) (tl args) w
  | _ => (NULL_TERM, w)
  end.

(** ** [ef_skolem_term]

    Skolemize variable [x] using [uvars] as skolem arguments. *)
Record ef_skolem_t : Type := mk_ef_skolem { func : term_t; fapp : term_t }.

Definition ef_skolem_term (x : term_t) (n : nat) (uv : ivector)
           (ef : ef_analyzer_t) : ef_skolem_t * ef_analyzer_t :=
  let k := num_skolem ef + 1 in
  let w := manager ef in
  let domt := map (term_type tm w) (firstn n uv) in
  let rt := term_type tm w x in
  let '(funct, w1) := yices_function_type tm n domt rt w in
  let '(f, w2) := yices_new_uninterpreted_term tm funct w1 in
  let w3 := yices_set_term_name tm f k x w2 in
  let '(a, w4) := yices_application tm f n uv w3 in
  (mk_ef_skolem f a, mk_ef_analyzer w4 k (existentials ef)).

Definition int_hmap_add (k v : term_t) (ef : ef_analyzer_t) : ef_analyzer_t :=
  mk_ef_analyzer (manager ef) (num_skolem ef) ((k, v) :: existentials ef).

(** Modelled from the spec: [int_hmap_find] ([utils/int_hash_map.h],
    not in the sources) returns the record of a key, or [NULL]. *)
Definition int_hmap_find (m : list (term_t * term_t)) (k : term_t) : option term_t :=
  match find (fun p => fst p =? k) m with
  | Some p => Some (snd p)
  | None => None
  end.

(** ** [ef_skolem_body]

    [t] is [(NOT (FORALL x_0 ... x_k : body))]; the body is the last
    argument in the term descriptor.  With no universal variable in
    scope the [x_i] are recorded as existentials, otherwise each is
    replaced in the body by a skolem function applied to [uvars].
    The assertions of the function are faults: [assert(n >= 1)], and
    in both loops [assert(r == NULL)], a variable that is recorded
    already. *)

(** The loop of the case [uvars->size == 0]:
    [r = int_hmap_find(&ef->existentials, a[i]); assert(r == NULL);
     int_hmap_add(&ef->existentials, a[i], a[i]);] *)
Fixpoint record_all (a : list term_t) (ef : ef_analyzer_t) : option ef_analyzer_t :=
  match a with
  | [] => Some ef
  | x :: a' =>
      match int_hmap_find (existentials ef) x with
      | Some _ => None
      | None => record_all a' (int_hmap_add x x ef)
      end
  end.

(** The loop of the other case. *)
Fixpoint skolem_all (a : list term_t) (uv : ivector) (ef : ef_analyzer_t)
  : option (list term_t * ef_analyzer_t) :=
  match a with
  | [] => Some ([], ef)
  | x :: a' =>
      match int_hmap_find (existentials ef) x with
      | Some _ => None
      | None =>
          let '(s, ef1) := ef_skolem_term x (length uv) uv ef in
          let ef2 := int_hmap_add x (func s) ef1 in
          match skolem_all a' uv ef2 with
          | Some (skolems, ef3) => Some (fapp s :: skolems, ef3)
          | None => None
          end
      end
  end.

Definition ef_skolem_body (t : term_t) : SK term_t :=
  fun sk =>
    let ef := analyzer sk in
    let d := composite_term_desc tm (terms sk) t in
    match length d with
    | O => None
    | S O => None
    | S n =>
        let a := firstn n d in
        let body := opposite_term (nth n d NULL_TERM) in
        match uvars sk with
        | [] =>
            match record_all a ef with
            | Some ef' => Some (body, set_analyzer ef' sk)
            | None => None
            end
        | _ =>
            match skolem_all a (uvars sk) ef with
            | Some (skolems, ef') =>
                let '(body', w) :=
                  apply_term_subst tm n a skolems body (manager ef') in
                Some (body', set_analyzer (set_manager w ef') sk)
            | None => None
            end
        end
    end.

(** ** [ef_skolemize_term] *)

(** [for (i=0; i<n; i++) { u = term_child(terms, v, i);
    u = ef_skolemize_term(sk, u); ivector_push(&args, u); }] *)
Fixpoint skolemize_children (rec : term_t -> SK term_t) (v : term_t)
         (i count : nat) (args : ivector) : SK ivector :=
  match count with
  | O => ret args
  | S count' =>
      fun sk =>
        (u <- rec (term_child tm (terms sk) v i) ;;
         skolemize_children rec v (S i) count' (ivector_push args u)) sk
  end.

(** [for (i=0; i<n; i++) { u = opposite_term(d->arg[i]);
    v = ef_skolemize_term(sk, u); ivector_push(&args, v); }] *)
Fixpoint skolemize_negated (rec : term_t -> SK term_t) (d : list term_t)
         (args : ivector) : SK ivector :=
  match d with
  | [] => ret args
  | a :: d' =>
      v <- rec (opposite_term a) ;;
      skolemize_negated rec d' (ivector_push args v)
  end.

(** [for (i=0; i<n; i++) ivector_push(&sk->uvars, d->arg[i]);] *)
Definition push_uvars (vars : list term_t) : SK unit :=
  fun sk => Some (tt, set_uvars (fold_left ivector_push vars (uvars sk)) sk).

(** [for (i=0; i<n; i++) ivector_pop(&sk->uvars);] *)
Fixpoint pop_n (n : nat) (v : ivector) : option ivector :=
  match n with
  | O => Some v
  | S n' =>
      match ivector_pop v with
      | Some v' => pop_n n' v'
      | None => None
      end
  end.

Definition pop_uvars (n : nat) : SK unit :=
  fun sk =>
    match pop_n n (uvars sk) with
    | Some v => Some (tt, set_uvars v sk)
    | None => None
    end.

(** The outcome of the [switch]: [result], the vector [args] and the
    variable [n] as the switch leaves them. *)
Definition no_result (n : nat) : SK (term_t * ivector * nat) :=
  ret (NULL_TERM, [], n).

Definition arg (d : list term_t) (i : nat) : term_t := nth i d NULL_TERM.

(** The [switch] of the branch [is_neg_term(t)]. *)
Definition negative_switch (rec : term_t -> SK term_t) (kind : term_kind_t)
           (t : term_t) (n : nat) : SK (term_t * ivector * nat) :=
  fun sk =>
    let d := composite_term_desc tm (terms sk) t in
    match kind with
    | ITE_TERM | ITE_SPECIAL =>
        if flatten_ite sk && is_boolean_term tm (terms sk) (arg d 1)
        then
          (u <- call (mk_implies tm (arg d 0) (opposite_term (arg d 1))) ;;
           v <- call (mk_implies tm (opposite_term (arg d 0))
                                 (opposite_term (arg d 2))) ;;
           u <- rec u ;;
           v <- rec v ;;
           result <- call (mk_and tm 2 [u; v]) ;;
           ret (result, [u; v], n)) sk
        else no_result n sk
    | EQ_TERM =>
        if flatten_iff sk && is_boolean_term tm (terms sk) (arg d 0)
        then
          (u <- call (mk_implies tm (arg d 0) (arg d 1)) ;;
           v <- call (mk_implies tm (arg d 1) (arg d 0)) ;;
           u <- rec (opposite_term u) ;;
           v <- rec (opposite_term v) ;;
           result <- call (mk_or tm 2 [u; v]) ;;
           ret (result, [u; v], n)) sk
        else no_result n sk
    | OR_TERM =>
        (args <- skolemize_negated rec d [] ;;
         result <- call (mk_and tm (length d) args) ;;
         ret (result, args, length d)) sk
    | FORALL_TERM =>
        (u <- ef_skolem_body t ;;
         result <- rec u ;;
         ret (result, [], n)) sk
    | _ => no_result n sk
    end.

(** The [switch] of the other branch. *)
Definition positive_switch (rec : term_t -> SK term_t) (kind : term_kind_t)
           (t : term_t) (n : nat) : SK (term_t * ivector * nat) :=
  fun sk =>
    let d := composite_term_desc tm (terms sk) t in
    match kind with
    | ITE_TERM | ITE_SPECIAL =>
        if flatten_ite sk && is_boolean_term tm (terms sk) (arg d 1)
        then
          (u <- call (mk_implies tm (arg d 0) (arg d 1)) ;;
           v <- call (mk_implies tm (opposite_term (arg d 0)) (arg d 2)) ;;
           u <- rec u ;;
           v <- rec v ;;
           result <- call (mk_and tm 2 [u; v]) ;;
           ret (result, [u; v], n)) sk
        else no_result n sk
    | EQ_TERM =>
        if flatten_iff sk && is_boolean_term tm (terms sk) (arg d 0)
        then
          (u <- call (mk_implies tm (arg d 0) (arg d 1)) ;;
           v <- call (mk_implies tm (arg d 1) (arg d 0)) ;;
           u <- rec u ;;
           v <- rec v ;;
           result <- call (mk_and tm 2 [u; v]) ;;
           ret (result, [u; v], n)) sk
        else no_result n sk
    | FORALL_TERM =>
        match length d with
        | O => None
        | S n' =>
            (_ <- push_uvars (firstn n' d) ;;
             result <- rec (arg d n') ;;
             _ <- pop_uvars n' ;;
             ret (result, [], n')) sk
        end
    | _ => no_result n sk
    end.

(** Convert a term to negated normal form and skolemize. *)
Fixpoint ef_skolemize_term (fuel : nat) (t : term_t) : SK term_t :=
  match fuel with
  | O => fault
  | S fuel' =>
      fun sk =>
        let kind := term_kind tm (terms sk) t in
        if term_is_atomic tm (terms sk) (unsigned_term t)
        then Some (t, sk)
        else
          let n := term_num_children tm (terms sk) t in
          if is_neg_term t
          then
            (r <- negative_switch (ef_skolemize_term fuel') kind t n ;;
             let '(result, args, _) := r in
             let v := unsigned_term t in
             fun sk1 =>
               let n := term_num_children tm (terms sk1) v in
               if result =? NULL_TERM
               then
                 (args <- skolemize_children (ef_skolemize_term fuel') v 0 n args ;;
                  r <- call (ef_update_composite v args) ;;
                  ret (opposite_term r)) sk1
               else Some (result, sk1)) sk
          else
            (r <- positive_switch (ef_skolemize_term fuel') kind t n ;;
             let '(result, args, n) := r in
             if result =? NULL_TERM
             then
               args <- skolemize_children (ef_skolemize_term fuel') t 0 n args ;;
               call (ef_update_composite (unsigned_term t) args)
             else ret result) sk
  end.

(** Get the skolemized version of term [t]. *)
Definition ef_skolemize (fuel : nat) (t : term_t) : SK term_t :=
  ef_skolemize_term fuel t.

(** ** The universal variables form a stack *)

(** [keeps_uvars c]: whenever [c] returns, [sk->uvars] is what it was
    when [c] was entered. *)
Definition keeps_uvars {A} (c : SK A) : Prop :=
  forall sk a sk', c sk = Some (a, sk') -> uvars sk' = uvars sk.

Lemma keeps_uvars_ret A (a : A) : keeps_uvars (ret a).
Proof. intros sk a' sk' H. inversion H. reflexivity. Qed.

Lemma keeps_fault A : keeps_uvars (@fault A).
Proof. intros sk a sk' H. discriminate. Qed.

Lemma keeps_uvars_bind A B (c : SK A) (k : A -> SK B) :
  keeps_uvars c -> (forall a, keeps_uvars (k a)) -> keeps_uvars (bind c k).
Proof.
  intros Hc Hk sk b sk' H. unfold bind in H.
  destruct (c sk) as [[a sk1]|] eqn:E; [|discriminate].
  rewrite (Hk a _ _ _ H). exact (Hc _ _ _ E).
Qed.

Lemma keeps_call A (f : world -> A * world) : keeps_uvars (call f).
Proof.
  intros sk a sk' H. unfold call in H.
  destruct (f (terms sk)) as [a' w]. inversion H. reflexivity.
Qed.

Lemma keeps_uvars_read A (c : ef_skolemize_t -> SK A) :
  (forall sk0, keeps_uvars (c sk0)) -> keeps_uvars (fun sk => c sk sk).
Proof. intros H sk a sk' E. exact (H sk sk a sk' E). Qed.

Lemma keeps_ef_skolem_body t : keeps_uvars (ef_skolem_body t).
Proof.
  intros sk a sk' H. unfold ef_skolem_body in H.
  destruct (length (composite_term_desc tm (terms sk) t)) as [|[|n]];
    [discriminate | discriminate |].
  destruct (uvars sk) eqn:E.
  - destruct (record_all _ _) as [ef'|]; [|discriminate].
    inversion H. simpl. exact E.
  - destruct (skolem_all _ _ _) as [[skolems ef']|]; [|discriminate].
    destruct (apply_term_subst _ _ _ _ _ _) as [body' w].
    inversion H. simpl. exact E.
Qed.

Section Loops.

Variable rec : term_t -> SK term_t.
Hypothesis keeps_rec : forall t, keeps_uvars (rec t).

Lemma keeps_skolemize_children v count :
  forall i args, keeps_uvars (skolemize_children rec v i count args).
Proof.
  induction count as [|count IH]; intros i args; simpl.
  - apply keeps_uvars_ret.
  - apply (keeps_uvars_read (fun sk0 =>
             bind (rec (term_child tm (terms sk0) v i))
                  (fun u => skolemize_children rec v (S i) count
                              (ivector_push args u)))).
    intros sk0. apply keeps_uvars_bind; [apply keeps_rec | intros u; apply IH].
Qed.

Lemma keeps_skolemize_negated d :
  forall args, keeps_uvars (skolemize_negated rec d args).
Proof.
  induction d as [|a d IH]; intros args; simpl.
  - apply keeps_uvars_ret.
  - apply keeps_uvars_bind; [apply keeps_rec | intros v; apply IH].
Qed.

End Loops.

(** Pushing in the order of the array, then popping as many times. *)
Lemma push_all vars : forall v, fold_left ivector_push vars v = v ++ vars.
Proof.
  induction vars as [|x vars IH]; intros v; simpl.
  - now rewrite app_nil_r.
  - rewrite IH. unfold ivector_push. now rewrite <- app_assoc.
Qed.

Lemma ivector_pop_push v x : ivector_pop (ivector_push v x) = Some v.
Proof.
  unfold ivector_pop, ivector_push.
  destruct (v ++ [x]) eqn:E.
  - now destruct v.
  - rewrite <- E. now rewrite removelast_last.
Qed.

(** After [k] pops the last [k] variables are gone, the last one
    pushed first. *)
Lemma pop_n_app vars : forall v k,
  (k <= length vars)%nat ->
  pop_n k (v ++ vars) = Some (v ++ firstn (length vars - k) vars).
Proof.
  induction vars as [|x vars IH] using rev_ind; intros v k Hk.
  - simpl in Hk. assert (k = 0%nat) by lia. subst. reflexivity.
  - assert (Hl : length (vars ++ [x]) = S (length vars))
      by (rewrite length_app; simpl; lia).
    rewrite Hl in *.
    destruct k as [|k].
    + simpl pop_n. rewrite Nat.sub_0_r, <- Hl. now rewrite firstn_all.
    + simpl pop_n. rewrite app_assoc.
      change ((v ++ vars) ++ [x]) with (ivector_push (v ++ vars) x).
      rewrite ivector_pop_push. rewrite IH by lia.
      replace (S (length vars) - S k)%nat with (length vars - k)%nat by lia.
      rewrite firstn_app.
      replace (length vars - k - length vars)%nat with 0%nat by lia.
      simpl. now rewrite app_nil_r.
Qed.

Lemma pop_n_pushed vars v : pop_n (length vars) (v ++ vars) = Some v.
Proof.
  rewrite pop_n_app by lia. rewrite Nat.sub_diag. simpl. now rewrite app_nil_r.
Qed.

Ltac keeps_step :=
  first [ apply keeps_uvars_ret | apply keeps_call | apply keeps_fault
        | apply keeps_ef_skolem_body
        | apply keeps_skolemize_children | apply keeps_skolemize_negated
        | apply keeps_uvars_bind; [|intro] ].

Ltac from_keeps sk H :=
  match type of H with
  | ?c sk = Some (?a, ?sk') =>
      apply (fun K : keeps_uvars c => K sk a sk' H)
  end.

(** What the case [FORALL_TERM] of the positive branch does, for a
    descriptor of [n' + 1] arguments: the variables are pushed in the
    order of the descriptor, the body is skolemized under them, and
    [n'] pops restore the vector. *)
Lemma positive_forall_run (rec : term_t -> SK term_t) d n' sk :
  keeps_uvars (rec (arg d n')) ->
  length d = S n' ->
  (_ <- push_uvars (firstn n' d) ;;
   result <- rec (arg d n') ;;
   _ <- pop_uvars n' ;;
   ret (result, @nil term_t, n')) sk
  = match rec (arg d n') (set_uvars (uvars sk ++ firstn n' d) sk) with
    | Some (result, sk2) => Some (result, [], n', set_uvars (uvars sk) sk2)
    | None => None
    end.
Proof.
  intros Hrec Hd. unfold bind, push_uvars, pop_uvars, ret.
  rewrite push_all.
  destruct (rec (arg d n') (set_uvars (uvars sk ++ firstn n' d) sk))
    as [[result sk2]|] eqn:E; [|reflexivity].
  rewrite (Hrec _ _ _ E). simpl uvars.
  assert (Hl : length (firstn n' d) = n') by (rewrite length_firstn; lia).
  rewrite <- Hl at 1. rewrite pop_n_pushed. reflexivity.
Qed.

Section Switches.

Variable rec : term_t -> SK term_t.
Hypothesis keeps_rec : forall t, keeps_uvars (rec t).

Lemma keeps_negative_switch kind t n :
  keeps_uvars (negative_switch rec kind t n).
Proof.
  intros sk a sk' H. unfold negative_switch, no_result in H.
  destruct kind;
    repeat match type of H with
           | (if ?b then _ else _) = _ => destruct b
           end;
    from_keeps sk H; repeat keeps_step; apply keeps_rec.
Qed.

Lemma keeps_positive_switch kind t n :
  keeps_uvars (positive_switch rec kind t n).
Proof.
  intros sk a sk' H. unfold positive_switch, no_result in H.
  destruct kind;
    repeat match type of H with
           | (if ?b then _ else _) = _ => destruct b
           end;
    try (from_keeps sk H; repeat keeps_step; apply keeps_rec).
  destruct (length (composite_term_desc tm (terms sk) t)) as [|n'] eqn:Hd;
    [discriminate|].
  rewrite (@positive_forall_run rec _ n' sk) in H; [| apply keeps_rec | exact Hd].
  destruct (rec _ _) as [[result sk2]|]; [|discriminate].
  inversion H. reflexivity.
Qed.

End Switches.

Lemma keeps_ef_skolemize_term fuel : forall t, keeps_uvars (ef_skolemize_term fuel t).
Proof.
  induction fuel as [|fuel IH]; intros t; simpl.
  - apply keeps_fault.
  - intros sk a sk' H.
    destruct (term_is_atomic tm (terms sk) (unsigned_term t)).
    { inversion H. reflexivity. }
    destruct (is_neg_term t).
    + from_keeps sk H. apply keeps_uvars_bind.
      * now apply keeps_negative_switch.
      * intros [[result args] n0].
        destruct (result =? NULL_TERM).
        -- apply (keeps_uvars_read (fun sk1 =>
                   args <- skolemize_children (ef_skolemize_term fuel)
                             (unsigned_term t) 0
                             (term_num_children tm (terms sk1) (unsigned_term t))
                             args ;;
                   r <- call (ef_update_composite (unsigned_term t) args) ;;
                   ret (opposite_term r))).
           intros sk0. repeat keeps_step. exact IH.
        -- apply (@keeps_uvars_ret _ result).
    + from_keeps sk H. apply keeps_uvars_bind.
      * now apply keeps_positive_switch.
      * intros [[result args] n0]. destruct (result =? NULL_TERM).
        -- repeat keeps_step. exact IH.
        -- apply keeps_uvars_ret.
Qed.

(** C8.  [sk->uvars] is a prefix stack.  It is empty after
    [init_ef_skolemize].  Every call of [ef_skolemize_term] that
    returns leaves in [sk->uvars] the sequence it held on entry.  On
    a positive [forall] term of variables [vars] and body [body], the
    variables are pushed in the order of the declaration (the vector
    becomes [uvars ++ vars]), the body is skolemized under that
    vector, and the pops then remove the variables last pushed first,
    back to the vector of entry: [k] pops leave the entry vector
    followed by the first [length vars - k] variables. *)
Theorem uvars_is_a_prefix_stack :
  (forall ef f_ite f_iff, uvars (init_ef_skolemize ef f_ite f_iff) = [])
  /\ (forall fuel t sk result sk',
         ef_skolemize_term fuel t sk = Some (result, sk') ->
         uvars sk' = uvars sk)
  /\ (forall fuel t sk vars body,
         term_is_atomic tm (terms sk) (unsigned_term t) = false ->
         is_neg_term t = false ->
         term_kind tm (terms sk) t = FORALL_TERM ->
         composite_term_desc tm (terms sk) t = vars ++ [body] ->
         fold_left ivector_push vars (uvars sk) = uvars sk ++ vars
         /\ (forall k, (k <= length vars)%nat ->
                       pop_n k (uvars sk ++ vars)
                       = Some (uvars sk ++ firstn (length vars - k) vars))
         /\ (forall result sk2,
                ef_skolemize_term fuel body (set_uvars (uvars sk ++ vars) sk)
                = Some (result, sk2) ->
                result <> NULL_TERM ->
                uvars sk2 = uvars sk ++ vars
                /\ ef_skolemize_term (S fuel) t sk
                   = Some (result, set_uvars (uvars sk) sk2))
         /\ (ef_skolemize_term fuel body (set_uvars (uvars sk ++ vars) sk) = None ->
             ef_skolemize_term (S fuel) t sk = None)).
Proof.
  split; [reflexivity|]. split.
  - intros fuel t sk result sk' H. exact (@keeps_ef_skolemize_term fuel t sk result sk' H).
  - intros fuel t sk vars body Hat Hpos Hk Hd.
    split; [apply push_all|]. split; [intros k Hle; now apply pop_n_app|].
    assert (Hlen : length (composite_term_desc tm (terms sk) t) = S (length vars))
      by (rewrite Hd, length_app; simpl; lia).
    assert (Hfirst : firstn (length vars) (composite_term_desc tm (terms sk) t) = vars)
      by (rewrite Hd, firstn_app, Nat.sub_diag, firstn_all; simpl;
          apply app_nil_r).
    assert (Hbody : arg (composite_term_desc tm (terms sk) t) (length vars) = body)
      by (unfold arg; rewrite Hd, app_nth2, Nat.sub_diag by lia; reflexivity).
    assert (Hstep : positive_switch (ef_skolemize_term fuel) FORALL_TERM t
                      (term_num_children tm (terms sk) t) sk
                    = match ef_skolemize_term fuel body
                              (set_uvars (uvars sk ++ vars) sk) with
                      | Some (result, sk2) =>
                          Some (result, [], length vars, set_uvars (uvars sk) sk2)
                      | None => None
                      end).
    { unfold positive_switch. rewrite Hlen.
      rewrite (@positive_forall_run (ef_skolemize_term fuel) _ (length vars) sk);
        [| apply keeps_ef_skolemize_term | exact Hlen].
      now rewrite Hfirst, Hbody. }
    split.
    + intros result sk2 E Hnn. split.
      * rewrite (@keeps_ef_skolemize_term fuel body _ _ _ E). reflexivity.
      * simpl ef_skolemize_term. rewrite Hat, Hpos, Hk. unfold bind at 1.
        rewrite Hstep, E.
        destruct (Z.eqb_spec result NULL_TERM) as [->|_]; [now elim Hnn|].
        reflexivity.
    + intros E. simpl ef_skolemize_term. rewrite Hat, Hpos, Hk. unfold bind at 1.
      now rewrite Hstep, E.
Qed.

End WithTermManager.

(** ** A small term manager, to run the skolemizer

    A table of nodes (kind and children) indexed by the term index; a
    node without children is atomic.  The constructors append a node;
    implication and conjunction are written with [OR_TERM] and
    polarities, and the substitution rewrites the children of its
    argument. *)
Definition toy_world : Type := list (term_kind_t * list term_t).

Definition toy_node (w : toy_world) (t : term_t) : term_kind_t * list term_t :=
  nth (Z.to_nat (Z.shiftr t 1)) w (OTHER_KIND, []).

Definition toy_mk (k : term_kind_t) (args : list term_t) (w : toy_world)
  : term_t * toy_world :=
  (2 * Z.of_nat (length w), w ++ [(k, args)]).

Definition toy_mk_and (n : nat) (args : list term_t) (w : toy_world)
  : term_t * toy_world :=
  let '(r, w') := toy_mk OR_TERM (map opposite_term (firstn n args)) w in
  (opposite_term r, w').

Definition toy_replace (a skolems : list term_t) (c : term_t) : term_t :=
  match find (fun p => fst p =? c) (combine a skolems) with
  | Some p => snd p
  | None => c
  end.

Definition toy_subst (n : nat) (a skolems : list term_t) (body : term_t)
           (w : toy_world) : term_t * toy_world :=
  let '(k, ch) := toy_node w body in
  let '(r, w') := toy_mk k (map (toy_replace a skolems) ch) w in
  (if is_neg_term body then opposite_term r else r, w').

Definition toy_ops : term_manager_ops toy_world :=
  mk_term_manager_ops
    (fun w t => fst (toy_node w t))
    (fun w t => match snd (toy_node w t) with [] => true | _ => false end)
    (fun w t => length (snd (toy_node w t)))
    (fun w t i => nth i (snd (toy_node w t)) NULL_TERM)
    (fun w t => snd (toy_node w t))
    (fun _ _ => true)
    (fun _ _ => 0)
    (fun a b => toy_mk EQ_TERM [a; b])
    (fun a b => toy_mk OR_TERM [opposite_term a; b])
    (fun n args => toy_mk OR_TERM (firstn n args))
    toy_mk_and
    (fun n args => toy_mk XOR_TERM (firstn n args))
    (fun n args => toy_mk BV_ARRAY (firstn n args))
    (fun a b => toy_mk BV_DIV [a; b])
    (fun a b => toy_mk BV_REM [a; b])
    (fun a b => toy_mk BV_SDIV [a; b])
    (fun a b => toy_mk BV_SREM [a; b])
    (fun a b => toy_mk BV_SMOD [a; b])
    (fun a b => toy_mk BV_SHL [a; b])
    (fun a b => toy_mk BV_LSHR [a; b])
    (fun a b => toy_mk BV_ASHR [a; b])
    (fun a b => toy_mk BV_EQ_ATOM [a; b])
    (fun a b => toy_mk BV_GE_ATOM [a; b])
    (fun a b => toy_mk BV_SGE_ATOM [a; b])
    (fun c a b _ => toy_mk ITE_TERM [c; a; b])
    (fun f n args => toy_mk APP_TERM (f :: firstn n args))
    (fun n _ _ w => (Z.of_nat n, w))
    (fun _ => toy_mk OTHER_KIND [])
    (fun _ _ _ w => w)
    (fun f n args => toy_mk APP_TERM (f :: firstn n args))
    toy_subst.

(** The variables [x] (handle 2) and [y] (handle 4), the function
    symbol [p] (handle 6), the atom [p(x, y)] (handle 8), the term
    [(forall y. not p(x, y))] (handle 10) and the formula
    [(forall x. exists y. p(x, y))], that is
    [(forall x. not (forall y. not p(x, y)))] (handle 12). *)
Definition forall_exists_world : toy_world :=
  [ (OTHER_KIND, []); (OTHER_KIND, []); (OTHER_KIND, []); (OTHER_KIND, []);
    (APP_TERM, [6; 2; 4]); (FORALL_TERM, [4; 9]); (FORALL_TERM, [2; 11]) ].

Definition forall_exists_sk : ef_skolemize_t toy_world :=
  init_ef_skolemize (mk_ef_analyzer forall_exists_world 0 []) true true.

(** The state in which the body [(exists y. p(x, y))] is left when it
    is skolemized under the universal variable [x]. *)
Definition skolemized_body_sk : ef_skolemize_t toy_world :=
  match ef_skolemize_term toy_ops 9 11 (set_uvars [2] forall_exists_sk) with
  | Some (_, sk2) => sk2
  | None => forall_exists_sk
  end.

Lemma uvars_is_a_prefix_stack_witness :
  term_is_atomic toy_ops (terms forall_exists_sk) (unsigned_term 12) = false
  /\ is_neg_term 12 = false
  /\ term_kind toy_ops (terms forall_exists_sk) 12 = FORALL_TERM
  /\ composite_term_desc toy_ops (terms forall_exists_sk) 12 = [2] ++ [11]
  /\ ef_skolemize_term toy_ops 9 11 (set_uvars ([] ++ [2]) forall_exists_sk)
     = Some (22, skolemized_body_sk)
  /\ 22 <> NULL_TERM
  /\ uvars skolemized_body_sk = [2]
  /\ existentials (analyzer skolemized_body_sk) = [(4, 14)]
  /\ toy_node (terms skolemized_body_sk) 16 = (APP_TERM, [14; 2])
  /\ ef_skolemize_term toy_ops 10 12 forall_exists_sk
     = Some (22, set_uvars [] skolemized_body_sk)
  /\ uvars (set_uvars [] skolemized_body_sk) = uvars forall_exists_sk.
Proof.
  assert (E : ef_skolemize_term toy_ops 9 11
                (set_uvars (uvars forall_exists_sk ++ [2]) forall_exists_sk)
              = Some (22, skolemized_body_sk)) by (vm_compute; reflexivity).
  assert (Hnn : 22 <> NULL_TERM) by discriminate.
  destruct (uvars_is_a_prefix_stack toy_ops) as (_ & Hret & Hforall).
  destruct (@Hforall 9%nat 12 forall_exists_sk [2] 11
              eq_refl eq_refl eq_refl eq_refl) as (_ & _ & Hrun & _).
  destruct (Hrun 22 skolemized_body_sk E Hnn) as (Huv & Hcall).
  do 4 (split; [reflexivity|]).
  split; [exact E|]. split; [exact Hnn|]. split; [exact Huv|].
  do 2 (split; [reflexivity|]).
  split; [exact Hcall|].
  exact (Hret 10%nat 12 forall_exists_sk 22 _ Hcall).
Defined.

End Skolem.

(* ================================================================== *)
(** * Further properties of the buffer lists                           *)
(* ================================================================== *)

Module BufferPoolProps.

Import BufferPool.

(** The teardown function of each list. *)
Definition free_buffer_list (l : list_id) : nat -> pool -> outcome pool :=
  match l with
  | ArithList => free_arith_buffer_list
  | BvArithList => free_bvarith_buffer_list
  | BvArith64List => free_bvarith64_buffer_list
  | BvLogicList => free_bvlogic_buffer_list
  end.

Lemma header_of_clear_list_same l m :
  header_of l (clear_list l m) = mk_dl (Header l) (Header l).
Proof. now destruct l. Qed.

Lemma header_of_clear_list_other l l' m :
  l' <> l -> header_of l' (clear_list l m) = header_of l' m.
Proof. destruct l, l'; intros H; try reflexivity; now elim H. Qed.

Lemma heap_clear_list l m : heap (clear_list l m) = heap m.
Proof. now destruct l. Qed.

(** [free_arith_buffer_list], [free_bvarith_buffer_list] and
    [free_bvlogic_buffer_list], which compare with the header of their
    own list: on a well-formed list they stop, every element of the
    list is freed, the list is left empty, and neither the elements
    of the other lists nor their headers are touched. *)
Theorem free_buffer_list_drains l m els fuel :
  l <> BvArith64List ->
  list_holds m l els -> length els <= fuel ->
  exists m',
    free_buffer_list l fuel m = Ok m'
    /\ (forall a, In a els -> lookup a (heap m') = None)
    /\ (forall a, ~ In a els -> lookup a (heap m') = lookup a (heap m))
    /\ list_holds m' l []
    /\ (forall l', l' <> l -> header_of l' m' = header_of l' m).
Proof.
  intros Hl [Hseg Hnd] Hlen.
  destruct (free_loop_drains Hseg Hnd Hlen) as (m' & Hrun & Hfreed & Hkept & Hhdr).
  exists (clear_list l m').
  assert (E : free_buffer_list l fuel m = Ok (clear_list l m')).
  { destruct l; try (now elim Hl);
      unfold free_buffer_list, free_arith_buffer_list, free_bvarith_buffer_list,
        free_bvlogic_buffer_list; simpl header_of in Hrun; now rewrite Hrun. }
  split; [exact E|].
  rewrite heap_clear_list.
  split; [exact Hfreed|]. split; [exact Hkept|]. split.
  - split; [|constructor]. rewrite header_of_clear_list_same. constructor.
  - intros l' Hl'. rewrite header_of_clear_list_other by exact Hl'. apply Hhdr.
Qed.

Lemma free_buffer_list_drains_witness :
  list_holds (snd (alloc_buffer ArithList (snd (alloc_buffer ArithList yices_init))))
             ArithList [1; 0]
  /\ exists m',
       free_arith_buffer_list 2
         (snd (alloc_buffer ArithList (snd (alloc_buffer ArithList yices_init))))
       = Ok m'
       /\ list_holds m' ArithList [].
Proof.
  assert (H : list_holds
                (snd (alloc_buffer ArithList (snd (alloc_buffer ArithList yices_init))))
                ArithList [1; 0]).
  { split.
    - eapply lseg_cons; [reflexivity|].
      eapply lseg_cons; [reflexivity|]. apply lseg_nil.
    - repeat constructor; simpl; intuition discriminate. }
  split; [exact H|].
  assert (Hn : ArithList <> BvArith64List) by discriminate.
  assert (Hf : length [1; 0] <= 2) by (simpl; lia).
  destruct (free_buffer_list_drains Hn H Hf) as (m' & Hrun & _ & _ & He & _).
  exists m'. split; [exact Hrun | exact He].
Defined.

(** ** Allocation *)

(** The successor of an element, which is all that a walk along
    [next] reads. *)
Definition next_of (m : pool) (a : nat) : option ptr :=
  option_map next (lookup a (heap m)).

Lemma lseg_ext m m' p els q :
  (forall b, In b els -> next_of m' b = next_of m b) ->
  lseg m p els q -> lseg m' p els q.
Proof.
  intros Hext H. induction H as [p|a d l q Ha Hl IH].
  - constructor.
  - assert (Hn : next_of m' a = next_of m a) by (apply Hext; now left).
    unfold next_of in Hn. rewrite Ha in Hn. simpl in Hn.
    destruct (lookup a (heap m')) as [d'|] eqn:E; [|discriminate].
    simpl in Hn. inversion Hn as [Hd].
    eapply lseg_cons; [exact E|]. rewrite Hd. apply IH.
    intros b Hb. apply Hext. now right.
Qed.

(** Addresses are handed out in increasing order: every live element
    lies below [brk]. *)
Definition heap_fresh (m : pool) : Prop :=
  forall a d, lookup a (heap m) = Some d -> a < brk m.

Lemma lseg_below m p els q :
  heap_fresh m -> lseg m p els q -> forall a, In a els -> a < brk m.
Proof.
  intros Hf H. induction H as [p|a d l q Ha Hl IH]; intros b Hb.
  - destruct Hb.
  - destruct Hb as [<-|Hb]; [exact (Hf _ _ Ha) | now apply IH].
Qed.

Lemma lseg_start m p els q :
  lseg m p els q -> p = q \/ exists a, p = Elem a.
Proof. intros H. destruct H; [now left | right; now eexists]. Qed.

Lemma lookup_cons_remove a b d h :
  lookup b ((a, d) :: remove a h) = if Nat.eqb b a then Some d else lookup b h.
Proof.
  simpl. destruct (Nat.eqb_spec b a) as [->|Hne]; [reflexivity|].
  now apply lookup_remove_neq.
Qed.

Lemma next_of_store_elem a d m x :
  next_of (store (Elem a) d m) x
  = if Nat.eqb x a then Some (next d) else next_of m x.
Proof.
  unfold next_of, store. destruct m; simpl heap at 1. unfold set_heap; simpl.
  destruct (Nat.eqb_spec x a) as [->|Hne]; [reflexivity|].
  now rewrite lookup_remove_neq.
Qed.

Lemma next_of_store_header l d m x : next_of (store (Header l) d m) x = next_of m x.
Proof. unfold next_of. now destruct l. Qed.

Lemma header_of_store_elem a d m l : header_of l (store (Elem a) d m) = header_of l m.
Proof. now destruct l. Qed.

Lemma header_of_store_header l d m l' :
  header_of l' (store (Header l) d m) = if list_id_eqb l' l then d else header_of l' m.
Proof. now destruct l, l'. Qed.

Lemma brk_store p d m : brk (store p d m) = brk m.
Proof. destruct p as [l|a]; [now destruct l | reflexivity]. Qed.

Lemma list_id_eqb_refl l : list_id_eqb l l = true.
Proof. now destruct l. Qed.

Lemma list_id_eqb_neq l l' : l' <> l -> list_id_eqb l' l = false.
Proof. destruct l, l'; intros H; try reflexivity; now elim H. Qed.

(** What [alloc_buffer] does to the links, when the list starts at
    its own header or at an element. *)
Lemma alloc_buffer_links l m :
  next (header_of l m) = Header l \/ (exists b, next (header_of l m) = Elem b) ->
  let m' := snd (alloc_buffer l m) in
  fst (alloc_buffer l m) = brk m
  /\ brk m' = S (brk m)
  /\ next (header_of l m') = Elem (brk m)
  /\ next_of m' (brk m) = Some (next (header_of l m))
  /\ (forall b, b <> brk m -> next_of m' b = next_of m b)
  /\ (forall l', l' <> l -> header_of l' m' = header_of l' m).
Proof.
  intros Hn. unfold alloc_buffer.
  set (m1 := snd (safe_malloc m)).
  assert (Hm1 : safe_malloc m = (brk m, m1)) by reflexivity.
  rewrite Hm1. cbv zeta. cbn [fst snd].
  assert (Hh1 : forall l0, header_of l0 m1 = header_of l0 m) by (now intros []).
  assert (Hx1 : forall x, x <> brk m -> next_of m1 x = next_of m x).
  { intros x Hx. unfold next_of, m1. simpl.
    destruct (Nat.eqb_spec x (brk m)); [contradiction | reflexivity]. }
  assert (Hb1 : brk m1 = S (brk m)) by reflexivity.
  unfold list_insert_next. cbn [load]. rewrite Hh1.
  set (n := next (header_of l m)) in *.
  set (m2 := store (Elem (brk m)) (mk_dl n (Header l)) m1).
  assert (Hh2 : forall l0, header_of l0 m2 = header_of l0 m).
  { intros l0. unfold m2. now rewrite header_of_store_elem. }
  destruct Hn as [Hn | [b Hn]]; rewrite Hn.
  - (* the list is empty: [n] is the header itself *)
    cbn [load]. rewrite Hh2.
    set (m3 := store (Header l) _ m2).
    assert (Hh3 : header_of l m3 = mk_dl (next (header_of l m)) (Elem (brk m))).
    { unfold m3. now rewrite header_of_store_header, list_id_eqb_refl. }
    rewrite Hh3. split; [reflexivity|].
    split; [unfold m3, m2; now rewrite !brk_store|].
    split; [now rewrite header_of_store_header, list_id_eqb_refl|].
    split.
    + unfold m3. rewrite !next_of_store_header. unfold m2.
      rewrite next_of_store_elem, Nat.eqb_refl. simpl. congruence.
    + split.
      * intros x Hx. unfold m3. rewrite !next_of_store_header. unfold m2.
        rewrite next_of_store_elem.
        destruct (Nat.eqb_spec x (brk m)); [contradiction | now apply Hx1].
      * intros l' Hl'. rewrite header_of_store_header, list_id_eqb_neq by exact Hl'.
        unfold m3. rewrite header_of_store_header, list_id_eqb_neq by exact Hl'.
        apply Hh2.
  - (* the list starts at the element [b] *)
    cbn [load].
    set (m3 := match lookup b (heap m2) with
               | Some dn => store (Elem b) (mk_dl (next dn) (Elem (brk m))) m2
               | None => m2
               end).
    assert (Hh3 : forall l0, header_of l0 m3 = header_of l0 m).
    { intros l0. unfold m3. destruct (lookup b (heap m2));
        [rewrite header_of_store_elem|]; apply Hh2. }
    assert (Hx3 : forall x, next_of m3 x = next_of m2 x).
    { intros x. unfold m3. destruct (lookup b (heap m2)) as [dn|] eqn:E; [|reflexivity].
      rewrite next_of_store_elem. destruct (Nat.eqb_spec x b) as [->|]; [|reflexivity].
      unfold next_of. now rewrite E. }
    assert (Hb3 : brk m3 = S (brk m)).
    { unfold m3. destruct (lookup b (heap m2)); [rewrite brk_store|]; reflexivity. }
    rewrite Hh3. split; [reflexivity|].
    split; [now rewrite brk_store, Hb3|].
    split; [now rewrite header_of_store_header, list_id_eqb_refl|].
    split.
    + rewrite next_of_store_header, Hx3. unfold m2.
      rewrite next_of_store_elem, Nat.eqb_refl. simpl. congruence.
    + split.
      * intros x Hx. rewrite next_of_store_header, Hx3. unfold m2.
        rewrite next_of_store_elem.
        destruct (Nat.eqb_spec x (brk m)); [contradiction | now apply Hx1].
      * intros l' Hl'. rewrite header_of_store_header, list_id_eqb_neq by exact Hl'.
        apply Hh3.
Qed.

Lemma lookup_next_of m a d : lookup a (heap m) = Some d -> next_of m a = Some (next d).
Proof. intros H. unfold next_of. now rewrite H. Qed.

Lemma next_of_lookup m a : next_of m a <> None -> exists d, lookup a (heap m) = Some d.
Proof.
  unfold next_of. destruct (lookup a (heap m)) as [d|]; [now exists d | now intros []].
Qed.

Lemma list_holds_start m l els :
  list_holds m l els ->
  next (header_of l m) = Header l \/ (exists b, next (header_of l m) = Elem b).
Proof. intros [H _]. exact (lseg_start H). Qed.

(** One allocation, on a pool whose addresses are below [brk]. *)
Lemma alloc_buffer_front l m els :
  heap_fresh m -> list_holds m l els ->
  fst (alloc_buffer l m) = brk m
  /\ list_holds (snd (alloc_buffer l m)) l (brk m :: els)
  /\ heap_fresh (snd (alloc_buffer l m))
  /\ (forall l' els', l' <> l -> list_holds m l' els' ->
                      list_holds (snd (alloc_buffer l m)) l' els').
Proof.
  intros Hf Hl.
  destruct (@alloc_buffer_links l m (list_holds_start Hl))
    as (Ha & Hb & Hh & Hnew & Hold & Hoth).
  destruct Hl as [Hseg Hnd].
  assert (Hbelow : forall a, In a els -> a <> brk m).
  { intros a Hin. pose proof (lseg_below Hf Hseg a Hin). lia. }
  split; [exact Ha|]. split; [|split].
  - split.
    + rewrite Hh.
      destruct (@next_of_lookup (snd (alloc_buffer l m)) (brk m)) as [d Hd].
      { rewrite Hnew. discriminate. }
      eapply lseg_cons; [exact Hd|].
      pose proof (@lookup_next_of _ _ _ Hd) as Hd'. rewrite Hnew in Hd'.
      assert (E : next d = next (header_of l m)) by congruence. rewrite E.
      apply lseg_ext with (m := m); [|exact Hseg].
      intros b Hb'. apply Hold. now apply Hbelow.
    + constructor; [|exact Hnd]. intros Hin. now apply (Hbelow _ Hin).
  - intros a d Hd. rewrite Hb.
    destruct (Nat.eq_dec a (brk m)) as [->|Hne]; [lia|].
    pose proof (@lookup_next_of _ _ _ Hd) as Hd'. rewrite Hold in Hd' by exact Hne.
    destruct (@next_of_lookup m a) as [d0 Hd0].
    { rewrite Hd'. discriminate. }
    pose proof (Hf _ _ Hd0). lia.
  - intros l' els' Hl' [Hseg' Hnd']. split; [|exact Hnd'].
    rewrite Hoth by exact Hl'.
    apply lseg_ext with (m := m); [|exact Hseg'].
    intros b Hb'. apply Hold.
    pose proof (lseg_below Hf Hseg' b Hb'). lia.
Qed.

(** [alloc_arith_buffer] and its three siblings: the new element is
    put at the front of its list, which stays well formed; the other
    lists keep their elements; addresses stay below [brk]. *)
Theorem alloc_buffer_pushes_front l m els :
  heap_fresh m -> list_holds m l els ->
  fst (alloc_buffer l m) = brk m
  /\ list_holds (snd (alloc_buffer l m)) l (brk m :: els)
  /\ heap_fresh (snd (alloc_buffer l m))
  /\ (forall l' els', l' <> l -> list_holds m l' els' ->
                      list_holds (snd (alloc_buffer l m)) l' els').
Proof. exact (@alloc_buffer_front l m els). Qed.

Lemma heap_fresh_init : heap_fresh yices_init.
Proof. intros a d H. discriminate. Qed.

Lemma list_holds_init l : list_holds yices_init l [].
Proof. split; [destruct l; constructor | constructor]. Qed.

Lemma alloc_buffer_pushes_front_witness :
  heap_fresh yices_init
  /\ list_holds yices_init BvLogicList []
  /\ list_holds (snd (alloc_buffer BvLogicList yices_init)) BvLogicList [0]
  /\ list_holds (snd (alloc_buffer BvLogicList yices_init)) ArithList [].
Proof.
  pose proof heap_fresh_init as Hf.
  pose proof (list_holds_init BvLogicList) as Hl.
  destruct (alloc_buffer_pushes_front Hf Hl) as (_ & Hnew & _ & Hoth).
  split; [exact Hf|]. split; [exact Hl|]. split; [exact Hnew|].
  apply Hoth; [discriminate | apply list_holds_init].
Defined.

(** ** The pools that allocations reach *)

Inductive reachable : pool -> Prop :=
| reach_init : reachable yices_init
| reach_alloc l m : reachable m -> reachable (snd (alloc_buffer l m)).

(** The elements of the four lists of a pool. *)
Definition contents (m : pool) (f : list_id -> list nat) : Prop :=
  (forall l, list_holds m l (f l))
  /\ (forall l l' a, l <> l' -> In a (f l) -> ~ In a (f l')).

Definition list_id_eq_dec (x y : list_id) : {x = y} + {x <> y}.
Proof. decide equality. Defined.

Lemma brk_list_insert_next l e m : brk (list_insert_next l e m) = brk m.
Proof.
  unfold list_insert_next. destruct (load l m) as [dl|]; [|reflexivity].
  destruct (load (next dl) (store e (mk_dl (next dl) l) m)) as [dn|].
  - destruct (load l _); now rewrite ?brk_store.
  - destruct (load l _); now rewrite ?brk_store.
Qed.

Lemma brk_alloc_buffer l m : brk (snd (alloc_buffer l m)) = S (brk m).
Proof. unfold alloc_buffer, safe_malloc. cbn [snd]. now rewrite brk_list_insert_next. Qed.

Lemma reachable_contents m :
  reachable m ->
  heap_fresh m
  /\ exists f, contents m f /\ (forall a, a < brk m -> exists l, In a (f l)).
Proof.
  induction 1 as [|l m Hr [Hf [f [[Hall Hdis] Hcov]]]].
  - split; [apply heap_fresh_init|]. exists (fun _ => []).
    split; [split; [apply list_holds_init | intros l l' a _ []]|].
    intros a Ha. simpl in Ha. lia.
  - destruct (alloc_buffer_front Hf (Hall l)) as (_ & Hnew & Hf' & Hoth).
    split; [exact Hf'|].
    exists (fun l0 => if list_id_eq_dec l0 l then brk m :: f l else f l0).
    split; [split|].
    + intros l0. destruct (list_id_eq_dec l0 l) as [->|Hne]; [exact Hnew|].
      apply Hoth; [exact Hne | apply Hall].
    + intros l1 l2 a Hne H1 H2.
      assert (Hb : forall l0, In (brk m) (f l0) -> False).
      { intros l0 Hin. destruct (Hall l0) as [Hseg _].
        pose proof (lseg_below Hf Hseg _ Hin). lia. }
      destruct (list_id_eq_dec l1 l) as [->|N1], (list_id_eq_dec l2 l) as [->|N2].
      * now elim Hne.
      * destruct H1 as [<-|H1]; [exact (Hb _ H2) | exact (Hdis _ _ _ Hne H1 H2)].
      * destruct H2 as [<-|H2]; [exact (Hb _ H1) | exact (Hdis _ _ _ Hne H1 H2)].
      * exact (Hdis _ _ _ Hne H1 H2).
    + intros a Ha. rewrite brk_alloc_buffer in Ha.
      destruct (Nat.eq_dec a (brk m)) as [->|Hne].
      * exists l. destruct (list_id_eq_dec l l); [now left | contradiction].
      * destruct (Hcov a) as [l0 Hl0]; [lia|]. exists l0.
        destruct (list_id_eq_dec l0 l) as [->|]; [now right | exact Hl0].
Qed.

(** The pool after [yices_init] and the allocations [ls], the most
    recent one first. *)
Fixpoint alloc_all (ls : list list_id) : pool :=
  match ls with
  | [] => yices_init
  | l :: ls' => snd (alloc_buffer l (alloc_all ls'))
  end.

(** The buffers allocated for the list [l] in the course of [ls], the
    most recent one first: the allocation number [k] (from 0) returns
    the address [k]. *)
Fixpoint allocated_for (l : list_id) (ls : list list_id) : list nat :=
  match ls with
  | [] => []
  | l' :: ls' =>
      if list_id_eqb l' l then length ls' :: allocated_for l ls'
      else allocated_for l ls'
  end.

Lemma allocated_for_below l ls a : In a (allocated_for l ls) -> a < length ls.
Proof.
  induction ls as [|l' ls IH]; simpl; [intros []|].
  destruct (list_id_eqb l' l); simpl.
  - intros [<-|H]; [lia | specialize (IH H); lia].
  - intros H. specialize (IH H). lia.
Qed.

Lemma In_allocated_for l ls k :
  In k (allocated_for l ls) <-> nth_error (rev ls) k = Some l.
Proof.
  induction ls as [|l' ls IH]; simpl.
  - split; [intros [] | destruct k; discriminate].
  - assert (Hlen : length (rev ls) = length ls) by apply length_rev.
    destruct (Nat.lt_ge_cases k (length ls)) as [Hk|Hk].
    + rewrite nth_error_app1 by lia. rewrite <- IH.
      destruct (list_id_eqb l' l); simpl; [|reflexivity].
      split; [intros [E|H]; [lia | exact H] | intros H; now right].
    + rewrite nth_error_app2 by lia. rewrite Hlen.
      split.
      * intros H.
        assert (Hin : k = length ls /\ list_id_eqb l' l = true).
        { destruct (list_id_eqb l' l) eqn:E.
          - destruct H as [E'|H]; [now split|].
            apply allocated_for_below in H. lia.
          - apply allocated_for_below in H. lia. }
        destruct Hin as [-> E]. rewrite Nat.sub_diag. simpl.
        destruct l', l; try discriminate E; reflexivity.
      * intros H. destruct (k - length ls) as [|d] eqn:Ed;
          [|destruct d; discriminate H].
        simpl in H. injection H as ->. rewrite list_id_eqb_refl.
        left. lia.
Qed.

Lemma alloc_all_holds ls :
  heap_fresh (alloc_all ls)
  /\ brk (alloc_all ls) = length ls
  /\ (forall l, list_holds (alloc_all ls) l (allocated_for l ls)).
Proof.
  induction ls as [|l0 ls (Hf & Hb & Hall)]; cbn [alloc_all allocated_for length].
  - split; [apply heap_fresh_init|]. split; [reflexivity|].
    intros l. apply list_holds_init.
  - destruct (@alloc_buffer_front l0 (alloc_all ls) _ Hf (Hall l0))
      as (_ & Hnew & Hf' & Hoth).
    split; [exact Hf'|]. split; [rewrite brk_alloc_buffer; lia|].
    intros l. destruct (list_id_eqb l0 l) eqn:E.
    + assert (l0 = l) by (destruct l0, l; try discriminate E; reflexivity).
      subst l0. rewrite <- Hb. exact Hnew.
    + apply Hoth; [|apply Hall]. intros ->. rewrite list_id_eqb_refl in E.
      discriminate.
Qed.

(** After [yices_init] and any sequence of allocations, every buffer
    is on the list it was allocated for and on no other: the
    allocation number [k] returns the address [k], each of the four
    lists is well formed and holds exactly the buffers allocated for
    it, the most recent one first. *)
Theorem allocated_buffers_are_on_their_list ls :
  reachable (alloc_all ls)
  /\ heap_fresh (alloc_all ls)
  /\ (forall l, fst (alloc_buffer l (alloc_all ls)) = length ls)
  /\ (forall l, list_holds (alloc_all ls) l (allocated_for l ls))
  /\ (forall k l, nth_error (rev ls) k = Some l ->
                  In k (allocated_for l ls)
                  /\ forall l', l' <> l -> ~ In k (allocated_for l' ls)).
Proof.
  destruct (alloc_all_holds ls) as (Hf & Hb & Hall).
  split; [clear; induction ls; cbn [alloc_all]; [apply reach_init | now apply reach_alloc]|].
  split; [exact Hf|]. split; [|split; [exact Hall|]].
  - intros l. destruct (@alloc_buffer_front l (alloc_all ls) _ Hf (Hall l)) as (E & _).
    now rewrite E.
  - intros k l Hk. split; [now apply In_allocated_for|].
    intros l' Hne Hin. apply In_allocated_for in Hin. congruence.
Qed.

Lemma allocated_buffers_are_on_their_list_witness :
  list_holds (alloc_all [ArithList; BvLogicList; ArithList]) ArithList [2; 0]
  /\ list_holds (alloc_all [ArithList; BvLogicList; ArithList]) BvLogicList [1]
  /\ list_holds (alloc_all [ArithList; BvLogicList; ArithList]) BvArithList [].
Proof.
  destruct (allocated_buffers_are_on_their_list [ArithList; BvLogicList; ArithList])
    as (_ & _ & _ & H & _).
  split; [exact (H ArithList)|]. split; [exact (H BvLogicList) | exact (H BvArithList)].
Defined.

(** ** Teardown of a reachable pool *)

Lemma ptr_eqb_elem_header a l : ptr_eqb (Elem a) (Header l) = false.
Proof. reflexivity. Qed.

Lemma free_loop_short ls :
  forall els m p fuel,
    lseg m p els (Header ls) -> NoDup els -> fuel < length els ->
    free_loop (Header ls) fuel p m = Timeout.
Proof.
  induction els as [|a els IH]; intros m p fuel Hseg Hnd Hlen.
  - simpl in Hlen. lia.
  - inversion Hseg as [|a' d els' q Ha Hs]; subst.
    inversion Hnd as [|? ? Hnin Hnd']; subst.
    rewrite free_loop_eq, ptr_eqb_elem_header.
    destruct fuel as [|fuel]; [reflexivity|].
    rewrite Ha. apply IH.
    + now apply lseg_safe_free.
    + exact Hnd'.
    + simpl in Hlen. lia.
Qed.

(** A sibling teardown on a pool with the given contents: with enough
    fuel it gives a pool where the other lists still hold theirs. *)
Lemma free_buffer_list_steps l m f fuel :
  l <> BvArith64List -> contents m f ->
  (fuel < length (f l) /\ free_buffer_list l fuel m = Timeout)
  \/ (length (f l) <= fuel
      /\ exists m', free_buffer_list l fuel m = Ok m'
                    /\ contents m' (fun l0 => if list_id_eq_dec l0 l then [] else f l0)).
Proof.
  intros Hl [Hall Hdis].
  destruct (Nat.lt_ge_cases fuel (length (f l))) as [Hlt|Hge].
  - left. split; [exact Hlt|]. destruct (Hall l) as [Hseg Hnd].
    pose proof (free_loop_short Hseg Hnd Hlt) as Hrun.
    destruct l; try (now elim Hl);
      unfold free_buffer_list, free_arith_buffer_list, free_bvarith_buffer_list,
        free_bvlogic_buffer_list; simpl header_of in Hrun; now rewrite Hrun.
  - right. split; [exact Hge|]. destruct (Hall l) as [Hseg Hnd].
    destruct (free_loop_drains Hseg Hnd Hge) as (m' & Hrun & Hfreed & Hkept & Hhdr).
    exists (clear_list l m'). split.
    + destruct l; try (now elim Hl);
        unfold free_buffer_list, free_arith_buffer_list, free_bvarith_buffer_list,
          free_bvlogic_buffer_list; simpl header_of in Hrun; now rewrite Hrun.
    + split.
      * intros l0. destruct (list_id_eq_dec l0 l) as [->|Hne].
        -- split; [|constructor]. rewrite header_of_clear_list_same. constructor.
        -- destruct (Hall l0) as [Hseg0 Hnd0]. split; [|exact Hnd0].
           rewrite header_of_clear_list_other, Hhdr by exact Hne.
           apply lseg_ext with (m := m); [|exact Hseg0].
           intros b Hb. unfold next_of. rewrite heap_clear_list.
           rewrite Hkept; [reflexivity|].
           intros Hin. exact (Hdis _ _ _ Hne Hb Hin).
      * intros l1 l2 a Hne H1 H2.
        destruct (list_id_eq_dec l1 l); [destruct H1|].
        destruct (list_id_eq_dec l2 l); [destruct H2|].
        exact (Hdis _ _ _ Hne H1 H2).
Qed.

(** [yices_cleanup] on a reachable pool never returns: with enough
    fuel the lists of logic buffers and of bv-arith buffers are
    drained, then [free_bvarith64_buffer_list] walks past the end of
    its list; the list of arithmetic buffers is never reached.  With
    less fuel a loop is still running. *)
Theorem yices_cleanup_never_completes m :
  reachable m ->
  (forall fuel, yices_cleanup fuel m = Fault \/ yices_cleanup fuel m = Timeout)
  /\ (forall fuel, brk m < fuel -> yices_cleanup fuel m = Fault).
Proof.
  intros Hr. destruct (reachable_contents Hr) as (Hf & f & Hc & _).
  assert (Hlen : forall l, length (f l) <= brk m).
  { intros l. destruct Hc as [Hall _]. destruct (Hall l) as [Hseg Hnd].
    assert (Hincl : incl (f l) (seq 0 (brk m))).
    { intros a Ha. apply in_seq. pose proof (lseg_below Hf Hseg _ Ha). lia. }
    pose proof (NoDup_incl_length Hnd Hincl) as H. now rewrite length_seq in H. }
  assert (Hrun : forall fuel,
             (yices_cleanup fuel m = Fault \/ yices_cleanup fuel m = Timeout)
             /\ (brk m < fuel -> yices_cleanup fuel m = Fault)).
  { intros fuel. unfold yices_cleanup.
    destruct (@free_buffer_list_steps BvLogicList m f fuel) as [[H1 E1]|[H1 (m1 & E1 & C1)]];
      [discriminate | exact Hc | | ].
    { simpl free_buffer_list in E1. rewrite E1. simpl.
      split; [now right|]. intros Hb. pose proof (Hlen BvLogicList). lia. }
    simpl free_buffer_list in E1. rewrite E1. simpl obind.
    set (f1 := fun l0 => if list_id_eq_dec l0 BvLogicList then [] else f l0) in C1.
    assert (Hf1 : forall l, l <> BvLogicList -> f1 l = f l).
    { intros l Hl. unfold f1. destruct (list_id_eq_dec l BvLogicList); [contradiction|].
      reflexivity. }
    destruct (@free_buffer_list_steps BvArithList m1 f1 fuel)
      as [[H2 E2]|[H2 (m2 & E2 & C2)]]; [discriminate | exact C1 | | ].
    { simpl free_buffer_list in E2. rewrite E2. simpl.
      split; [now right|]. intros Hb. rewrite Hf1 in H2 by discriminate.
      pose proof (Hlen BvArithList). lia. }
    simpl free_buffer_list in E2. rewrite E2. simpl obind.
    destruct C2 as [Hall2 _]. destruct (Hall2 BvArith64List) as [Hseg3 Hnd3].
    simpl in Hseg3, Hnd3. rewrite Hf1 in Hseg3, Hnd3 by discriminate.
    unfold free_bvarith64_buffer_list.
    rewrite (@free_loop_wrong_sentinel BvArithList BvArith64List) with (els := f BvArith64List);
      [| discriminate | exact Hseg3 | exact Hnd3].
    destruct (Nat.ltb_spec (length (f BvArith64List)) fuel) as [H3|H3]; simpl.
    - split; [now left | reflexivity].
    - split; [now right|]. intros Hb. pose proof (Hlen BvArith64List). lia. }
  split; intros fuel; apply Hrun.
Qed.

Lemma yices_cleanup_never_completes_witness :
  reachable (snd (alloc_buffer BvLogicList (snd (alloc_buffer ArithList yices_init))))
  /\ yices_cleanup 3
       (snd (alloc_buffer BvLogicList (snd (alloc_buffer ArithList yices_init))))
     = Fault.
Proof.
  assert (H : reachable
                (snd (alloc_buffer BvLogicList (snd (alloc_buffer ArithList yices_init)))))
    by (apply reach_alloc, reach_alloc, reach_init).
  split; [exact H|].
  destruct (yices_cleanup_never_completes H) as [_ Hfault].
  apply Hfault. simpl. lia.
Defined.
End BufferPoolProps.

(* ================================================================== *)
(** * Further properties of the term constructors                      *)
(* ================================================================== *)

Module ApiProps.

Import Tables Api.
Local Open Scope Z_scope.

Section WithPlatform.

Variable P : platform.

(** ** Negation and the binary connectives *)

Lemma yices_not_valid s t :
  good_term (terms s) t = true -> is_boolean_term (terms s) t = true ->
  yices_not t s = (opposite_term t, s).
Proof.
  intros Hg Hb. unfold yices_not.
  rewrite guarded_pass
    with (v := fun s => good_term (terms s) t && is_boolean_term (terms s) t).
  - now rewrite mk_not_flips.
  - apply checks_and; [apply checks_good_term | apply checks_boolean_term].
  - now rewrite Hg, Hb.
Qed.

(** [yices_not] is an involution on the valid boolean terms: negating
    twice gives back the handle one started from, and the state. *)
Theorem yices_not_involutive s t :
  good_term (terms s) t = true -> is_boolean_term (terms s) t = true ->
  yices_not (fst (yices_not t s)) (snd (yices_not t s)) = (t, s).
Proof.
  intros Hg Hb. rewrite (@yices_not_valid s t Hg Hb). cbn [fst snd].
  rewrite yices_not_valid.
  - now rewrite opposite_term_involutive.
  - now apply good_term_opposite.
  - now rewrite is_boolean_term_opposite.
Qed.

Lemma two_booleans_opposite s t :
  good_term (terms s) t = true -> is_boolean_term (terms s) t = true ->
  two_booleans t t s = true /\ two_booleans t (opposite_term t) s = true.
Proof.
  intros Hg Hb. unfold two_booleans.
  rewrite (@good_term_opposite (terms s) t Hg Hb), is_boolean_term_opposite, Hg, Hb.
  now split.
Qed.

Lemma opposite_bool_terms_self tbl t :
  entry_of tbl t <> None -> opposite_bool_terms tbl t (opposite_term t) = true.
Proof.
  intros He. rewrite opposite_bool_terms_eq.
  - apply Z.eqb_refl.
  - exact He.
  - now rewrite entry_of_opposite.
Qed.

Lemma eqb_opposite t : (t =? opposite_term t) = false.
Proof.
  apply Z.eqb_neq. intros E. symmetry in E. exact (@opposite_term_neq t E).
Qed.

(** The binary connectives on an argument paired with itself or with
    its negation: no node is built and the law of the connective is
    returned. *)
Theorem binary_connectives_on_related_arguments s t :
  2 <= YICES_MAX_ARITY P ->
  good_term (terms s) t = true -> is_boolean_term (terms s) t = true ->
  yices_or P 2 [t; t] s = (t, s)
  /\ yices_and P 2 [t; t] s = (t, s)
  /\ yices_or P 2 [t; opposite_term t] s = (true_term, s)
  /\ yices_and P 2 [t; opposite_term t] s = (false_term, s)
  /\ yices_xor t t s = (false_term, s)
  /\ yices_xor t (opposite_term t) s = (true_term, s)
  /\ yices_iff t t s = (true_term, s)
  /\ yices_iff t (opposite_term t) s = (false_term, s)
  /\ yices_implies t t s = (true_term, s)
  /\ yices_implies t (opposite_term t) s = (opposite_term t, s).
Proof.
  intros Hmax Hg Hb.
  destruct (@two_booleans_opposite s t Hg Hb) as [Htt Hto].
  pose proof (@good_term_entry (terms s) t Hg) as He.
  pose proof (@opposite_bool_terms_self (terms s) t He) as Hopp.
  pose proof (@good_term_opposite (terms s) t Hg Hb) as Hgo.
  assert (Hbo : is_boolean_term (terms s) (opposite_term t) = true)
    by now rewrite is_boolean_term_opposite.
  assert (Hc : forall u, good_term (terms s) u = true ->
                         is_boolean_term (terms s) u = true ->
                         good_connective P 2 [t; u] s = true).
  { intros u Hu Hbu. unfold good_connective. simpl.
    rewrite Hg, Hb, Hu, Hbu.
    assert (E : (2 >? YICES_MAX_ARITY P) = false)
      by (rewrite Z.gtb_ltb; apply Z.ltb_ge; exact Hmax).
    now rewrite E. }
  assert (Hchk : forall n a,
             checks (check_nonneg n &&& check_arity P n &&& check_good_terms n a
                     &&& check_boolean_args n a) (good_connective P n a)).
  { intros n a. unfold good_connective. repeat apply checks_and.
    - apply checks_nonneg.
    - apply checks_arity.
    - apply checks_good_terms.
    - apply checks_boolean_args. }
  assert (Ht : t = true_term \/ t = false_term
               \/ (t <> true_term /\ t <> false_term
                   /\ opposite_term t <> true_term /\ opposite_term t <> false_term)).
  { destruct (Z.eq_dec t true_term) as [->|N1]; [now left|].
    destruct (Z.eq_dec t false_term) as [->|N2]; [right; now left|].
    right; right. repeat split; try assumption.
    - intros E. apply N2. rewrite <- (opposite_term_involutive t), E. reflexivity.
    - intros E. apply N1. rewrite <- (opposite_term_involutive t), E. reflexivity. }
  unfold yices_or, yices_and, yices_xor, yices_iff, yices_implies.
  rewrite !(guarded_pass _ s (Hchk 2 [t; t]) (Hc t Hg Hb)).
  rewrite !(guarded_pass _ s (Hchk 2 [t; opposite_term t]) (Hc _ Hgo Hbo)).
  rewrite !(guarded_pass _ s (checks_two_booleans t t) Htt).
  rewrite !(guarded_pass _ s (checks_two_booleans t (opposite_term t)) Hto).
  unfold on_terms, mk_binary_or, mk_binary_and, mk_xor, mk_iff, mk_implies.
  cbn [nth]. rewrite !Z.eqb_refl, !eqb_opposite, !Hopp, !bool_negate_flips, !mk_not_flips.
  destruct Ht as [->|[->|(N1 & N2 & N3 & N4)]].
  - repeat split; now destruct s.
  - repeat split; now destruct s.
  - apply Z.eqb_neq in N1, N2, N3, N4. rewrite ?N1, ?N2, ?N3, ?N4.
    repeat split; now destruct s.
Qed.

(** ** The n-ary connectives *)

Lemma checks_connective n a :
  checks (check_nonneg n &&& check_arity P n &&& check_good_terms n a
          &&& check_boolean_args n a) (good_connective P n a).
Proof.
  unfold good_connective. repeat apply checks_and.
  - apply checks_nonneg.
  - apply checks_arity.
  - apply checks_good_terms.
  - apply checks_boolean_args.
Qed.

Lemma match_arity_default (A : Type) (n : Z) (a b c d : A) :
  3 <= n ->
  match n with 0 => a | 1 => b | 2 => c | _ => d end = d.
Proof. intros H. destruct n as [|[[p|p|]|[p|p|]|]|p]; try lia; reflexivity. Qed.

Lemma opposite_even e : Z.even e = true -> opposite_term e = e + 1.
Proof.
  intros H. unfold opposite_term. rewrite lxor_1.
  rewrite <- Z.negb_even, H. reflexivity.
Qed.

(** In a sorted array of live handles that holds a term and its
    negation, the scan of [mk_or] meets them side by side and stops
    with [true_term]. *)
Lemma mk_or_scan_complementary tbl e :
  Z.even e = true ->
  forall rest cur kept,
    StronglySorted Z.le (cur :: rest) ->
    (forall y, In y (cur :: rest) -> entry_of tbl y <> None) ->
    e = cur \/ In e rest -> In (e + 1) rest ->
    mk_or_scan tbl cur kept rest = None.
Proof.
  intros Hev. induction rest as [|y rest IH]; intros cur kept Hs Hlive He Ho.
  - destruct Ho.
  - apply StronglySorted_inv in Hs. destruct Hs as [Hs Hall].
    pose proof Hs as Hs'. apply StronglySorted_inv in Hs'. destruct Hs' as [Hs' Hally].
    inversion Hall as [|? ? Hcy Hall']; subst.
    rewrite Forall_forall in Hall', Hally.
    simpl. destruct (Z.eqb_spec cur y) as [<-|Hne].
    + apply IH.
      * constructor; [exact Hs' | now apply Forall_forall].
      * intros z Hz. apply Hlive. destruct Hz as [<-|Hz]; [now left | right; now right].
      * destruct He as [He|[He|He]]; [now left | now left | now right].
      * destruct Ho as [Ho|Ho]; [|exact Ho]. exfalso.
        destruct He as [He|[He|He]]; [lia | lia |].
        pose proof (Hally _ He). lia.
    + destruct (y =? true_term); [reflexivity|]. simpl.
      rewrite opposite_bool_terms_eq;
        [| apply Hlive; now left | apply Hlive; right; now left].
      destruct (Z.eqb_spec y (opposite_term cur)) as [|Hno]; [reflexivity|].
      apply IH.
      * exact Hs.
      * intros z Hz. apply Hlive. now right.
      * destruct He as [He|He];
          [| destruct He as [He|He]; [left; now symmetry | now right]].
        exfalso. subst cur.
        rewrite (@opposite_even e Hev) in Hno.
        destruct Ho as [Ho|Ho]; [now apply Hno|].
        pose proof (Hally _ Ho). lia.
      * destruct Ho as [Ho|Ho]; [|exact Ho]. exfalso.
        destruct He as [He|[He|He]]; [| lia |].
        -- subst cur. rewrite (@opposite_even e Hev) in Hno. now apply Hno.
        -- pose proof (Hally _ He). lia.
Qed.

Lemma mk_and_scan_complementary tbl e :
  Z.even e = true ->
  forall rest cur kept,
    StronglySorted Z.le (cur :: rest) ->
    (forall y, In y (cur :: rest) -> entry_of tbl y <> None) ->
    e = cur \/ In e rest -> In (e + 1) rest ->
    mk_and_scan tbl cur kept rest = None.
Proof.
  intros Hev. induction rest as [|y rest IH]; intros cur kept Hs Hlive He Ho.
  - destruct Ho.
  - apply StronglySorted_inv in Hs. destruct Hs as [Hs Hall].
    pose proof Hs as Hs'. apply StronglySorted_inv in Hs'. destruct Hs' as [Hs' Hally].
    inversion Hall as [|? ? Hcy Hall']; subst.
    rewrite Forall_forall in Hall', Hally.
    simpl. destruct (Z.eqb_spec cur y) as [<-|Hne].
    + apply IH.
      * constructor; [exact Hs' | now apply Forall_forall].
      * intros z Hz. apply Hlive. destruct Hz as [<-|Hz]; [now left | right; now right].
      * destruct He as [He|[He|He]]; [now left | now left | now right].
      * destruct Ho as [Ho|Ho]; [|exact Ho]. exfalso.
        destruct He as [He|[He|He]]; [lia | lia |].
        pose proof (Hally _ He). lia.
    + destruct (y =? false_term); [reflexivity|]. simpl.
      rewrite opposite_bool_terms_eq;
        [| apply Hlive; now left | apply Hlive; right; now left].
      destruct (Z.eqb_spec y (opposite_term cur)) as [|Hno]; [reflexivity|].
      apply IH.
      * exact Hs.
      * intros z Hz. apply Hlive. now right.
      * destruct He as [He|He];
          [| destruct He as [He|He]; [left; now symmetry | now right]].
        exfalso. subst cur.
        rewrite (@opposite_even e Hev) in Hno.
        destruct Ho as [Ho|Ho]; [now apply Hno|].
        pose proof (Hally _ Ho). lia.
      * destruct Ho as [Ho|Ho]; [|exact Ho]. exfalso.
        destruct He as [He|[He|He]]; [| lia |].
        -- subst cur. rewrite (@opposite_even e Hev) in Hno. now apply Hno.
        -- pose proof (Hally _ He). lia.
Qed.

(** A term and its negation, smaller handle first. *)
Lemma complementary_pair x :
  exists e, Z.even e = true
            /\ ((x = e /\ opposite_term x = e + 1) \/ (x = e + 1 /\ opposite_term x = e)).
Proof.
  unfold opposite_term. rewrite lxor_1. destruct (Z.odd x) eqn:E.
  - exists (x - 1). split.
    + rewrite Z.even_sub, <- Z.negb_odd, E. reflexivity.
    + right. split; lia.
  - exists x. split; [now rewrite <- Z.negb_odd, E | left; now split].
Qed.

Lemma mk_binary_or_opposite tbl t :
  entry_of tbl t <> None -> mk_binary_or t (opposite_term t) tbl = (true_term, tbl).
Proof.
  intros He. unfold mk_binary_or.
  rewrite eqb_opposite, (@opposite_bool_terms_self tbl t He).
  destruct (Z.eqb_spec t true_term) as [->|_]; [reflexivity|].
  destruct (Z.eqb_spec (opposite_term t) true_term) as [->|_]; [reflexivity|].
  destruct (Z.eqb_spec t false_term) as [->|_]; [reflexivity|].
  destruct (Z.eqb_spec (opposite_term t) false_term) as [E|_]; [|reflexivity].
  rewrite <- (opposite_term_involutive t), E. reflexivity.
Qed.

Lemma mk_binary_and_opposite tbl t :
  entry_of tbl t <> None -> mk_binary_and t (opposite_term t) tbl = (false_term, tbl).
Proof.
  intros He. unfold mk_binary_and.
  rewrite eqb_opposite, (@opposite_bool_terms_self tbl t He).
  destruct (Z.eqb_spec t true_term) as [->|_]; [reflexivity|].
  destruct (Z.eqb_spec (opposite_term t) true_term) as [E|_].
  { rewrite <- (opposite_term_involutive t), E. reflexivity. }
  destruct (Z.eqb_spec t false_term) as [->|_]; [reflexivity|].
  destruct (Z.eqb_spec (opposite_term t) false_term) as [->|_]; reflexivity.
Qed.

Lemma set_terms_same s : set_terms (terms s) s = s.
Proof. now destruct s. Qed.

Lemma forallb_In (A : Type) (f : A -> bool) l x :
  forallb f l = true -> In x l -> f x = true.
Proof. intros H Hin. rewrite forallb_forall in H. now apply H. Qed.

(** An argument list that holds a term and its negation: whatever
    the other arguments and their order, [yices_or] returns
    [true_term] and [yices_and] returns [false_term], and no node is
    built. *)
Theorem yices_or_and_complementary n arg s x :
  good_connective P n arg s = true ->
  (Z.to_nat n <= length arg)%nat ->
  In x (firstn (Z.to_nat n) arg) ->
  In (opposite_term x) (firstn (Z.to_nat n) arg) ->
  yices_or P n arg s = (true_term, s) /\ yices_and P n arg s = (false_term, s).
Proof.
  intros Hv Hlen Hx Ho.
  unfold yices_or, yices_and.
  rewrite !(guarded_pass _ s (checks_connective n arg) Hv).
  unfold good_connective in Hv.
  apply andb_prop in Hv. destruct Hv as [Hv Hbool].
  apply andb_prop in Hv. destruct Hv as [_ Hgood].
  set (L := firstn (Z.to_nat n) arg) in *.
  assert (HL : length L = Z.to_nat n) by (unfold L; now apply firstn_length_le).
  assert (Hlive : forall y, In y L -> entry_of (terms s) y <> None).
  { intros y Hy. apply good_term_entry. exact (@forallb_In _ _ _ _ Hgood Hy). }
  assert (Hneq : opposite_term x <> x) by apply opposite_term_neq.
  assert (Hn2 : 2 <= n).
  { destruct L as [|a0 [|a1 L']] eqn:EL.
    - destruct Hx.
    - destruct Hx as [<-|[]]. destruct Ho as [Ho|[]]. congruence.
    - simpl in HL. lia. }
  destruct (Z.eq_dec n 2) as [->|Hn3].
  - (* two arguments *)
    destruct arg as [|a0 [|a1 arg']]; [simpl in Hlen; lia | simpl in Hlen; lia|].
    cbn [nth]. unfold L in *. simpl in Hx, Ho, Hlive.
    assert (E : a1 = opposite_term a0).
    { destruct Hx as [<-|[<-|[]]], Ho as [Ho|[Ho|[]]]; try congruence.
      rewrite Ho. now rewrite opposite_term_involutive. }
    subst a1. unfold on_terms.
    rewrite mk_binary_or_opposite, mk_binary_and_opposite by (apply Hlive; now left).
    now rewrite set_terms_same.
  - (* three arguments or more *)
    rewrite !match_arity_default by lia.
    unfold on_terms, mk_or, mk_and, sort_bool_terms. fold L.
    pose proof (int_array_sort_perm L) as Hperm.
    pose proof (int_array_sort_sorted L) as Hsort.
    destruct (complementary_pair x) as (e & Hev & Hpair).
    assert (He : In e (int_array_sort L) /\ In (e + 1) (int_array_sort L)).
    { destruct Hpair as [[E1 E2]|[E1 E2]]; rewrite E2 in Ho; rewrite E1 in Hx;
        split; eapply Permutation_in; eauto. }
    destruct He as [He Ho'].
    assert (Hlive' : forall y, In y (int_array_sort L) -> entry_of (terms s) y <> None).
    { intros y Hy. apply Hlive. eapply Permutation_in; [symmetry; exact Hperm | exact Hy]. }
    destruct (int_array_sort L) as [|x0 rest]; [destruct He|].
    cbn [hd tl].
    assert (Hrest : (e = x0 \/ In e rest) /\ In (e + 1) rest).
    { apply StronglySorted_inv in Hsort. destruct Hsort as [_ Hall].
      rewrite Forall_forall in Hall.
      split.
      - destruct He as [He|He]; [left; now symmetry | now right].
      - destruct Ho' as [Ho'|Ho']; [|exact Ho']. exfalso.
        destruct He as [He|He]; [lia|]. pose proof (Hall _ He). lia. }
    destruct Hrest as [He' Ho''].
    rewrite (@mk_or_scan_complementary (terms s) e Hev rest x0 _ Hsort Hlive' He' Ho'').
    rewrite (@mk_and_scan_complementary (terms s) e Hev rest x0 _ Hsort Hlive' He' Ho'').
    destruct (x0 =? true_term), (x0 =? false_term); now rewrite set_terms_same.
Qed.

(** A sorted array is determined by its elements. *)
Lemma sorted_perm_eq (l1 : list Z) :
  forall l2, StronglySorted Z.le l1 -> StronglySorted Z.le l2 ->
             Permutation l1 l2 -> l1 = l2.
Proof.
  induction l1 as [|a l1 IH]; intros l2 H1 H2 Hp.
  - apply Permutation_nil in Hp. now subst.
  - destruct l2 as [|b l2]; [symmetry in Hp; now apply Permutation_nil in Hp|].
    apply StronglySorted_inv in H1. destruct H1 as [H1 F1].
    apply StronglySorted_inv in H2. destruct H2 as [H2 F2].
    rewrite Forall_forall in F1, F2.
    assert (Hab : a = b).
    { assert (Ha : In a (b :: l2)) by (eapply Permutation_in; [exact Hp | now left]).
      assert (Hb : In b (a :: l1))
        by (eapply Permutation_in; [symmetry; exact Hp | now left]).
      destruct Ha as [Ha|Ha]; [now symmetry|].
      destruct Hb as [Hb|Hb]; [exact Hb|].
      pose proof (F1 _ Hb). pose proof (F2 _ Ha). lia. }
    subst b. f_equal. apply IH; [exact H1 | exact H2 |].
    now apply Permutation_cons_inv in Hp.
Qed.

Lemma int_array_sort_permutation l1 l2 :
  Permutation l1 l2 -> int_array_sort l1 = int_array_sort l2.
Proof.
  intros Hp. apply sorted_perm_eq; try apply int_array_sort_sorted.
  rewrite <- (int_array_sort_perm l1), <- (int_array_sort_perm l2). exact Hp.
Qed.

Lemma forallb_permutation (A : Type) (f : A -> bool) l1 l2 :
  Permutation l1 l2 -> forallb f l1 = forallb f l2.
Proof.
  induction 1 as [|x l l' _ IH|x y l|l l' l'' _ IH1 _ IH2]; simpl.
  - reflexivity.
  - now rewrite IH.
  - destruct (f x), (f y); reflexivity.
  - now rewrite IH1.
Qed.

Lemma good_connective_permutation n a b s :
  Permutation (firstn (Z.to_nat n) a) (firstn (Z.to_nat n) b) ->
  good_connective P n a s = good_connective P n b s.
Proof.
  intros Hp. unfold good_connective.
  now rewrite !(forallb_permutation _ Hp).
Qed.

(** [yices_or] and [yices_and] do not depend on the order of their
    arguments: two valid argument arrays with the same elements give
    the same term and the same state. *)
Theorem yices_or_and_permutation n a b s :
  good_connective P n a s = true ->
  (Z.to_nat n <= length a)%nat -> (Z.to_nat n <= length b)%nat ->
  Permutation (firstn (Z.to_nat n) a) (firstn (Z.to_nat n) b) ->
  yices_or P n a s = yices_or P n b s /\ yices_and P n a s = yices_and P n b s.
Proof.
  intros Hv Ha Hb Hp.
  assert (Hv' : good_connective P n b s = true)
    by (now rewrite <- (good_connective_permutation n a b s Hp)).
  unfold yices_or, yices_and.
  rewrite !(guarded_pass _ s (checks_connective n a) Hv).
  rewrite !(guarded_pass _ s (checks_connective n b) Hv').
  assert (Hn : n <= 0 \/ n = 1 \/ n = 2 \/ 3 <= n) by lia.
  destruct Hn as [Hn|[->|[->|Hn]]].
  - destruct n as [|p|p]; try lia; [now split|].
    unfold good_connective in Hv. simpl in Hv. discriminate.
  - destruct a as [|a0 a]; [simpl in Ha; lia|].
    destruct b as [|b0 b]; [simpl in Hb; lia|].
    simpl in Hp. apply Permutation_length_1 in Hp. subst b0. now split.
  - destruct a as [|a0 [|a1 a]]; [simpl in Ha; lia | simpl in Ha; lia|].
    destruct b as [|b0 [|b1 b]]; [simpl in Hb; lia | simpl in Hb; lia|].
    simpl in Hp. apply Permutation_length_2 in Hp. cbn [nth].
    destruct Hp as [[-> ->]|[-> ->]]; [now split|].
    unfold on_terms. now rewrite mk_binary_or_comm, mk_binary_and_comm.
  - rewrite !match_arity_default by exact Hn.
    unfold on_terms, mk_or, mk_and, sort_bool_terms.
    now rewrite (int_array_sort_permutation Hp).
Qed.

(** ** If-then-else, distinct and the quantifiers on trivial inputs *)

(** [yices_ite] with equal branches or with a constant condition
    returns a branch; nothing is added to the tables. *)
Theorem yices_ite_trivial s c t e :
  good_ite c t e s = true ->
  super_type (types s) (term_type (terms s) t) (term_type (terms s) e) <> NULL_TYPE ->
  (t = e -> yices_ite c t e s = (t, s))
  /\ (c = true_term -> yices_ite c t e s = (t, s))
  /\ (c = false_term -> yices_ite c t e s = (e, s)).
Proof.
  intros Hv Hty. apply Z.eqb_neq in Hty.
  assert (Hbool : forall c t e r,
             (t = e /\ r = t) \/ (c = true_term /\ r = t) \/ (c = false_term /\ r = e) ->
             on_terms (mk_bool_ite c t e) s = (r, s)).
  { clear. intros c t e r Hr. unfold on_terms, mk_bool_ite.
    destruct (Z.eqb_spec t e) as [->|Hne].
    - rewrite set_terms_same. destruct Hr as [[_ ->]|[[_ ->]|[_ ->]]]; reflexivity.
    - destruct Hr as [[E _]|[[-> ->]|[-> ->]]]; [contradiction | |];
        simpl; now rewrite set_terms_same. }
  split; [|split]; intros Hc; unfold yices_ite;
    rewrite (guarded_pass _ s (checks_ite c t e) Hv), Hty;
    destruct (is_boolean_term (terms s) t).
  - apply Hbool. now left.
  - subst e. now rewrite Z.eqb_refl.
  - apply Hbool. right; now left.
  - subst c. now destruct (t =? e).
  - apply Hbool. right; now right.
  - subst c. destruct (Z.eqb_spec t e) as [->|_]; reflexivity.
Qed.

(** [yices_distinct] on a single valid argument is [true_term]. *)
Theorem yices_distinct_singleton arg s :
  good_distinct_term P 1 arg s = true ->
  yices_distinct P 1 arg s = (true_term, s).
Proof.
  intros Hv. unfold yices_distinct. change (1 =? 2) with false. cbv iota.
  change (to_uint32 1) with 1.
  unfold bind at 1. rewrite (@good_distinct_term_checks P 1 arg s Hv).
  reflexivity.
Qed.

(** A quantifier over a constant body is that constant: [yices_forall]
    and [yices_exists] return [true_term] for the body [true_term]
    and [false_term] for the body [false_term], and build nothing. *)
Theorem quantifier_on_constant_body n var body s :
  good_quantified_term P (to_uint32 n) (sorted_vars n var) body s = true ->
  body = true_term \/ body = false_term ->
  yices_forall P n var body s = (body, s) /\ yices_exists P n var body s = (body, s).
Proof.
  intros Hv Hb. unfold yices_forall, yices_exists. fold (sorted_vars n var).
  rewrite !(guarded_pass _ s
              (checks_good_quantified_term P (to_uint32 n) (sorted_vars n var) body) Hv).
  destruct Hb as [->| ->]; split; reflexivity.
Qed.

(** ** The error record (live part of the file)

    [yices_get_error_code] returns [error.code];
    [yices_clear_error] sets [error.code = NO_ERROR]. *)
Definition yices_get_error_code : M error_code_t := fun s => (code (error s), s).

Definition yices_clear_error : M unit :=
  fun s => (tt, set_error (with_code NO_ERROR (error s)) s).

(** The constructors whose body, once the checks have passed, only
    calls the term table. *)
Definition table_only (call : api_call) : bool :=
  match call with
  | Call_constant _ _ | Call_new_uninterpreted_term _ | Call_variable _ _
  | Call_application _ _ _
  | Call_or _ _ | Call_and _ _ | Call_not _
  | Call_xor _ _ | Call_iff _ _ | Call_implies _ _
  | Call_select _ _ | Call_update _ _ _ _
  | Call_forall _ _ _ | Call_exists _ _ _
  | Call_bvoperator _ _ _ | Call_bveq_atom _ _ | Call_bvneq_atom _ _ => true
  | _ => false
  end.

(** Nothing but the term table differs. *)
Definition only_terms (s s' : state) : Prop :=
  types s' = types s /\ error s' = error s /\ buffers s' = buffers s
  /\ internal_arith_buffer s' = internal_arith_buffer s
  /\ internal_bvlogic_buffer s' = internal_bvlogic_buffer s.

Lemma only_terms_refl s : only_terms s s.
Proof. repeat split. Qed.

Lemma only_terms_on_terms A (f : TM A) s : only_terms s (snd (on_terms f s)).
Proof. unfold on_terms. destruct (f (terms s)). repeat split. Qed.

Ltac pass_by lem :=
  match goal with
  | H : _ = true |- _ => rewrite (@guarded_pass _ _ _ _ lem H)
  end.

Ltac pass_by_checks :=
  match goal with
  | H : _ = true |- _ =>
      erewrite guarded_pass;
      [ | repeat apply checks_and;
          first [ apply checks_positive | apply checks_nonneg | apply checks_arity
                | apply checks_good_type | apply checks_good_term
                | apply checks_good_terms | apply checks_boolean_term
                | apply checks_boolean_args | apply checks_arith_term ]
        | exact H ]
  end.

Ltac unfold_table_only :=
  unfold yices_constant, yices_new_uninterpreted_term, yices_variable,
    yices_application, yices_or, yices_and, yices_not,
    yices_xor, yices_iff, yices_implies, yices_select, yices_update,
    yices_forall, yices_exists, yices_bvoperator, yices_bveq_atom, yices_bvneq_atom.

Ltac table_done :=
  repeat first
    [ apply only_terms_refl
    | apply only_terms_on_terms
    | match goal with
      | |- only_terms _ (snd (match ?n with _ => _ end _)) => destruct n
      | |- only_terms _ (snd (if ?b then _ else _)) => destruct b
      end ].

(** A successful call of these constructors changes the term table
    and nothing else.  In particular it does not reset the error
    record: [yices_get_error_code] keeps returning the code of the
    last failure until [yices_clear_error] is called. *)
Theorem successful_call_keeps_error call s :
  table_only call = true -> valid P call s = true ->
  only_terms s (snd (run P call s))
  /\ fst (yices_get_error_code (snd (run P call s))) = fst (yices_get_error_code s)
  /\ fst (yices_get_error_code (snd (yices_clear_error (snd (run P call s))))) = NO_ERROR.
Proof.
  intros Ht H.
  assert (Ho : only_terms s (snd (run P call s))).
  { destruct call; try discriminate Ht; clear Ht; cbn [valid] in H; cbn [run]; unfold_table_only.
    - pass_by (checks_good_constant tau index0). table_done.
    - pass_by_checks. table_done.
    - pass_by_checks. table_done.
    - pass_by (checks_good_application f (to_uint32 n) arg).
      destruct (application_strip _ _ _ _); table_done.
    - pass_by_checks. table_done.
    - pass_by_checks. table_done.
    - pass_by_checks. apply only_terms_refl.
    - pass_by (checks_two_booleans l r). table_done.
    - pass_by (checks_two_booleans l r). table_done.
    - pass_by (checks_two_booleans l r). table_done.
    - pass_by (checks_good_select (to_uint32 i) t).
      destruct (kind_eqb _ _); table_done.
    - pass_by (checks_good_update f (to_uint32 n) arg v). table_done.
    - fold (sorted_vars n var).
      pass_by (checks_good_quantified_term P (to_uint32 n) (sorted_vars n var) body).
      destruct (body =? true_term); [apply only_terms_refl|].
      destruct (body =? false_term); [apply only_terms_refl|]. table_done.
    - fold (sorted_vars n var).
      pass_by (checks_good_quantified_term P (to_uint32 n) (sorted_vars n var) body).
      destruct (body =? true_term); [apply only_terms_refl|].
      destruct (body =? false_term); [apply only_terms_refl|].
      unfold bind. destruct (on_terms _ s) as [r s'] eqn:E.
      change s' with (snd (r, s')). rewrite <- E. table_done.
    - pass_by (checks_compatible_bv_terms t1 t2). unfold bvapply. table_done.
    - pass_by (checks_compatible_bv_terms t1 t2). unfold mk_bveq.
      destruct (t1 =? t2); [apply only_terms_refl|].
      destruct (disequal_bitvector_terms _ _ _); [apply only_terms_refl|].
      destruct (t1 >? t2); table_done.
    - pass_by (checks_compatible_bv_terms t1 t2). unfold mk_bvneq.
      destruct (t1 =? t2); [apply only_terms_refl|].
      destruct (disequal_bitvector_terms _ _ _); [apply only_terms_refl|].
      destruct (t1 >? t2); unfold bind;
        destruct (on_terms _ s) as [r s'] eqn:E;
        change s' with (snd (r, s')); rewrite <- E; table_done. }
  split; [exact Ho|]. split; [|reflexivity].
  unfold yices_get_error_code. cbn [fst].
  destruct Ho as (_ & He & _). now rewrite He.
Qed.

(** ** Type constructors (live part of the file) *)

(** [check_good_types]: are all types in [a[0 ... n-1]] valid? *)
Fixpoint check_good_types_from (i : Z) (a : list type_t) : M bool :=
  match a with
  | [] => ret true
  | tau :: a' =>
      fun s =>
        if bad_type (types s) tau
        then fail_with (fun e => with_index i (with_type1 tau (with_code INVALID_TYPE e))) s
        else check_good_types_from (i + 1) a' s
  end.

Definition check_good_types (n : Z) (a : list type_t) : M bool :=
  check_good_types_from 0 (firstn (Z.to_nat n) a).

(** Modelled from the spec: [function_type] ([types.h], not in the
    sources) hash-conses the descriptor, as [tuple_type] does. *)
Definition function_type (range : type_t) (dom : list type_t) : M type_t :=
  intern_type (Function_desc dom range).

Definition yices_tuple_type (n : Z) (elem : list type_t) : M type_t :=
  ok <- check_positive n &&& check_arity P n &&& check_good_types n elem ;;
  if negb ok then ret NULL_TYPE else tuple_type (firstn (Z.to_nat n) elem).

Definition yices_function_type (n : Z) (dom : list type_t) (range : type_t)
  : M type_t :=
  ok <- check_positive n &&& check_arity P n &&& check_good_type range
        &&& check_good_types n dom ;;
  if negb ok then ret NULL_TYPE else function_type range (firstn (Z.to_nat n) dom).

Lemma checks_good_types_from a :
  forall i, checks (check_good_types_from i a)
                   (fun s => forallb (fun tau => negb (bad_type (types s) tau)) a).
Proof.
  induction a as [|t a IH]; intros i s; simpl.
  - split; [reflexivity | discriminate].
  - destruct (bad_type (types s) t); simpl.
    + split; [discriminate|]. intros _.
      unfold fail_with. repeat split; simpl; discriminate.
    + apply IH.
Qed.

Lemma checks_good_types n a :
  checks (check_good_types n a)
         (fun s => forallb (fun tau => negb (bad_type (types s) tau))
                           (firstn (Z.to_nat n) a)).
Proof. apply checks_good_types_from. Qed.

(** The type constructors that validate their arguments. *)
Inductive type_call : Type :=
| Type_bv (size : Z)
| Type_scalar (card : Z)
| Type_tuple (n : Z) (elem : list type_t)
| Type_function (n : Z) (dom : list type_t) (range : type_t).

Definition run_type (call : type_call) : M type_t :=
  match call with
  | Type_bv size => yices_bv_type P size
  | Type_scalar card => yices_new_scalar_type card
  | Type_tuple n elem => yices_tuple_type n elem
  | Type_function n dom range => yices_function_type n dom range
  end.

Definition good_types (n : Z) (a : list type_t) (s : state) : bool :=
  forallb (fun tau => negb (bad_type (types s) tau)) (firstn (Z.to_nat n) a).

Definition valid_type (call : type_call) (s : state) : bool :=
  match call with
  | Type_bv size => negb (size =? 0) && negb (size >? YICES_MAX_BVSIZE P)
  | Type_scalar card => negb (card =? 0)
  | Type_tuple n elem =>
      negb (n =? 0) && negb (n >? YICES_MAX_ARITY P) && good_types n elem s
  | Type_function n dom range =>
      negb (n =? 0) && negb (n >? YICES_MAX_ARITY P)
      && negb (bad_type (types s) range) && good_types n dom s
  end.

Lemma checks_maxbvsize n :
  checks (check_maxbvsize P n) (fun _ => negb (n >? YICES_MAX_BVSIZE P)).
Proof.
  unfold check_maxbvsize, fail_with. intros s. destruct (n >? YICES_MAX_BVSIZE P); simpl.
  - split; [discriminate|]. intros _. repeat split; simpl; discriminate.
  - split; [reflexivity | discriminate].
Qed.

(** A type constructor whose validation fails returns [NULL_TYPE],
    records an error code, and leaves the type table, the term table
    and the buffers as they were. *)
Theorem failed_type_constructor_is_side_effect_free call s :
  valid_type call s = false ->
  fst (run_type call s) = NULL_TYPE
  /\ same_tables s (snd (run_type call s))
  /\ code (error (snd (run_type call s))) <> NO_ERROR.
Proof.
  intros H. destruct call; cbn [valid_type] in H; cbn [run_type];
    unfold yices_bv_type, yices_new_scalar_type, yices_tuple_type, yices_function_type.
  - eapply guarded_fail_gen;
      [apply checks_and; [apply checks_positive | apply checks_maxbvsize]
      | exact H | reflexivity].
  - eapply guarded_fail_gen; [apply checks_positive | exact H | reflexivity].
  - eapply guarded_fail_gen;
      [repeat apply checks_and;
       [apply checks_positive | apply checks_arity | apply checks_good_types]
      | exact H | reflexivity].
  - eapply guarded_fail_gen;
      [repeat apply checks_and;
       [apply checks_positive | apply checks_arity | apply checks_good_type
       | apply checks_good_types]
      | exact H | reflexivity].
Qed.

(** ** The array checks report the first offender *)

(** [first_bad bad a i0]: the index (counted from [i0]) and the value
    of the first entry of [a] that [bad] rejects. *)
Fixpoint first_bad (bad : Z -> bool) (a : list Z) (i : Z) : option (Z * Z) :=
  match a with
  | [] => None
  | x :: a' => if bad x then Some (i, x) else first_bad bad a' (i + 1)
  end.

Lemma first_bad_least bad a : forall i0 i x,
  first_bad bad a i0 = Some (i, x) ->
  i0 <= i
  /\ nth_error a (Z.to_nat (i - i0)) = Some x
  /\ bad x = true
  /\ (forall j y, (j < Z.to_nat (i - i0))%nat -> nth_error a j = Some y -> bad y = false).
Proof.
  induction a as [|x0 a IH]; intros i0 i x H; simpl in H; [discriminate|].
  destruct (bad x0) eqn:E.
  - inversion H; subst. rewrite Z.sub_diag. simpl.
    split; [lia|]. split; [reflexivity|]. split; [exact E|]. intros j y Hj. lia.
  - destruct (IH _ _ _ H) as (Hle & Hn & Hb & Hmin).
    split; [lia|].
    replace (Z.to_nat (i - i0)) with (S (Z.to_nat (i - (i0 + 1)))) by lia.
    split; [exact Hn|]. split; [exact Hb|].
    intros [|j] y Hj Hy; simpl in Hy.
    + now inversion Hy; subst.
    + apply (Hmin j y); [lia | exact Hy].
Qed.

Lemma check_good_terms_from_report a : forall i0 s,
  check_good_terms_from i0 a s
  = match first_bad (bad_term (terms s)) a i0 with
    | None => (true, s)
    | Some (i, t) =>
        (false, set_error (with_index i (with_term1 t
                             (with_code INVALID_TERM (error s)))) s)
    end.
Proof.
  induction a as [|t a IH]; intros i0 s; simpl; [reflexivity|].
  destruct (bad_term (terms s) t); [reflexivity | apply IH].
Qed.

Lemma check_good_types_from_report a : forall i0 s,
  check_good_types_from i0 a s
  = match first_bad (bad_type (types s)) a i0 with
    | None => (true, s)
    | Some (i, t) =>
        (false, set_error (with_index i (with_type1 t
                             (with_code INVALID_TYPE (error s)))) s)
    end.
Proof.
  induction a as [|t a IH]; intros i0 s; simpl; [reflexivity|].
  destruct (bad_type (types s) t); [reflexivity | apply IH].
Qed.

(** When [check_good_terms] or [check_good_types] fails, the error
    record names the first invalid entry of the array: [index] is the
    least position holding an invalid handle and [term1] (or [type1])
    is that handle. *)
Theorem array_checks_report_first_offender n s :
  (forall a, fst (check_good_terms n a s) = false ->
     let e := error (snd (check_good_terms n a s)) in
     code e = INVALID_TERM
     /\ 0 <= index e < n
     /\ nth_error a (Z.to_nat (index e)) = Some (term1 e)
     /\ bad_term (terms s) (term1 e) = true
     /\ (forall j t, (j < Z.to_nat (index e))%nat -> nth_error a j = Some t ->
                     bad_term (terms s) t = false))
  /\ (forall a, fst (check_good_types n a s) = false ->
        let e := error (snd (check_good_types n a s)) in
        code e = INVALID_TYPE
        /\ 0 <= index e < n
        /\ nth_error a (Z.to_nat (index e)) = Some (type1 e)
        /\ bad_type (types s) (type1 e) = true
        /\ (forall j t, (j < Z.to_nat (index e))%nat -> nth_error a j = Some t ->
                        bad_type (types s) t = false)).
Proof.
  assert (Hfirstn : forall (a : list Z) k j x,
             nth_error (firstn k a) j = Some x -> nth_error a j = Some x /\ (j < k)%nat).
  { intros a k. revert a. induction k as [|k IH]; intros a j x Hx.
    - simpl in Hx. destruct j; discriminate.
    - destruct a as [|y a]; [destruct j; discriminate|].
      destruct j as [|j]; simpl in *.
      + split; [exact Hx | lia].
      + destruct (IH _ _ _ Hx). split; [assumption | lia]. }
  assert (Hfirstn' : forall (a : list Z) k j x,
             (j < k)%nat -> nth_error a j = Some x -> nth_error (firstn k a) j = Some x).
  { intros a k. revert a. induction k as [|k IH]; intros a j x Hj Hx; [lia|].
    destruct a as [|y a]; [destruct j; discriminate|].
    destruct j as [|j]; simpl in *; [exact Hx|]. apply IH; [lia | exact Hx]. }
  split; intros a Hf.
  - unfold check_good_terms in *. rewrite check_good_terms_from_report in *.
    destruct (first_bad _ _ 0) as [[i t]|] eqn:E; [|discriminate].
    destruct (first_bad_least _ _ _ E) as (Hle & Hn & Hb & Hmin).
    rewrite Z.sub_0_r in *. simpl.
    destruct (Hfirstn _ _ _ _ Hn) as [Hn' Hlt].
    split; [reflexivity|]. split; [lia|]. split; [exact Hn'|]. split; [exact Hb|].
    intros j u Hj Hu. apply (Hmin j u Hj). apply Hfirstn'; [lia | exact Hu].
  - unfold check_good_types in *. rewrite check_good_types_from_report in *.
    destruct (first_bad _ _ 0) as [[i t]|] eqn:E; [|discriminate].
    destruct (first_bad_least _ _ _ E) as (Hle & Hn & Hb & Hmin).
    rewrite Z.sub_0_r in *. simpl.
    destruct (Hfirstn _ _ _ _ Hn) as [Hn' Hlt].
    split; [reflexivity|]. split; [lia|]. split; [exact Hn'|]. split; [exact Hb|].
    intros j u Hj Hu. apply (Hmin j u Hj). apply Hfirstn'; [lia | exact Hu].
Qed.

End WithPlatform.



(** ** The properties on concrete managers *)

Lemma yices_not_involutive_witness :
  good_term (terms two_booleans_state) 6 = true
  /\ is_boolean_term (terms two_booleans_state) 6 = true
  /\ yices_not 7 two_booleans_state = (6, two_booleans_state).
Proof.
  split; [reflexivity|]. split; [reflexivity|].
  exact (@yices_not_involutive two_booleans_state 6 eq_refl eq_refl).
Defined.


Lemma binary_connectives_on_related_arguments_witness :
  2 <= YICES_MAX_ARITY ref_platform
  /\ good_term (terms two_booleans_state) 8 = true
  /\ is_boolean_term (terms two_booleans_state) 8 = true
  /\ yices_or ref_platform 2 [8; 9] two_booleans_state = (true_term, two_booleans_state)
  /\ yices_implies 8 9 two_booleans_state = (9, two_booleans_state).
Proof.
  assert (H : 2 <= YICES_MAX_ARITY ref_platform) by (simpl; lia).
  destruct (@binary_connectives_on_related_arguments ref_platform two_booleans_state 8
              H eq_refl eq_refl) as (_ & _ & Hor & _ & _ & _ & _ & _ & _ & Himp).
  split; [exact H|]. split; [reflexivity|]. split; [reflexivity|].
  split; [exact Hor | exact Himp].
Defined.

Lemma yices_or_and_complementary_witness :
  good_connective ref_platform 3 [8; 6; 9] three_booleans_state = true
  /\ (Z.to_nat 3 <= length [8; 6; 9])%nat
  /\ In 8 (firstn (Z.to_nat 3) [8; 6; 9])
  /\ In (opposite_term 8) (firstn (Z.to_nat 3) [8; 6; 9])
  /\ yices_or ref_platform 3 [8; 6; 9] three_booleans_state
     = (true_term, three_booleans_state)
  /\ yices_and ref_platform 3 [8; 6; 9] three_booleans_state
     = (false_term, three_booleans_state).
Proof.
  assert (Hl : (Z.to_nat 3 <= length [8; 6; 9])%nat) by (simpl; lia).
  assert (H1 : In 8 (firstn (Z.to_nat 3) [8; 6; 9])) by (simpl; auto).
  assert (H2 : In (opposite_term 8) (firstn (Z.to_nat 3) [8; 6; 9]))
    by (simpl; auto).
  destruct (@yices_or_and_complementary ref_platform 3 [8; 6; 9] three_booleans_state 8
              eq_refl Hl H1 H2) as [Hor Hand].
  split; [reflexivity|]. split; [exact Hl|]. split; [exact H1|]. split; [exact H2|].
  split; [exact Hor | exact Hand].
Defined.

Lemma yices_or_and_permutation_witness :
  good_connective ref_platform 3 [6; 8; 10] three_booleans_state = true
  /\ Permutation (firstn (Z.to_nat 3) [6; 8; 10]) (firstn (Z.to_nat 3) [10; 6; 8])
  /\ yices_or ref_platform 3 [6; 8; 10] three_booleans_state
     = yices_or ref_platform 3 [10; 6; 8] three_booleans_state.
Proof.
  assert (Hl : (Z.to_nat 3 <= 3)%nat) by (simpl; lia).
  assert (Hp : Permutation (firstn (Z.to_nat 3) [6; 8; 10])
                           (firstn (Z.to_nat 3) [10; 6; 8])).
  { simpl. apply Permutation_sym.
    apply (Permutation_cons_app [6; 8] [] 10). simpl. apply Permutation_refl. }
  split; [reflexivity|]. split; [exact Hp|].
  exact (proj1 (@yices_or_and_permutation ref_platform 3 [6; 8; 10] [10; 6; 8]
                  three_booleans_state eq_refl Hl Hl Hp)).
Defined.

Lemma yices_ite_trivial_witness :
  good_ite 6 8 8 two_booleans_state = true
  /\ super_type (types two_booleans_state) (term_type (terms two_booleans_state) 8)
                (term_type (terms two_booleans_state) 8) <> NULL_TYPE
  /\ yices_ite 6 8 8 two_booleans_state = (8, two_booleans_state).
Proof.
  assert (H : super_type (types two_booleans_state)
                (term_type (terms two_booleans_state) 8)
                (term_type (terms two_booleans_state) 8) <> NULL_TYPE)
    by (vm_compute; discriminate).
  split; [reflexivity|]. split; [exact H|].
  exact (proj1 (@yices_ite_trivial two_booleans_state 6 8 8 eq_refl H) eq_refl).
Defined.

Lemma yices_distinct_singleton_witness :
  good_distinct_term ref_platform 1 [6] two_booleans_state = true
  /\ yices_distinct ref_platform 1 [6] two_booleans_state
     = (true_term, two_booleans_state).
Proof.
  split; [reflexivity|].
  exact (@yices_distinct_singleton ref_platform [6] two_booleans_state eq_refl).
Defined.

(** A boolean variable, of handle 6. *)
Definition one_variable_state : state := snd (yices_variable bool_id 0 yices_init).

Lemma quantifier_on_constant_body_witness :
  good_quantified_term ref_platform (to_uint32 1) (sorted_vars 1 [6]) false_term
                       one_variable_state = true
  /\ yices_forall ref_platform 1 [6] false_term one_variable_state
     = (false_term, one_variable_state)
  /\ yices_exists ref_platform 1 [6] false_term one_variable_state
     = (false_term, one_variable_state).
Proof.
  split; [reflexivity|].
  exact (@quantifier_on_constant_body ref_platform 1 [6] false_term one_variable_state
           eq_refl (or_intror eq_refl)).
Defined.

(** The error left by a failed call survives a successful one. *)
Lemma successful_call_keeps_error_witness :
  code (error (snd (yices_not (-1) two_booleans_state))) = INVALID_TERM
  /\ table_only (Call_or 2 [6; 8]) = true
  /\ valid ref_platform (Call_or 2 [6; 8]) (snd (yices_not (-1) two_booleans_state))
     = true
  /\ fst (yices_get_error_code
            (snd (yices_or ref_platform 2 [6; 8]
                    (snd (yices_not (-1) two_booleans_state))))) = INVALID_TERM.
Proof.
  destruct (@successful_call_keeps_error ref_platform (Call_or 2 [6; 8])
              (snd (yices_not (-1) two_booleans_state)) eq_refl eq_refl)
    as (_ & Hcode & _).
  split; [reflexivity|]. split; [reflexivity|]. split; [reflexivity|].
  exact Hcode.
Defined.

Lemma failed_type_constructor_is_side_effect_free_witness :
  valid_type ref_platform (Type_function 2 [bool_id; 7] 9) yices_init = false
  /\ fst (yices_function_type ref_platform 2 [bool_id; 7] 9 yices_init) = NULL_TYPE
  /\ type1 (error (snd (yices_function_type ref_platform 2 [bool_id; 7] 9 yices_init)))
     = 9.
Proof.
  split; [reflexivity|].
  split; [|reflexivity].
  exact (proj1 (@failed_type_constructor_is_side_effect_free ref_platform
                  (Type_function 2 [bool_id; 7] 9) yices_init eq_refl)).
Defined.

Lemma array_checks_report_first_offender_witness :
  fst (check_good_terms 3 [6; 20; 30] two_booleans_state) = false
  /\ index (error (snd (check_good_terms 3 [6; 20; 30] two_booleans_state))) = 1
  /\ nth_error [6; 20; 30]
       (Z.to_nat (index (error (snd (check_good_terms 3 [6; 20; 30]
                                       two_booleans_state)))))
     = Some (term1 (error (snd (check_good_terms 3 [6; 20; 30] two_booleans_state)))).
Proof.
  split; [reflexivity|]. split; [reflexivity|].
  destruct (array_checks_report_first_offender 3 two_booleans_state) as [Ht _].
  exact (proj1 (proj2 (proj2 (Ht [6; 20; 30] eq_refl)))).
Defined.
End ApiProps.

(* ================================================================== *)
(** * Further properties of the skolemizer                             *)
(* ================================================================== *)

Module SkolemProps.

Import Skolem.
Local Open Scope Z_scope.

Section WithTermManager.

Variable world : Type.
Variable tm : term_manager_ops world.



(** ** Relations that every step of the skolemizer respects *)

Section Frame.

Variable R : (ef_skolemize_t world) -> (ef_skolemize_t world) -> Prop.
Hypothesis R_refl : forall sk, R sk sk.
Hypothesis R_trans : forall a b c, R a b -> R b c -> R a c.
Hypothesis R_manager :
  forall sk w, R sk (set_analyzer (set_manager w (analyzer sk)) sk).
Hypothesis R_uvars : forall sk v, R sk (set_uvars v sk).
Hypothesis R_body :
  forall t sk u sk', ef_skolem_body tm t sk = Some (u, sk') -> R sk sk'.

Definition respects {A} (c : SK world A) : Prop :=
  forall sk a sk', c sk = Some (a, sk') -> R sk sk'.

Lemma respects_ret A (a : A) : respects (ret a).
Proof. intros sk a' sk' H. inversion H. apply R_refl. Qed.

Lemma respects_fault A : respects (@fault world A).
Proof. intros sk a sk' H. discriminate. Qed.

Lemma respects_bind A B (c : SK world A) (k : A -> SK world B) :
  respects c -> (forall a, respects (k a)) -> respects (bind c k).
Proof.
  intros Hc Hk sk b sk' H. unfold bind in H.
  destruct (c sk) as [[a sk1]|] eqn:E; [|discriminate].
  exact (R_trans (Hc _ _ _ E) (Hk a _ _ _ H)).
Qed.

Lemma respects_call A (f : world -> A * world) : respects (call f).
Proof.
  intros sk a sk' H. unfold call in H.
  destruct (f (terms sk)) as [a' w]. inversion H. apply R_manager.
Qed.

Lemma respects_read A (c : (ef_skolemize_t world) -> SK world A) :
  (forall sk0, respects (c sk0)) -> respects (fun sk => c sk sk).
Proof. intros H sk a sk' E. exact (H sk sk a sk' E). Qed.

Lemma respects_body t : respects (ef_skolem_body tm t).
Proof. intros sk a sk' H. exact (R_body _ _ H). Qed.

Lemma respects_push vars : respects (push_uvars (world := world) vars).
Proof. intros sk a sk' H. inversion H. apply R_uvars. Qed.

Lemma respects_pop n : respects (pop_uvars (world := world) n).
Proof.
  intros sk a sk' H. unfold pop_uvars in H.
  destruct (pop_n n (uvars sk)); [|discriminate]. inversion H. apply R_uvars.
Qed.

Section Loops.

Variable rec : term_t -> SK world term_t.
Hypothesis respects_rec : forall t, respects (rec t).

Lemma respects_children v count :
  forall i args, respects (skolemize_children tm rec v i count args).
Proof.
  induction count as [|count IH]; intros i args; simpl.
  - apply respects_ret.
  - apply (respects_read (fun sk0 =>
             bind (rec (term_child tm (terms sk0) v i))
                  (fun u => skolemize_children tm rec v (S i) count
                              (ivector_push args u)))).
    intros sk0. apply respects_bind; [apply respects_rec | intros u; apply IH].
Qed.

Lemma respects_negated d :
  forall args, respects (skolemize_negated rec d args).
Proof.
  induction d as [|a d IH]; intros args; simpl.
  - apply respects_ret.
  - apply respects_bind; [apply respects_rec | intros v; apply IH].
Qed.

Ltac respects_step :=
  first [ apply respects_ret | apply respects_call | apply respects_fault
        | apply respects_body | apply respects_push | apply respects_pop
        | apply respects_children; exact respects_rec
        | apply respects_negated
        | apply respects_rec
        | apply respects_bind; [|intro] ].

Ltac from_respects sk H :=
  match type of H with
  | ?c sk = Some (?a, ?sk') =>
      apply (fun K : respects c => K sk a sk' H)
  end.

Lemma respects_negative_switch kind t n :
  respects (negative_switch tm rec kind t n).
Proof.
  intros sk a sk' H. unfold negative_switch, no_result in H.
  destruct kind;
    repeat match type of H with
           | (if ?b then _ else _) = _ => destruct b
           end;
    from_respects sk H; repeat respects_step.
Qed.

Lemma respects_positive_switch kind t n :
  respects (positive_switch tm rec kind t n).
Proof.
  intros sk a sk' H. unfold positive_switch, no_result in H.
  destruct kind;
    repeat match type of H with
           | (if ?b then _ else _) = _ => destruct b
           | match ?x with O => _ | S _ => _ end = _ => destruct x
           end;
    try discriminate;
    from_respects sk H; repeat respects_step.
Qed.

End Loops.

Lemma respects_ef_skolemize_term fuel :
  forall t, respects (ef_skolemize_term tm fuel t).
Proof.
  induction fuel as [|fuel IH]; intros t; simpl.
  - apply respects_fault.
  - intros sk a sk' H.
    destruct (term_is_atomic tm (terms sk) (unsigned_term t)).
    { inversion H. apply R_refl. }
    destruct (is_neg_term t).
    + revert H.
      match goal with
      | |- ?c sk = Some (a, sk') -> _ => intros H; apply (fun K : respects c => K sk a sk' H)
      end.
      apply respects_bind.
      * now apply respects_negative_switch.
      * intros [[result args] n0].
        destruct (result =? NULL_TERM).
        -- apply (respects_read (fun sk1 =>
                   bind (skolemize_children tm (ef_skolemize_term tm fuel)
                           (unsigned_term t) 0
                           (term_num_children tm (terms sk1) (unsigned_term t))
                           args)
                        (fun args =>
                           bind (call (ef_update_composite tm (unsigned_term t) args))
                                (fun r => ret (opposite_term r))))).
           intros sk0. apply respects_bind; [now apply respects_children|].
           intros args'. apply respects_bind; [apply respects_call|].
           intros r. apply respects_ret.
        -- apply (@respects_ret _ result).
    + revert H.
      match goal with
      | |- ?c sk = Some (a, sk') -> _ => intros H; apply (fun K : respects c => K sk a sk' H)
      end.
      apply respects_bind.
      * now apply respects_positive_switch.
      * intros [[result args] n0]. destruct (result =? NULL_TERM).
        -- apply respects_bind; [now apply respects_children|].
           intros args'. apply respects_call.
        -- apply respects_ret.
Qed.

End Frame.

(** ** What [ef_skolem_body] records *)

Lemma ef_skolem_term_counts x n uv (ef : ef_analyzer_t world) :
  num_skolem (snd (ef_skolem_term tm x n uv ef)) = num_skolem ef + 1
  /\ existentials (snd (ef_skolem_term tm x n uv ef)) = existentials ef.
Proof.
  unfold ef_skolem_term.
  destruct (yices_function_type tm _ _ _ _) as [funct w1].
  destruct (yices_new_uninterpreted_term tm _ _) as [f w2].
  destruct (yices_application tm _ _ _ _) as [a w4].
  split; reflexivity.
Qed.





Lemma record_all_records a : forall (ef ef' : ef_analyzer_t world),
  record_all a ef = Some ef' ->
  manager ef' = manager ef
  /\ num_skolem ef' = num_skolem ef
  /\ existentials ef' = rev (map (fun x => (x, x)) a) ++ existentials ef.
Proof.
  induction a as [|x a IH]; intros ef ef' H; simpl in H.
  - inversion H. now repeat split.
  - destruct (int_hmap_find (existentials ef) x); [discriminate|].
    destruct (IH _ _ H) as (Hm & Hn & He).
    rewrite Hm, Hn, He. simpl. split; [reflexivity|]. split; [reflexivity|].
    now rewrite <- app_assoc.
Qed.


Lemma skolem_all_records a uv :
  forall (ef : ef_analyzer_t world) skolems ef',
    skolem_all tm a uv ef = Some (skolems, ef') ->
    length skolems = length a
    /\ num_skolem ef' = num_skolem ef + Z.of_nat (length a)
    /\ exists funcs,
         length funcs = length a
         /\ existentials ef' = rev (combine a funcs) ++ existentials ef.
Proof.
  induction a as [|x a IH]; intros ef skolems ef' H; simpl skolem_all in H.
  - inversion H. subst. split; [reflexivity|]. split; [simpl; lia|].
    exists []. now split.
  - destruct (int_hmap_find (existentials ef) x); [discriminate|].
    pose proof (ef_skolem_term_counts x (length uv) uv ef) as [Hn He].
    destruct (ef_skolem_term tm x (length uv) uv ef) as [s ef1]. cbn [snd] in Hn, He.
    destruct (skolem_all tm a uv (int_hmap_add x (func s) ef1))
      as [[skolems3 ef3]|] eqn:E; [|discriminate].
    inversion H. subst. clear H.
    destruct (IH _ _ _ E) as (Hl & Hn' & funcs & Hf & He').
    split; [simpl; now rewrite Hl|].
    split.
    + rewrite Hn'. simpl num_skolem. rewrite Hn. simpl length. lia.
    + exists (func s :: funcs). split; [simpl; now rewrite Hf|].
      rewrite He'. simpl. rewrite He. now rewrite <- app_assoc.
Qed.




(** ** The analyzer only grows *)

(** From [sk] to [sk']: the flags are the same, the counter of skolem
    functions has not decreased and the records of existentials of
    [sk] are all still there, below the new ones. *)
Definition extends (sk sk' : ef_skolemize_t world) : Prop :=
  flatten_ite sk' = flatten_ite sk
  /\ flatten_iff sk' = flatten_iff sk
  /\ num_skolem (analyzer sk) <= num_skolem (analyzer sk')
  /\ exists new, existentials (analyzer sk') = new ++ existentials (analyzer sk).

Lemma extends_refl sk : extends sk sk.
Proof. split; [reflexivity|]. split; [reflexivity|]. split; [lia|]. now exists []. Qed.

Lemma extends_trans a b c : extends a b -> extends b c -> extends a c.
Proof.
  intros (H1 & H2 & H3 & n1 & H4) (K1 & K2 & K3 & n2 & K4).
  split; [congruence|]. split; [congruence|]. split; [lia|].
  exists (n2 ++ n1). rewrite K4, H4. now rewrite app_assoc.
Qed.

Lemma extends_body t sk u sk' :
  ef_skolem_body tm t sk = Some (u, sk') -> extends sk sk'.
Proof.
  unfold ef_skolem_body.
  destruct (length (composite_term_desc tm (terms sk) t)) as [|[|n]];
    [discriminate | discriminate |].
  destruct (uvars sk) as [|u0 uv].
  - destruct (record_all _ _) as [ef1|] eqn:E; [|discriminate].
    destruct (record_all_records _ _ E) as (_ & Hn & He).
    intros H. inversion H; subst. clear H.
    split; [reflexivity|]. split; [reflexivity|]. simpl.
    split; [lia|]. eexists. exact He.
  - destruct (skolem_all tm _ _ _) as [[skolems ef1]|] eqn:E; [|discriminate].
    destruct (skolem_all_records _ _ _ E) as (_ & Hn & funcs & _ & He).
    destruct (apply_term_subst tm _ _ _ _ _) as [body' w].
    intros H. inversion H; subst. clear H.
    split; [reflexivity|]. split; [reflexivity|]. simpl.
    split; [lia|]. eexists. exact He.
Qed.

(** Every call of [ef_skolemize_term] that returns has only added to
    the analyzer: the two flags are unchanged, the counter of skolem
    functions has not decreased, and no record of an existential
    variable has been removed or changed. *)
Theorem skolemization_only_adds fuel t (sk : ef_skolemize_t world) result sk' :
  ef_skolemize_term tm fuel t sk = Some (result, sk') ->
  flatten_ite sk' = flatten_ite sk
  /\ flatten_iff sk' = flatten_iff sk
  /\ num_skolem (analyzer sk) <= num_skolem (analyzer sk')
  /\ exists new, existentials (analyzer sk') = new ++ existentials (analyzer sk).
Proof.
  intros H.
  refine (@respects_ef_skolemize_term extends extends_refl extends_trans _ _ extends_body
            fuel t sk result sk' H).
  - intros s w. split; [reflexivity|]. split; [reflexivity|]. simpl.
    split; [lia|]. now exists [].
  - intros s v. split; [reflexivity|]. split; [reflexivity|]. simpl.
    split; [lia|]. now exists [].
Qed.

(** ** [ef_analyzer_add_existentials]

    The second function of the file that skolemizes the variables of
    [(not (forall ...))].  It does not read the stack of a skolemizer:
    it collects the universal variables by walking up the map
    [parent] from [t].  Its [assert(n >= 1)] and [assert(r == NULL)]
    are faults, as in [ef_skolem_body]. *)

(** The loop [while (r != NULL)]: [r] is the record found for the
    current term, [uv] the vector so far.  The loop does not end when
    [parent] has a cycle.  A [forall] descriptor that holds its body
    alone (excluded by [assert(m >= 2)]) contributes no variable. *)
Fixpoint collect_universals (fuel : nat) (w : world) (parent : list (term_t * term_t))
         (r : option term_t) (uv : ivector) : option ivector :=
  match r with
  | None => Some uv
  | Some p =>
      match fuel with
      | O => None
      | S fuel' =>
          let next := int_hmap_find parent p in
          match term_kind tm w p with
          | FORALL_TERM =>
              if negb (is_neg_term p)
              then
                let d := composite_term_desc tm w p in
                match length d with
                | O => None
                | S m' =>
                    collect_universals fuel' w parent next
                                       (fold_left ivector_push (firstn m' d) uv)
                end
              else collect_universals fuel' w parent next uv
          | _ => collect_universals fuel' w parent next uv
          end
      end
  end.

Definition ef_analyzer_add_existentials (fuel : nat) (ef : ef_analyzer_t world)
           (toplevel : bool) (parent : list (term_t * term_t)) (t : term_t)
  : option (term_t * ef_analyzer_t world) :=
  let w := manager ef in
  let d := composite_term_desc tm w t in
  match length d with
  | O => None
  | S O => None
  | S n =>
      let a := firstn n d in
      let body := opposite_term (nth n d NULL_TERM) in
      match (if toplevel then Some []
             else collect_universals fuel w parent (int_hmap_find parent t) []) with
      | None => None
      | Some [] =>
          match record_all a ef with
          | Some ef' => Some (body, ef')
          | None => None
          end
      | Some uv =>
          match skolem_all tm a uv ef with
          | Some (skolems, ef') =>
              let '(body', w') :=
                apply_term_subst tm n a skolems body (manager ef') in
              Some (body', set_manager w' ef')
          | None => None
          end
      end
  end.

(** The two functions agree: [ef_analyzer_add_existentials] returns
    what [ef_skolem_body] returns for a skolemizer on the same
    analyzer whose stack holds the variables collected from [parent]
    (none at top level), and it leaves the analyzer in the same state. *)
Theorem ef_analyzer_add_existentials_agrees
        fuel (ef : ef_analyzer_t world) toplevel parent t f_ite f_iff :
  ef_analyzer_add_existentials fuel ef toplevel parent t
  = match (if toplevel then Some []
           else collect_universals fuel (manager ef) parent
                                   (int_hmap_find parent t) []) with
    | None => None
    | Some uv =>
        match ef_skolem_body tm t (mk_ef_skolemize ef f_ite f_iff uv) with
        | Some (u, sk') => Some (u, analyzer sk')
        | None => None
        end
    end.
Proof.
  unfold ef_analyzer_add_existentials, ef_skolem_body. cbv zeta.
  unfold terms. cbn [analyzer uvars].
  destruct (length (composite_term_desc tm (manager ef) t)) as [|[|n]].
  - destruct (if toplevel then _ else _); reflexivity.
  - destruct (if toplevel then _ else _); reflexivity.
  - destruct (if toplevel then _ else _) as [[|u0 uv]|]; [| |reflexivity].
    + destruct (record_all _ _); reflexivity.
    + destruct (skolem_all tm _ _ _) as [[skolems ef']|]; [|reflexivity].
      destruct (apply_term_subst tm _ _ _ _ _) as [body' w]. reflexivity.
Qed.

(** *** The variables that the walk collects *)

(** [chain]: the terms met when walking up [parent] from [t]. *)
Inductive parent_chain (parent : list (term_t * term_t)) : term_t -> list term_t -> Prop :=
| chain_end t : int_hmap_find parent t = None -> parent_chain parent t []
| chain_step t p chain :
    int_hmap_find parent t = Some p ->
    parent_chain parent p chain -> parent_chain parent t (p :: chain).

(** The bound variables of [p] when [p] is a positive [forall]. *)
Definition universals_of (w : world) (p : term_t) : list term_t :=
  match term_kind tm w p with
  | FORALL_TERM =>
      if negb (is_neg_term p) then removelast (composite_term_desc tm w p) else []
  | _ => []
  end.

Lemma firstn_removelast (A : Type) (l : list A) n :
  length l = S n -> firstn n l = removelast l.
Proof.
  intros H. destruct (exists_last (l := l)) as (l' & x & ->).
  { intros ->. discriminate. }
  rewrite removelast_last. rewrite length_app in H. simpl in H.
  assert (n = length l') by lia. subst n.
  rewrite firstn_app, Nat.sub_diag, firstn_all. simpl. apply app_nil_r.
Qed.

(** When the chain of parents of [t] ends, the walk stops and has
    collected the variables of the positive [forall] terms above [t],
    those of the nearest one first. *)
Theorem collect_universals_along_chain w parent t chain fuel uv :
  parent_chain parent t chain ->
  (length chain <= fuel)%nat ->
  (forall p, In p chain -> composite_term_desc tm w p <> []) ->
  collect_universals fuel w parent (int_hmap_find parent t) uv
  = Some (uv ++ flat_map (universals_of w) chain).
Proof.
  intros Hc. revert fuel uv.
  induction Hc as [t Hn|t p chain Hp Hc IH]; intros fuel uv Hlen Hd.
  - rewrite Hn. destruct fuel; simpl; now rewrite app_nil_r.
  - rewrite Hp. destruct fuel as [|fuel]; [simpl in Hlen; lia|].
    simpl in Hlen. simpl collect_universals. simpl flat_map.
    assert (Hd' : forall q, In q chain -> composite_term_desc tm w q <> [])
      by (intros q Hq; apply Hd; now right).
    unfold universals_of at 1.
    destruct (term_kind tm w p);
      try (rewrite (IH fuel uv) by (lia || exact Hd'); reflexivity).
    destruct (is_neg_term p); simpl negb; cbv iota.
    + rewrite (IH fuel uv) by (lia || exact Hd'). reflexivity.
    + destruct (length (composite_term_desc tm w p)) as [|m] eqn:El.
      * exfalso. apply (Hd p); [now left|]. now apply length_zero_iff_nil.
      * rewrite IH by (lia || exact Hd').
        rewrite push_all, (firstn_removelast _ El). now rewrite app_assoc.
Qed.

End WithTermManager.


Lemma skolemization_only_adds_witness :
  ef_skolemize_term toy_ops 10 12 forall_exists_sk
  = Some (22, set_uvars [] skolemized_body_sk)
  /\ flatten_ite (set_uvars [] skolemized_body_sk) = true
  /\ flatten_iff (set_uvars [] skolemized_body_sk) = true
  /\ 0 <= num_skolem (analyzer (set_uvars [] skolemized_body_sk))
  /\ exists new,
      existentials (analyzer (set_uvars [] skolemized_body_sk)) = new ++ [].
Proof.
  assert (E : ef_skolemize_term toy_ops 10 12 forall_exists_sk
              = Some (22, set_uvars [] skolemized_body_sk))
    by (vm_compute; reflexivity).
  split; [exact E|].
  exact (@skolemization_only_adds toy_world toy_ops 10%nat 12 forall_exists_sk
           22 (set_uvars [] skolemized_body_sk) E).
Defined.

Lemma collect_universals_along_chain_witness :
  parent_chain [(11, 12)] 11 [12]
  /\ (length [12] <= 5)%nat
  /\ (forall p, In p [12] -> composite_term_desc toy_ops forall_exists_world p <> [])
  /\ collect_universals toy_ops 5 forall_exists_world [(11, 12)]
                        (int_hmap_find [(11, 12)] 11) []
     = Some ([] ++ [2]).
Proof.
  assert (Hc : parent_chain [(11, 12)] 11 [12]).
  { apply chain_step; [reflexivity|]. apply chain_end. reflexivity. }
  assert (Hl : (length [12] <= 5)%nat) by (simpl; lia).
  assert (Hd : forall p, In p [12] ->
                         composite_term_desc toy_ops forall_exists_world p <> []).
  { intros p [<-|[]]. discriminate. }
  split; [exact Hc|]. split; [exact Hl|]. split; [exact Hd|].
  exact (@collect_universals_along_chain toy_world toy_ops forall_exists_world
           [(11, 12)] 11 [12] 5%nat [] Hc Hl Hd).
Defined.

End SkolemProps.

(* ================================================================== *)
(** * Comparing a term with itself                                     *)
(* ================================================================== *)

Module ReflexiveProps.

Import Tables Api.
Local Open Scope Z_scope.

Section WithPlatform.

Variable P : platform.

(** The tables and the error record of [s'] are those of [s]: a call
    changed at most the internal buffers. *)
Definition buffers_only (s s' : state) : Prop :=
  terms s' = terms s /\ types s' = types s /\ error s' = error s.

Lemma buffers_only_trans a b c :
  buffers_only a b -> buffers_only b c -> buffers_only a c.
Proof. unfold buffers_only. intros (?&?&?) (?&?&?). repeat split; congruence. Qed.

(** [mk_arith_diff t t] followed by [yices_arith_eq0_atom] or by
    [yices_arith_geq0_atom] yields the true term. *)
Lemma arith_atoms0_self t s :
  (exists s', (_ <- mk_arith_diff t t ;; yices_arith_eq0_atom) s = (true_term, s')
              /\ buffers_only s s')
  /\ (exists s', (_ <- mk_arith_diff t t ;; yices_arith_geq0_atom) s = (true_term, s')
                 /\ buffers_only s s').
Proof.
  unfold mk_arith_diff, yices_arith_eq0_atom, yices_arith_geq0_atom,
    get_internal_arith_buffer, put_arith_buffer, bind, ret.
  split; (destruct (internal_arith_buffer s) as [b|]; simpl;
    unfold arith_buffer_reset at 1; rewrite arith_diff_self; simpl;
    eexists; repeat split).
Qed.

Lemma mk_arith_atoms_self t s :
  (exists s', mk_aritheq t t s = (true_term, s') /\ buffers_only s s')
  /\ (exists s', mk_arithgeq t t s = (true_term, s') /\ buffers_only s s').
Proof.
  unfold mk_aritheq, mk_arithgeq, check_for_lift_if.
  destruct (kind_eqb (term_kind (terms s) t) ITE_TERM).
  - destruct (ite_term_desc (terms s) t) as [[c a] b].
    rewrite Z.eqb_refl. simpl.
    unfold mk_lifted_aritheq, mk_lifted_arithgeq.
    split.
    + destruct (proj1 (arith_atoms0_self a s)) as (s1 & E1 & H1).
      destruct (proj1 (arith_atoms0_self b s1)) as (s2 & E2 & H2).
      unfold bind in *.
      destruct (mk_arith_diff a a s) as [u1 s1'].
      rewrite E1.
      destruct (mk_arith_diff b b s1) as [u2 s2'].
      rewrite E2.
      unfold on_terms, mk_bool_ite. rewrite Z.eqb_refl.
      eexists. split; [reflexivity|].
      apply (buffers_only_trans H1). apply (buffers_only_trans H2).
      now destruct s2.
    + destruct (proj2 (arith_atoms0_self a s)) as (s1 & E1 & H1).
      destruct (proj2 (arith_atoms0_self b s1)) as (s2 & E2 & H2).
      unfold bind in *.
      destruct (mk_arith_diff a a s) as [u1 s1'].
      rewrite E1.
      destruct (mk_arith_diff b b s1) as [u2 s2'].
      rewrite E2.
      unfold on_terms, mk_bool_ite. rewrite Z.eqb_refl.
      eexists. split; [reflexivity|].
      apply (buffers_only_trans H1). apply (buffers_only_trans H2).
      now destruct s2.
  - apply arith_atoms0_self.
Qed.

(** Comparing an arithmetic term with itself is decided without
    creating a term: [=], [>=] and [<=] give the true term, [/=], [<]
    and [>] the false term; the term table, the type table and the
    error record are unchanged. *)
Theorem arithmetic_atoms_on_equal_sides s t :
  both_arith_terms t t s = true ->
  (fst (yices_aritheq_atom t t s) = true_term
   /\ buffers_only s (snd (yices_aritheq_atom t t s)))
  /\ (fst (yices_arithgeq_atom t t s) = true_term
      /\ buffers_only s (snd (yices_arithgeq_atom t t s)))
  /\ (fst (yices_arithleq_atom t t s) = true_term
      /\ buffers_only s (snd (yices_arithleq_atom t t s)))
  /\ (fst (yices_arithneq_atom t t s) = false_term
      /\ buffers_only s (snd (yices_arithneq_atom t t s)))
  /\ (fst (yices_arithlt_atom t t s) = false_term
      /\ buffers_only s (snd (yices_arithlt_atom t t s)))
  /\ (fst (yices_arithgt_atom t t s) = false_term
      /\ buffers_only s (snd (yices_arithgt_atom t t s))).
Proof.
  intros Hv.
  destruct (proj1 (mk_arith_atoms_self t s)) as (se & Ee & He).
  destruct (proj2 (mk_arith_atoms_self t s)) as (sg & Eg & Hg).
  unfold yices_arithgt_atom, yices_arithleq_atom, yices_aritheq_atom,
    yices_arithgeq_atom, yices_arithneq_atom, yices_arithlt_atom.
  rewrite !(guarded_pass _ s (checks_both_arith_terms t t) Hv).
  unfold bind. rewrite Ee, Eg. simpl.
  repeat split; first [apply He | apply Hg].
Qed.

(** [yices_neq t t] is the false term for every valid term [t] of any
    sort, and it creates no term. *)
Theorem yices_neq_irreflexive s t :
  valid_term s t ->
  fst (yices_neq P t t s) = false_term
  /\ buffers_only s (snd (yices_neq P t t s)).
Proof.
  intros Hv. unfold yices_neq.
  rewrite (guarded_pass _ s (checks_good_eq t t) (good_eq_self Hv)).
  destruct (is_boolean_term (terms s) t).
  - unfold on_terms, mk_xor. rewrite Z.eqb_refl. simpl.
    split; [reflexivity|]. now destruct s.
  - destruct (is_arithmetic_term (terms s) t).
    + destruct (proj1 (mk_arith_atoms_self t s)) as (s' & E & H).
      unfold mk_arithneq, bind. rewrite E. simpl. split; [reflexivity | exact H].
    + destruct (is_bitvector_term s t).
      * unfold mk_bvneq. rewrite Z.eqb_refl. simpl. repeat split.
      * rewrite Z.eqb_refl. simpl. repeat split.
Qed.

End WithPlatform.

(** An integer variable, of handle 6. *)
Definition one_integer_state : state :=
  snd (yices_new_uninterpreted_term int_id yices_init).

Lemma arithmetic_atoms_on_equal_sides_witness :
  both_arith_terms 6 6 one_integer_state = true
  /\ fst (yices_arithgeq_atom 6 6 one_integer_state) = true_term
  /\ fst (yices_arithlt_atom 6 6 one_integer_state) = false_term.
Proof.
  split; [reflexivity|].
  destruct (@arithmetic_atoms_on_equal_sides one_integer_state 6 eq_refl)
    as (_ & (Hge & _) & _ & _ & (Hlt & _) & _).
  split; [exact Hge | exact Hlt].
Defined.

Lemma yices_neq_irreflexive_witness :
  valid_term one_integer_state 6
  /\ fst (yices_neq ref_platform 6 6 one_integer_state) = false_term.
Proof.
  assert (H : valid_term one_integer_state 6) by (split; reflexivity).
  split; [exact H|].
  exact (proj1 (@yices_neq_irreflexive ref_platform one_integer_state 6 H)).
Defined.

End ReflexiveProps.
